(** * cmds-eagle: the search modal, the paste-choice modal and the settings tab

    A shallow embedding of the modal classes (EagleSearchModal,
    ImagePasteChoiceModal) and of [settings.ts] (CMDSPACEEagleSettingTab),
    followed by the properties proved about them.

    Conventions.
    - A JavaScript string is the list of its UTF-16 code units.
    - A [Set<T>] is a [gset T]; an array is a [list].
    - An event handler is a function from the state before the event to the
      state after it.
    - An [async] method is cut at its [await]s: each piece runs to the next
      [await] (or to the end of the method) without interruption. *)

From Stdlib Require Import NArith ZArith String Ascii List Lia DecimalN.
From stdpp Require Import base option list gmap sets.

Local Open Scope N_scope.

Set Warnings "-clear-no-such-hyp".

(** ** JavaScript strings and the built-ins the plugin calls *)

Module JS.

(** A string value: a sequence of 16-bit code units. *)
Abbreviation jsstring := (list N).

(** A string literal with ASCII characters only. *)
Definition lit (s : string) : jsstring :=
  List.map N_of_ascii (list_ascii_of_string s).

(** [ToBoolean] on a string: the empty string is the only falsy one. *)
Definition truthy (s : jsstring) : bool :=
  match s with [] => false | _ :: _ => true end.

(** [WhiteSpace] and [LineTerminator] of ECMA-262: the characters that
    [String.prototype.trim] strips and that [\s] matches. *)
Definition isWhiteSpace (c : N) : bool :=
  (c =? 9) || (c =? 10) || (c =? 11) || (c =? 12) || (c =? 13) ||
  (c =? 32) || (c =? 160) || (c =? 5760) ||
  ((8192 <=? c) && (c <=? 8202)) ||
  (c =? 8232) || (c =? 8233) || (c =? 8239) || (c =? 8287) ||
  (c =? 12288) || (c =? 65279).

Fixpoint trimStart (s : jsstring) : jsstring :=
  match s with
  | [] => []
  | c :: r => if isWhiteSpace c then trimStart r else s
  end.

Definition trimEnd (s : jsstring) : jsstring :=
  rev (trimStart (rev s)).

(** [String.prototype.trim]. *)
Definition trim (s : jsstring) : jsstring := trimEnd (trimStart s).

(** [String.prototype.startsWith]. *)
Fixpoint startsWith (s p : jsstring) : bool :=
  match p, s with
  | [], _ => true
  | _ :: _, [] => false
  | a :: p', b :: s' => (a =? b) && startsWith s' p'
  end.

(** [s.replace(/\/$/, '')]: without the [m] flag [$] is the end of the
    input, so at most the last code unit goes. *)
Fixpoint stripTrailingSlash (s : jsstring) : jsstring :=
  match s with
  | [] => []
  | [c] => if c =? 47 then [] else [c]
  | c :: r => c :: stripTrailingSlash r
  end.

(** [s.replace(/\s+/g, rep)]: the scan emits [rep] when it enters a run of
    white space and skips the rest of the run ([\s+] is greedy); [in_run]
    says that the previous code unit belonged to a run. *)
Fixpoint replaceWsRuns (rep : jsstring) (in_run : bool) (s : jsstring)
  : jsstring :=
  match s with
  | [] => []
  | c :: r =>
      if isWhiteSpace c
      then (if in_run then replaceWsRuns rep true r
            else rep ++ replaceWsRuns rep true r)
      else c :: replaceWsRuns rep false r
  end.

(** [String.prototype.split] with a one-character separator. The result
    always has at least one segment. *)
Fixpoint split (sep : N) (s : jsstring) : list jsstring :=
  match s with
  | [] => [[]]
  | c :: r =>
      if c =? sep then [] :: split sep r
      else match split sep r with
           | seg :: segs => (c :: seg) :: segs
           | [] => [[c]]
           end
  end.

(** [Array.prototype.join] with a one-character separator. *)
Fixpoint join (sep : N) (segs : list jsstring) : jsstring :=
  match segs with
  | [] => []
  | [seg] => seg
  | seg :: rest => seg ++ sep :: join sep rest
  end.

(** [Array.prototype.includes] on an array of strings. *)
Definition includes (l : list jsstring) (x : jsstring) : bool :=
  bool_decide (x ∈ l).

(** The lower-casing of the ASCII letters; [String.prototype.toLowerCase]
    agrees with it on ASCII input. The definitions below take the
    lower-casing function as an argument, so that what is proved holds
    for the full Unicode one as well. *)
Definition asciiToLowerCase (s : jsstring) : jsstring :=
  List.map (fun c => if (65 <=? c) && (c <=? 90) then c + 32 else c) s.

(** *** Numbers

    A byte count is a non-negative integer. The quotients that the plugin
    formats are a count divided by a power of two, which binary floating
    point represents exactly for every count up to 2^53, so the digits
    below are those that the engine prints. *)

Fixpoint digitsOfUint (d : Decimal.uint) : jsstring :=
  match d with
  | Decimal.Nil => []
  | Decimal.D0 d => 48 :: digitsOfUint d
  | Decimal.D1 d => 49 :: digitsOfUint d
  | Decimal.D2 d => 50 :: digitsOfUint d
  | Decimal.D3 d => 51 :: digitsOfUint d
  | Decimal.D4 d => 52 :: digitsOfUint d
  | Decimal.D5 d => 53 :: digitsOfUint d
  | Decimal.D6 d => 54 :: digitsOfUint d
  | Decimal.D7 d => 55 :: digitsOfUint d
  | Decimal.D8 d => 56 :: digitsOfUint d
  | Decimal.D9 d => 57 :: digitsOfUint d
  end.

(** [Number::toString] on a non-negative integer: its decimal digits. *)
Definition NumberToString (n : N) : jsstring := digitsOfUint (N.to_uint n).

(** [(num / den).toFixed(1)] for an exact quotient. [toFixed] takes the
    integer [n] for which [n / 10 - x] is closest to zero, the larger one
    when two are as close, and prints it with a point before the last
    digit. *)
Definition toFixed1 (num den : N) : jsstring :=
  let n := (20 * num + den) / (2 * den) in
  NumberToString (n / 10) ++ lit "." ++ NumberToString (n mod 10).

(** *** URI encoding *)

(** [uriUnescaped]: letters, digits and [- _ . ! ~ * ' ( )]. *)
Definition isUnreserved (c : N) : bool :=
  ((65 <=? c) && (c <=? 90)) || ((97 <=? c) && (c <=? 122)) ||
  ((48 <=? c) && (c <=? 57)) ||
  (c =? 45) || (c =? 95) || (c =? 46) || (c =? 33) || (c =? 126) ||
  (c =? 42) || (c =? 39) || (c =? 40) || (c =? 41).

Definition isHighSurrogate (c : N) : bool := (55296 <=? c) && (c <=? 56319).
Definition isLowSurrogate (c : N) : bool := (56320 <=? c) && (c <=? 57343).

(** [String.prototype.isWellFormed]: no surrogate without its partner. *)
Fixpoint isWellFormed (s : jsstring) : bool :=
  match s with
  | [] => true
  | c :: r =>
      if isHighSurrogate c then
        match r with
        | d :: r' => isLowSurrogate d && isWellFormed r'
        | [] => false
        end
      else negb (isLowSurrogate c) && (c <? 65536) && isWellFormed r
  end.

Definition hexDigit (d : N) : N := if d <? 10 then 48 + d else 55 + d.

(** One octet as [%XY], upper-case hexadecimal. *)
Definition percentEncode (octet : N) : jsstring :=
  [37; hexDigit (octet / 16); hexDigit (octet mod 16)].

(** The UTF-8 octets of a code point. *)
Definition utf8Encode (cp : N) : list N :=
  if cp <? 128 then [cp]
  else if cp <? 2048 then [192 + cp / 64; 128 + cp mod 64]
  else if cp <? 65536 then
    [224 + cp / 4096; 128 + (cp / 64) mod 64; 128 + cp mod 64]
  else
    [240 + cp / 262144; 128 + (cp / 4096) mod 64;
     128 + (cp / 64) mod 64; 128 + cp mod 64].

Definition escapeCodePoint (cp : N) : jsstring :=
  flat_map percentEncode (utf8Encode cp).

(** [encodeURIComponent]: the abstract operation Encode of ECMA-262 with
    the unreserved set [uriUnescaped]. [None] stands for the [URIError]
    that it throws on a surrogate without its partner. *)
Fixpoint encodeURIComponent (s : jsstring) : option jsstring :=
  match s with
  | [] => Some []
  | c :: r =>
      if isUnreserved c then cons c <$> encodeURIComponent r
      else if isLowSurrogate c then None
      else if isHighSurrogate c then
        match r with
        | d :: r' =>
            if isLowSurrogate d then
              app (escapeCodePoint
                     (65536 + (c - 55296) * 1024 + (d - 56320)))
                <$> encodeURIComponent r'
            else None
        | [] => None
        end
      else app (escapeCodePoint c) <$> encodeURIComponent r
  end.

(** *** URI decoding

    [decodeURIComponent], in two passes: the escapes [%XY] become octets,
    then each run of octets is read as UTF-8. [None] is the [URIError]. *)

Definition hexValue (c : N) : option N :=
  if (48 <=? c) && (c <=? 57) then Some (c - 48)
  else if (65 <=? c) && (c <=? 70) then Some (c - 55)
  else if (97 <=? c) && (c <=? 102) then Some (c - 87)
  else None.

Inductive token :=
| Unit (c : N)
| Octet (b : N).

Fixpoint unescape (s : jsstring) : option (list token) :=
  match s with
  | [] => Some []
  | c :: r =>
      if c =? 37 then
        match r with
        | h :: l :: r' =>
            match hexValue h, hexValue l with
            | Some hi, Some lo => cons (Octet (16 * hi + lo)) <$> unescape r'
            | _, _ => None
            end
        | _ => None
        end
      else cons (Unit c) <$> unescape r
  end.

Definition isContinuation (b : N) : bool := (128 <=? b) && (b <? 192).

(** The code units of a code point ([UTF16EncodeCodePoint]). *)
Definition utf16Encode (cp : N) : jsstring :=
  if cp <? 65536 then [cp]
  else [55296 + (cp - 65536) / 1024; 56320 + (cp - 65536) mod 1024].

Fixpoint utf8Decode (ts : list token) : option jsstring :=
  match ts with
  | [] => Some []
  | Unit c :: r => cons c <$> utf8Decode r
  | Octet b :: r =>
      if b <? 128 then cons b <$> utf8Decode r
      else if b <? 192 then None
      else if b <? 224 then
        match r with
        | Octet b1 :: r' =>
            let cp := (b - 192) * 64 + (b1 - 128) in
            if isContinuation b1 && (128 <=? cp)
            then app (utf16Encode cp) <$> utf8Decode r'
            else None
        | _ => None
        end
      else if b <? 240 then
        match r with
        | Octet b1 :: Octet b2 :: r' =>
            let cp := (b - 224) * 4096 + (b1 - 128) * 64 + (b2 - 128) in
            if isContinuation b1 && isContinuation b2 && (2048 <=? cp)
               && negb (isHighSurrogate cp) && negb (isLowSurrogate cp)
            then app (utf16Encode cp) <$> utf8Decode r'
            else None
        | _ => None
        end
      else if b <? 248 then
        match r with
        | Octet b1 :: Octet b2 :: Octet b3 :: r' =>
            let cp := (b - 240) * 262144 + (b1 - 128) * 4096
                      + (b2 - 128) * 64 + (b3 - 128) in
            if isContinuation b1 && isContinuation b2 && isContinuation b3
               && (65536 <=? cp) && (cp <=? 1114111)
            then app (utf16Encode cp) <$> utf8Decode r'
            else None
        | _ => None
        end
      else None
  end.

Definition decodeURIComponent (s : jsstring) : option jsstring :=
  unescape s ≫= utf8Decode.

(** Removal of a known prefix; [None] when the string does not start
    with it. *)
Fixpoint stripPrefix (p s : jsstring) : option jsstring :=
  match p, s with
  | [], _ => Some s
  | _ :: _, [] => None
  | a :: p', b :: s' => if a =? b then stripPrefix p' s' else None
  end.

End JS.

Import JS.

(** ** Types of [types.ts] that the two files use *)

Inductive SearchScope := ScopeName | ScopeTags | ScopeAnnotation | ScopeFolders.

#[export] Instance SearchScope_eq_dec : EqDecision SearchScope.
Proof. solve_decision. Defined.

Definition SearchScope_to_nat (s : SearchScope) : nat :=
  match s with
  | ScopeName => 0 | ScopeTags => 1 | ScopeAnnotation => 2 | ScopeFolders => 3
  end%nat.

Definition SearchScope_of_nat (n : nat) : option SearchScope :=
  match n with
  | 0 => Some ScopeName | 1 => Some ScopeTags | 2 => Some ScopeAnnotation
  | 3 => Some ScopeFolders | _ => None
  end%nat.

#[export] Program Instance SearchScope_countable : Countable SearchScope :=
  inj_countable SearchScope_to_nat SearchScope_of_nat _.
Next Obligation. by intros []. Qed.

(** The asset record that the Eagle API returns. *)
Record EagleItem := {
  item_id : jsstring;
  item_name : jsstring;
  item_ext : jsstring;
  item_size : N;
  item_tags : list jsstring;
  item_folders : list jsstring;
  item_annotation : jsstring;
}.

(** The three extension tables of [types.ts]. Their contents are not part
    of the two files; every definition that reads them takes the tables as
    an argument. *)
Record ExtensionTables := {
  SUPPORTED_IMAGE_EXTENSIONS : list jsstring;
  SUPPORTED_VIDEO_EXTENSIONS : list jsstring;
  SUPPORTED_DOCUMENT_EXTENSIONS : list jsstring;
}.

Inductive FileTypeCategory := Images | Videos | Documents | All.

(** The per-provider credential records of [settings.cloudProviders]. *)
Record R2Config := {
  r2_enabled : bool;
  r2_workerUrl : jsstring;
  r2_apiKey : jsstring;
  r2_publicUrl : jsstring;
}.

Record ImgHippoConfig := {
  imghippo_enabled : bool;
  imghippo_apiKey : jsstring;
}.

Record S3Config := {
  s3_enabled : bool;
  s3_endpoint : jsstring;
  s3_region : jsstring;
  s3_bucket : jsstring;
  s3_accessKeyId : jsstring;
  s3_secretAccessKey : jsstring;
  s3_publicUrl : jsstring;
}.

Record WebDAVConfig := {
  webdav_enabled : bool;
  webdav_serverUrl : jsstring;
  webdav_username : jsstring;
  webdav_password : jsstring;
  webdav_uploadPath : jsstring;
  webdav_publicUrl : jsstring;
}.

Record CustomConfig := {
  custom_enabled : bool;
  custom_uploadUrl : jsstring;
  custom_publicUrl : jsstring;
}.

Record CloudProviders := {
  r2 : R2Config;
  imghippo : ImgHippoConfig;
  s3 : S3Config;
  webdav : WebDAVConfig;
  custom : CustomConfig;
}.

(** The fields of [CMDSPACEEagleSettings] that the modelled code reads or
    writes. *)
Record CMDSPACEEagleSettings := {
  searchScope : list SearchScope;
  searchFileTypes : list jsstring;
  tagNormalization : jsstring;
  tagPrefix : jsstring;
  cloudProviders : CloudProviders;
}.

(** ** The modals: EagleSearchModal *)

Module EagleSearchModal.

(** Text of the header element [libraryNameEl]. The label is kept in its
    parts; the count is printed by [toLocaleString] in the source. *)
Inductive label :=
| LabelLoading
| LabelLibrary (libraryName : jsstring)
| LabelCount (libraryName : option jsstring) (count : nat).

(** The two texts that [loadItems] passes to [new Notice(...)]. *)
Definition NoticeNotRunning : jsstring :=
  lit "Eagle is not running. Please start Eagle and try again.".
Definition NoticeLoadFailed : jsstring :=
  lit "Failed to load Eagle items. Check console for details.".

(** The fields of the modal, and a log of what it did to the outside:
    notices shown, errors written to the console, [input] events
    dispatched, and whether [close()] was called. *)
Record t := {
  allItems : list EagleItem;
  isLoading : bool;
  activeScopes : gset SearchScope;
  activeFileTypes : gset jsstring;
  libraryNameEl : option label;
  notices : list jsstring;
  consoleErrors : list jsstring;
  inputEvents : nat;
  closed : bool;
}.

Definition set_allItems (v : list EagleItem) (m : t) : t :=
  {| allItems := v; isLoading := isLoading m;
     activeScopes := activeScopes m; activeFileTypes := activeFileTypes m;
     libraryNameEl := libraryNameEl m; notices := notices m;
     consoleErrors := consoleErrors m; inputEvents := inputEvents m;
     closed := closed m |}.

Definition set_isLoading (v : bool) (m : t) : t :=
  {| allItems := allItems m; isLoading := v;
     activeScopes := activeScopes m; activeFileTypes := activeFileTypes m;
     libraryNameEl := libraryNameEl m; notices := notices m;
     consoleErrors := consoleErrors m; inputEvents := inputEvents m;
     closed := closed m |}.

Definition set_activeScopes (v : gset SearchScope) (m : t) : t :=
  {| allItems := allItems m; isLoading := isLoading m;
     activeScopes := v; activeFileTypes := activeFileTypes m;
     libraryNameEl := libraryNameEl m; notices := notices m;
     consoleErrors := consoleErrors m; inputEvents := inputEvents m;
     closed := closed m |}.

Definition set_activeFileTypes (v : gset jsstring) (m : t) : t :=
  {| allItems := allItems m; isLoading := isLoading m;
     activeScopes := activeScopes m; activeFileTypes := v;
     libraryNameEl := libraryNameEl m; notices := notices m;
     consoleErrors := consoleErrors m; inputEvents := inputEvents m;
     closed := closed m |}.

(** [libraryNameEl.setText(...)] under [if (this.libraryNameEl)]. *)
Definition setText (v : label) (m : t) : t :=
  {| allItems := allItems m; isLoading := isLoading m;
     activeScopes := activeScopes m; activeFileTypes := activeFileTypes m;
     libraryNameEl :=
       match libraryNameEl m with Some _ => Some v | None => None end;
     notices := notices m;
     consoleErrors := consoleErrors m; inputEvents := inputEvents m;
     closed := closed m |}.

Definition showNotice (v : jsstring) (m : t) : t :=
  {| allItems := allItems m; isLoading := isLoading m;
     activeScopes := activeScopes m; activeFileTypes := activeFileTypes m;
     libraryNameEl := libraryNameEl m; notices := notices m ++ [v];
     consoleErrors := consoleErrors m; inputEvents := inputEvents m;
     closed := closed m |}.

Definition consoleError (err : jsstring) (m : t) : t :=
  {| allItems := allItems m; isLoading := isLoading m;
     activeScopes := activeScopes m; activeFileTypes := activeFileTypes m;
     libraryNameEl := libraryNameEl m; notices := notices m;
     consoleErrors := consoleErrors m ++ [err];
     inputEvents := inputEvents m; closed := closed m |}.

(** [this.inputEl.dispatchEvent(new Event('input'))]. *)
Definition dispatchInput (m : t) : t :=
  {| allItems := allItems m; isLoading := isLoading m;
     activeScopes := activeScopes m; activeFileTypes := activeFileTypes m;
     libraryNameEl := libraryNameEl m; notices := notices m;
     consoleErrors := consoleErrors m; inputEvents := S (inputEvents m);
     closed := closed m |}.

(** [this.close()]. *)
Definition close (m : t) : t :=
  {| allItems := allItems m; isLoading := isLoading m;
     activeScopes := activeScopes m; activeFileTypes := activeFileTypes m;
     libraryNameEl := libraryNameEl m; notices := notices m;
     consoleErrors := consoleErrors m; inputEvents := inputEvents m;
     closed := true |}.

(** The constructor: both filters start from the saved settings, as
    [new Set(...)] of the two arrays. *)
Definition create (searchScope : list SearchScope)
    (searchFileTypes : list jsstring) : t :=
  {| allItems := []; isLoading := false;
     activeScopes := list_to_set searchScope;
     activeFileTypes := list_to_set searchFileTypes;
     libraryNameEl := None; notices := [];
     consoleErrors := []; inputEvents := 0%nat; closed := false |}.

(** *** The scope buttons *)

(** The body of the click listener of [createScopeButton], on the set. *)
Definition scopeClick (scope : SearchScope) (scopes : gset SearchScope)
  : gset SearchScope :=
  if bool_decide (scope ∈ scopes) then
    if bool_decide (1 < size scopes)%nat then scopes ∖ {[scope]}
    else scopes
  else {[scope]} ∪ scopes.

Definition createScopeButton_onClick (scope : SearchScope) (m : t) : t :=
  dispatchInput (set_activeScopes (scopeClick scope (activeScopes m)) m).

(** *** The file-type buttons *)

Definition getExtensionsForCategory (tb : ExtensionTables)
    (category : FileTypeCategory) : list jsstring :=
  match category with
  | Images => SUPPORTED_IMAGE_EXTENSIONS tb
  | Videos => SUPPORTED_VIDEO_EXTENSIONS tb
  | Documents => SUPPORTED_DOCUMENT_EXTENSIONS tb
  | All => SUPPORTED_IMAGE_EXTENSIONS tb ++ SUPPORTED_VIDEO_EXTENSIONS tb
           ++ SUPPORTED_DOCUMENT_EXTENSIONS tb
  end.

(** [extensions.some(ext => this.activeFileTypes.has(ext))]. *)
Definition isTypeCategoryActive (tb : ExtensionTables)
    (category : FileTypeCategory) (active : gset jsstring) : bool :=
  existsb (fun ext => bool_decide (ext ∈ active))
          (getExtensionsForCategory tb category).

(** [exts.forEach(ext => set.delete(ext))] and
    [exts.forEach(ext => set.add(ext))]. *)
Definition deleteEach (exts : list jsstring) (active : gset jsstring)
  : gset jsstring :=
  foldl (fun acc ext => acc ∖ {[ext]}) active exts.

Definition addEach (exts : list jsstring) (active : gset jsstring)
  : gset jsstring :=
  foldl (fun acc ext => {[ext]} ∪ acc) active exts.

Definition toggleTypeCategory (tb : ExtensionTables)
    (category : FileTypeCategory) (active : gset jsstring)
  : gset jsstring :=
  let extensions := getExtensionsForCategory tb category in
  let isCurrentlyActive := isTypeCategoryActive tb category active in
  match category with
  | All =>
      if isCurrentlyActive
      then list_to_set (SUPPORTED_IMAGE_EXTENSIONS tb)
      else list_to_set (SUPPORTED_IMAGE_EXTENSIONS tb
                        ++ SUPPORTED_VIDEO_EXTENSIONS tb
                        ++ SUPPORTED_DOCUMENT_EXTENSIONS tb)
  | _ =>
      if isCurrentlyActive then
        let removed := deleteEach extensions active in
        if bool_decide (size removed = 0%nat)
        then addEach (SUPPORTED_IMAGE_EXTENSIONS tb) removed
        else removed
      else addEach extensions active
  end.

Definition createTypeButton_onClick (tb : ExtensionTables)
    (category : FileTypeCategory) (m : t) : t :=
  dispatchInput
    (set_activeFileTypes
       (toggleTypeCategory tb category (activeFileTypes m)) m).

(** *** The item list *)

(** [getItems], with the lower-casing as an argument. *)
Definition getItems (toLowerCase : jsstring -> jsstring) (m : t)
  : list EagleItem :=
  List.filter
    (fun item =>
       bool_decide (toLowerCase (item_ext item) ∈ activeFileTypes m))
    (allItems m).

(** *** String helpers *)

Definition pathToFileUrl (path : jsstring) : option jsstring :=
  encodedPath ← join 47 <$> mapM encodeURIComponent (split 47 path);
  Some (lit "file://" ++ encodedPath).

Definition normalizeTag (toLowerCase : jsstring -> jsstring)
    (settings : CMDSPACEEagleSettings) (tag : jsstring) : jsstring :=
  let normalized := replaceWsRuns (lit "-") false tag in
  let normalized :=
    if bool_decide (tagNormalization settings = lit "lowercase")
    then toLowerCase normalized else normalized in
  if truthy (tagPrefix settings)
  then tagPrefix settings ++ lit "/" ++ normalized
  else normalized.

Definition formatFileSize (bytes : N) : jsstring :=
  if bytes <? 1024 then NumberToString bytes ++ lit " B"
  else if bytes <? 1024 * 1024 then toFixed1 bytes 1024 ++ lit " KB"
  else toFixed1 bytes (1024 * 1024) ++ lit " MB".

(** *** [loadItems]

    The method awaits three calls of the API service. A call that is in
    flight is a [pending] load: the place where it waits, with the local
    variable that is live there. *)

Inductive request := IsConnected | GetLibraryName | ListItems.

(** What an awaited call settles with. A library name that is [null] is
    the empty string here: the method only tests the name for truthiness. *)
Inductive response :=
| Connected (connected : bool)
| LibraryName (libraryName : jsstring)
| Items (items : list EagleItem)
| Throws (error : jsstring).

Inductive pending :=
| AwaitIsConnected
| AwaitGetLibraryName
| AwaitListItems (libraryName : jsstring).

Definition awaited (p : pending) : request :=
  match p with
  | AwaitIsConnected => IsConnected
  | AwaitGetLibraryName => GetLibraryName
  | AwaitListItems _ => ListItems
  end.

(** The [catch] and the [finally] block. *)
Definition catchBlock (error : jsstring) (m : t) : t :=
  showNotice NoticeLoadFailed (consoleError error m).

Definition finallyBlock (m : t) : t := set_isLoading false m.

(** The code between the [await] at [p] and the next one, when the awaited
    promise settles with [r]. The result is the modal afterwards and the
    next place to wait, [None] when the method has returned. A response of
    the wrong type for the call has no continuation. *)
Definition resume (p : pending) (r : response) (m : t)
  : option (t * option pending) :=
  match p, r with
  | _, Throws error => Some (finallyBlock (catchBlock error m), None)
  | AwaitIsConnected, Connected true => Some (m, Some AwaitGetLibraryName)
  | AwaitIsConnected, Connected false =>
      Some (finallyBlock (close (showNotice NoticeNotRunning m)), None)
  | AwaitGetLibraryName, LibraryName libraryName =>
      Some (if truthy libraryName
            then setText (LabelLibrary libraryName) m else m,
            Some (AwaitListItems libraryName))
  | AwaitListItems libraryName, Items items =>
      let m := set_allItems items m in
      let count := length (allItems m) in
      let m :=
        setText (LabelCount (if truthy libraryName then Some libraryName
                             else None) count) m in
      Some (finallyBlock (dispatchInput m), None)
  | _, _ => None
  end.

(** The modal with its loads in flight and the requests sent so far. *)
Record system := {
  modal : t;
  inflight : list pending;
  requests : list request;
}.

(** A call of [loadItems], up to its first [await]. *)
Definition loadItems (s : system) : system :=
  if isLoading (modal s) then s
  else {| modal := set_isLoading true (modal s);
          inflight := inflight s ++ [AwaitIsConnected];
          requests := requests s ++ [IsConnected] |}.

(** The promise awaited by the load in flight at index [i] settles. *)
Definition settle (i : nat) (r : response) (s : system) : system :=
  match inflight s !! i with
  | None => s
  | Some p =>
      match resume p r (modal s) with
      | None => s
      | Some (m, None) =>
          {| modal := m; inflight := delete i (inflight s);
             requests := requests s |}
      | Some (m, Some p') =>
          {| modal := m; inflight := <[i := p']> (inflight s);
             requests := requests s ++ [awaited p'] |}
      end
  end.

(** [buildFilterUI]: the header element exists when the prompt does. *)
Definition buildFilterUI (hasPrompt : bool) (m : t) : t :=
  if hasPrompt then
    {| allItems := allItems m; isLoading := isLoading m;
       activeScopes := activeScopes m; activeFileTypes := activeFileTypes m;
       libraryNameEl := Some LabelLoading; notices := notices m;
       consoleErrors := consoleErrors m; inputEvents := inputEvents m;
       closed := closed m |}
  else m.

Definition onModal (f : t -> t) (s : system) : system :=
  {| modal := f (modal s); inflight := inflight s;
     requests := requests s |}.

Definition onOpen (hasPrompt : bool) (s : system) : system :=
  loadItems (onModal (buildFilterUI hasPrompt) s).

(** What can happen to an open modal. *)
Inductive event :=
| Open (hasPrompt : bool)
| CallLoadItems
| Settle (i : nat) (r : response)
| ClickScope (scope : SearchScope)
| ClickType (category : FileTypeCategory).

Definition step (tb : ExtensionTables) (s : system) (e : event) : system :=
  match e with
  | Open hasPrompt => onOpen hasPrompt s
  | CallLoadItems => loadItems s
  | Settle i r => settle i r s
  | ClickScope scope => onModal (createScopeButton_onClick scope) s
  | ClickType category => onModal (createTypeButton_onClick tb category) s
  end.

Definition run (tb : ExtensionTables) (s : system) (es : list event)
  : system :=
  foldl (step tb) s es.

Definition start (settings : CMDSPACEEagleSettings) : system :=
  {| modal := create (searchScope settings) (searchFileTypes settings);
     inflight := []; requests := [] |}.

(** *** The search text *)

(** [getItemText]: the text that the fuzzy matcher sees for an item. *)
Definition getItemText (m : t) (item : EagleItem) : jsstring :=
  let parts : list jsstring := [] in
  let parts :=
    if bool_decide (ScopeName ∈ activeScopes m)
    then parts ++ [item_name item] else parts in
  let parts :=
    if bool_decide (ScopeTags ∈ activeScopes m)
       && (0 <? length (item_tags item))%nat
    then parts ++ [join 32 (item_tags item)] else parts in
  let parts :=
    if bool_decide (ScopeAnnotation ∈ activeScopes m)
       && truthy (item_annotation item)
    then parts ++ [item_annotation item] else parts in
  let parts :=
    if bool_decide (ScopeFolders ∈ activeScopes m)
       && (0 <? length (item_folders item))%nat
    then parts ++ [join 47 (item_folders item)] else parts in
  let text := join 32 parts in
  if truthy text then text else item_name item.

(** *** Tags in the inserted text *)

(** The test of the tag filter of [buildMetadataLine], negated: the tags
    that the cloud upload puts on an item. *)
Definition isCloudTag (tag : jsstring) : bool :=
  startsWith tag (lit "r2:")
  || bool_decide (tag = lit "r2-cloud")
  || bool_decide (tag = lit "cloud-upload").

(** [tags.map(t => `#${this.normalizeTag(t)}`).join(' ')]. *)
Definition hashtags (toLowerCase : jsstring -> jsstring)
    (settings : CMDSPACEEagleSettings) (tags : list jsstring) : jsstring :=
  join 32 (List.map (fun tag => lit "#" ++ normalizeTag toLowerCase settings tag)
                    tags).

(** The tag cell of [buildMetadataLine]: [tags || 'No tags'], where [tags]
    are the hashtags of the tags that pass the filter. *)
Definition metadataLineTags (toLowerCase : jsstring -> jsstring)
    (settings : CMDSPACEEagleSettings) (item : EagleItem) : jsstring :=
  let tags :=
    hashtags toLowerCase settings
      (List.filter (fun tag => negb (isCloudTag tag)) (item_tags item)) in
  if truthy tags then tags else lit "No tags".

(** The tag cell of [buildLinkCard]: [tags || 'None'], over all the tags. *)
Definition linkCardTags (toLowerCase : jsstring -> jsstring)
    (settings : CMDSPACEEagleSettings) (item : EagleItem) : jsstring :=
  let tags := hashtags toLowerCase settings (item_tags item) in
  if truthy tags then tags else lit "None".

(** The state of the guard: either no load is in flight and the flag is
    down, or exactly one is and the flag is up. *)
Definition guarded (s : system) : Prop :=
  (isLoading (modal s) = false /\ inflight s = [])
  \/ (isLoading (modal s) = true /\ exists p, inflight s = [p]).

End EagleSearchModal.

(** ** The modals: ImagePasteChoiceModal *)

Module ImagePasteChoiceModal.

Inductive choice := Eagle | Local | Cloud | Cancel.

Record ImagePasteChoiceResponse := {
  resp_choice : choice;
  resp_rememberChoice : bool;
}.

(** The modal: the partial [response], the stored resolver, and the
    promises handed out so far. A promise is named by its number; [settled]
    holds the value of each promise that has been resolved. *)
Record t := {
  response_choice : option choice;
  response_rememberChoice : option bool;
  resolvePromise : option nat;
  promises : nat;
  settled : gmap nat ImagePasteChoiceResponse;
}.

(** The field initialiser: [{ rememberChoice: false }], no resolver. *)
Definition create : t :=
  {| response_choice := None; response_rememberChoice := Some false;
     resolvePromise := None; promises := 0%nat; settled := ∅ |}.

(** Calling the [resolve] function of promise [p]: only the first call
    settles the promise. *)
Definition resolve (p : nat) (v : ImagePasteChoiceResponse)
    (values : gmap nat ImagePasteChoiceResponse)
  : gmap nat ImagePasteChoiceResponse :=
  match values !! p with
  | Some _ => values
  | None => <[p := v]> values
  end.

(** [getResponse]: a new promise, whose resolver replaces the stored one.
    The result is the modal afterwards and the promise returned. *)
Definition getResponse (m : t) : t * nat :=
  ({| response_choice := response_choice m;
      response_rememberChoice := response_rememberChoice m;
      resolvePromise := Some (promises m);
      promises := S (promises m);
      settled := settled m |},
   promises m).

Definition onClose (m : t) : t :=
  match resolvePromise m with
  | Some p =>
      {| response_choice := response_choice m;
         response_rememberChoice := response_rememberChoice m;
         resolvePromise := resolvePromise m;
         promises := promises m;
         settled :=
           resolve p
             {| resp_choice := default Cancel (response_choice m);
                resp_rememberChoice :=
                  default false (response_rememberChoice m) |}
             (settled m) |}
  | None => m
  end.

(** The click listener of a destination button: record the choice, then
    [this.close()], which runs [onClose]. *)
Definition button_onClick (c : choice) (m : t) : t :=
  onClose
    {| response_choice := Some c;
       response_rememberChoice := response_rememberChoice m;
       resolvePromise := resolvePromise m;
       promises := promises m;
       settled := settled m |}.

(** The [onChange] callback of the toggle. *)
Definition toggle_onChange (value : bool) (m : t) : t :=
  {| response_choice := response_choice m;
     response_rememberChoice := Some value;
     resolvePromise := resolvePromise m;
     promises := promises m;
     settled := settled m |}.

(** [onOpen] builds the content and touches no field. *)
Definition onOpen (m : t) : t := m.

Inductive event :=
| CallGetResponse
| OpenModal
| ClickEagle
| ClickLocal
| ClickCloud
| Toggle (value : bool)
| Dismiss.

Definition step (m : t) (e : event) : t :=
  match e with
  | CallGetResponse => fst (getResponse m)
  | OpenModal => onOpen m
  | ClickEagle => button_onClick Eagle m
  | ClickLocal => button_onClick Local m
  | ClickCloud => button_onClick Cloud m
  | Toggle value => toggle_onChange value m
  | Dismiss => onClose m
  end.

Definition run (m : t) (es : list event) : t := foldl step m es.

(** The events that neither close the modal nor pick a destination. *)
Definition quiet (e : event) : bool :=
  match e with
  | CallGetResponse | OpenModal | Toggle _ => true
  | _ => false
  end.

(** The value of the last [Toggle] of a trace, [d] when there is none. *)
Definition lastToggle (d : bool) (es : list event) : bool :=
  foldl (fun acc e => match e with Toggle v => v | _ => acc end) d es.

(** The number of [getResponse] calls of a trace. *)
Definition calls (es : list event) : nat :=
  length (List.filter
            (fun e => match e with CallGetResponse => true | _ => false end)
            es).

(** The destination that a click records, for the three buttons. *)
Definition picked (e : event) : option choice :=
  match e with
  | ClickEagle => Some Eagle
  | ClickLocal => Some Local
  | ClickCloud => Some Cloud
  | _ => None
  end.

End ImagePasteChoiceModal.

(** ** [settings.ts]: CMDSPACEEagleSettingTab *)

Module SettingTab.

(** *** Cloudflare R2 *)

Definition r2_workerUrl_onChange (value : jsstring) (c : R2Config)
  : R2Config :=
  let url := trim value in
  let url :=
    if truthy url && negb (startsWith url (lit "http"))
    then lit "https://" ++ url else url in
  let url := stripTrailingSlash url in
  {| r2_enabled := truthy url && truthy (r2_apiKey c);
     r2_workerUrl := url;
     r2_apiKey := r2_apiKey c;
     r2_publicUrl := r2_publicUrl c |}.

Definition r2_apiKey_onChange (value : jsstring) (c : R2Config)
  : R2Config :=
  {| r2_enabled := truthy (r2_workerUrl c) && truthy (trim value);
     r2_workerUrl := r2_workerUrl c;
     r2_apiKey := trim value;
     r2_publicUrl := r2_publicUrl c |}.

Definition r2_publicUrl_onChange (value : jsstring) (c : R2Config)
  : R2Config :=
  {| r2_enabled := r2_enabled c;
     r2_workerUrl := r2_workerUrl c;
     r2_apiKey := r2_apiKey c;
     r2_publicUrl := stripTrailingSlash (trim value) |}.

(** *** ImgHippo *)

Definition imghippo_apiKey_onChange (value : jsstring) (c : ImgHippoConfig)
  : ImgHippoConfig :=
  {| imghippo_enabled := truthy (trim value);
     imghippo_apiKey := trim value |}.

(** *** Amazon S3 *)

Definition s3_endpoint_onChange (value : jsstring) (c : S3Config)
  : S3Config :=
  {| s3_enabled := s3_enabled c;
     s3_endpoint := trim value;
     s3_region := s3_region c;
     s3_bucket := s3_bucket c;
     s3_accessKeyId := s3_accessKeyId c;
     s3_secretAccessKey := s3_secretAccessKey c;
     s3_publicUrl := s3_publicUrl c |}.

Definition s3_region_onChange (value : jsstring) (c : S3Config)
  : S3Config :=
  {| s3_enabled := s3_enabled c;
     s3_endpoint := s3_endpoint c;
     s3_region := trim value;
     s3_bucket := s3_bucket c;
     s3_accessKeyId := s3_accessKeyId c;
     s3_secretAccessKey := s3_secretAccessKey c;
     s3_publicUrl := s3_publicUrl c |}.

Definition s3_bucket_onChange (value : jsstring) (c : S3Config)
  : S3Config :=
  {| s3_enabled := s3_enabled c;
     s3_endpoint := s3_endpoint c;
     s3_region := s3_region c;
     s3_bucket := trim value;
     s3_accessKeyId := s3_accessKeyId c;
     s3_secretAccessKey := s3_secretAccessKey c;
     s3_publicUrl := s3_publicUrl c |}.

Definition s3_accessKeyId_onChange (value : jsstring) (c : S3Config)
  : S3Config :=
  {| s3_enabled := s3_enabled c;
     s3_endpoint := s3_endpoint c;
     s3_region := s3_region c;
     s3_bucket := s3_bucket c;
     s3_accessKeyId := trim value;
     s3_secretAccessKey := s3_secretAccessKey c;
     s3_publicUrl := s3_publicUrl c |}.

Definition s3_secretAccessKey_onChange (value : jsstring) (c : S3Config)
  : S3Config :=
  {| s3_enabled :=
       truthy (s3_endpoint c) && truthy (s3_accessKeyId c)
       && truthy (trim value);
     s3_endpoint := s3_endpoint c;
     s3_region := s3_region c;
     s3_bucket := s3_bucket c;
     s3_accessKeyId := s3_accessKeyId c;
     s3_secretAccessKey := trim value;
     s3_publicUrl := s3_publicUrl c |}.

Definition s3_publicUrl_onChange (value : jsstring) (c : S3Config)
  : S3Config :=
  {| s3_enabled := s3_enabled c;
     s3_endpoint := s3_endpoint c;
     s3_region := s3_region c;
     s3_bucket := s3_bucket c;
     s3_accessKeyId := s3_accessKeyId c;
     s3_secretAccessKey := s3_secretAccessKey c;
     s3_publicUrl := trim value |}.

(** *** WebDAV *)

Definition webdav_serverUrl_onChange (value : jsstring) (c : WebDAVConfig)
  : WebDAVConfig :=
  {| webdav_enabled := webdav_enabled c;
     webdav_serverUrl := trim value;
     webdav_username := webdav_username c;
     webdav_password := webdav_password c;
     webdav_uploadPath := webdav_uploadPath c;
     webdav_publicUrl := webdav_publicUrl c |}.

Definition webdav_username_onChange (value : jsstring) (c : WebDAVConfig)
  : WebDAVConfig :=
  {| webdav_enabled := webdav_enabled c;
     webdav_serverUrl := webdav_serverUrl c;
     webdav_username := trim value;
     webdav_password := webdav_password c;
     webdav_uploadPath := webdav_uploadPath c;
     webdav_publicUrl := webdav_publicUrl c |}.

Definition webdav_password_onChange (value : jsstring) (c : WebDAVConfig)
  : WebDAVConfig :=
  {| webdav_enabled :=
       truthy (webdav_serverUrl c) && truthy (webdav_username c)
       && truthy value;
     webdav_serverUrl := webdav_serverUrl c;
     webdav_username := webdav_username c;
     webdav_password := value;
     webdav_uploadPath := webdav_uploadPath c;
     webdav_publicUrl := webdav_publicUrl c |}.

Definition webdav_uploadPath_onChange (value : jsstring) (c : WebDAVConfig)
  : WebDAVConfig :=
  {| webdav_enabled := webdav_enabled c;
     webdav_serverUrl := webdav_serverUrl c;
     webdav_username := webdav_username c;
     webdav_password := webdav_password c;
     webdav_uploadPath :=
       if truthy (trim value) then trim value else lit "/eagle-uploads";
     webdav_publicUrl := webdav_publicUrl c |}.

Definition webdav_publicUrl_onChange (value : jsstring) (c : WebDAVConfig)
  : WebDAVConfig :=
  {| webdav_enabled := webdav_enabled c;
     webdav_serverUrl := webdav_serverUrl c;
     webdav_username := webdav_username c;
     webdav_password := webdav_password c;
     webdav_uploadPath := webdav_uploadPath c;
     webdav_publicUrl := trim value |}.

(** *** Custom server *)

Definition custom_uploadUrl_onChange (value : jsstring) (c : CustomConfig)
  : CustomConfig :=
  {| custom_enabled := truthy (trim value);
     custom_uploadUrl := trim value;
     custom_publicUrl := custom_publicUrl c |}.

Definition custom_publicUrl_onChange (value : jsstring) (c : CustomConfig)
  : CustomConfig :=
  {| custom_enabled := custom_enabled c;
     custom_uploadUrl := custom_uploadUrl c;
     custom_publicUrl := trim value |}.

(** The edits of one provider's fields, as events. *)
Inductive r2_field := R2WorkerUrl | R2ApiKey | R2PublicUrl.
Inductive s3_field :=
  S3Endpoint | S3Region | S3Bucket | S3AccessKeyId | S3SecretAccessKey
| S3PublicUrl.
Inductive webdav_field :=
  WebDAVServerUrl | WebDAVUsername | WebDAVPassword | WebDAVUploadPath
| WebDAVPublicUrl.
Inductive custom_field := CustomUploadUrl | CustomPublicUrl.

Definition r2_edit (c : R2Config) (e : r2_field * jsstring) : R2Config :=
  match fst e with
  | R2WorkerUrl => r2_workerUrl_onChange (snd e) c
  | R2ApiKey => r2_apiKey_onChange (snd e) c
  | R2PublicUrl => r2_publicUrl_onChange (snd e) c
  end.

Definition imghippo_edit (c : ImgHippoConfig) (value : jsstring)
  : ImgHippoConfig :=
  imghippo_apiKey_onChange value c.

Definition s3_edit (c : S3Config) (e : s3_field * jsstring) : S3Config :=
  match fst e with
  | S3Endpoint => s3_endpoint_onChange (snd e) c
  | S3Region => s3_region_onChange (snd e) c
  | S3Bucket => s3_bucket_onChange (snd e) c
  | S3AccessKeyId => s3_accessKeyId_onChange (snd e) c
  | S3SecretAccessKey => s3_secretAccessKey_onChange (snd e) c
  | S3PublicUrl => s3_publicUrl_onChange (snd e) c
  end.

Definition webdav_edit (c : WebDAVConfig) (e : webdav_field * jsstring)
  : WebDAVConfig :=
  match fst e with
  | WebDAVServerUrl => webdav_serverUrl_onChange (snd e) c
  | WebDAVUsername => webdav_username_onChange (snd e) c
  | WebDAVPassword => webdav_password_onChange (snd e) c
  | WebDAVUploadPath => webdav_uploadPath_onChange (snd e) c
  | WebDAVPublicUrl => webdav_publicUrl_onChange (snd e) c
  end.

Definition custom_edit (c : CustomConfig) (e : custom_field * jsstring)
  : CustomConfig :=
  match fst e with
  | CustomUploadUrl => custom_uploadUrl_onChange (snd e) c
  | CustomPublicUrl => custom_publicUrl_onChange (snd e) c
  end.

(** All the credentials that a provider needs are present. *)
Definition r2_configured (c : R2Config) : bool :=
  truthy (r2_workerUrl c) && truthy (r2_apiKey c).
Definition imghippo_configured (c : ImgHippoConfig) : bool :=
  truthy (imghippo_apiKey c).
Definition s3_configured (c : S3Config) : bool :=
  truthy (s3_endpoint c) && truthy (s3_accessKeyId c)
  && truthy (s3_secretAccessKey c).
Definition webdav_configured (c : WebDAVConfig) : bool :=
  truthy (webdav_serverUrl c) && truthy (webdav_username c)
  && truthy (webdav_password c).
Definition custom_configured (c : CustomConfig) : bool :=
  truthy (custom_uploadUrl c).

(** A provider before any credential has been entered. *)
Definition s3_blank : S3Config :=
  {| s3_enabled := false; s3_endpoint := []; s3_region := [];
     s3_bucket := []; s3_accessKeyId := []; s3_secretAccessKey := [];
     s3_publicUrl := [] |}.

Definition webdav_blank : WebDAVConfig :=
  {| webdav_enabled := false; webdav_serverUrl := [];
     webdav_username := []; webdav_password := [];
     webdav_uploadPath := []; webdav_publicUrl := [] |}.

Definition providers_blank : CloudProviders :=
  {| r2 := {| r2_enabled := false; r2_workerUrl := []; r2_apiKey := [];
              r2_publicUrl := [] |};
     imghippo := {| imghippo_enabled := false; imghippo_apiKey := [] |};
     s3 := s3_blank;
     webdav := webdav_blank;
     custom := {| custom_enabled := false; custom_uploadUrl := [];
                  custom_publicUrl := [] |} |}.

(** *** Search filters *)

(** The click listener of a scope button, on [settings.searchScope]. *)
Definition scopeButton_onClick (key : SearchScope)
    (scopes : list SearchScope) : list SearchScope :=
  if bool_decide (key ∈ scopes) then
    if bool_decide (1 < length scopes)%nat
    then List.filter (fun s => bool_decide (s ≠ key)) scopes
    else scopes
  else scopes ++ [key].

(** [exts.every(ext => fileTypes.includes(ext))]. *)
Definition hasAll (exts fileTypes : list jsstring) : bool :=
  forallb (includes fileTypes) exts.

(** [exts.forEach(ext => { if (!fileTypes.includes(ext))
    fileTypes.push(ext) })]. *)
Definition pushMissing (exts fileTypes : list jsstring) : list jsstring :=
  foldl (fun acc ext => if includes acc ext then acc else acc ++ [ext])
        fileTypes exts.

(** The click listener shared by the three type buttons, on
    [settings.searchFileTypes]; [exts] is the table of the button. *)
Definition typeButton_onClick (tb : ExtensionTables) (exts : list jsstring)
    (fileTypes : list jsstring) : list jsstring :=
  let fileTypes :=
    if hasAll exts fileTypes
    then List.filter (fun ext => negb (includes exts ext)) fileTypes
    else pushMissing exts fileTypes in
  if bool_decide (length fileTypes = 0%nat)
  then SUPPORTED_IMAGE_EXTENSIONS tb
  else fileTypes.

Definition imgBtn_onClick (tb : ExtensionTables) :=
  typeButton_onClick tb (SUPPORTED_IMAGE_EXTENSIONS tb).
Definition vidBtn_onClick (tb : ExtensionTables) :=
  typeButton_onClick tb (SUPPORTED_VIDEO_EXTENSIONS tb).
Definition docBtn_onClick (tb : ExtensionTables) :=
  typeButton_onClick tb (SUPPORTED_DOCUMENT_EXTENSIONS tb).

Inductive typeButton := ImgBtn | VidBtn | DocBtn.

Definition typeClick (tb : ExtensionTables) (fileTypes : list jsstring)
    (b : typeButton) : list jsstring :=
  match b with
  | ImgBtn => imgBtn_onClick tb fileTypes
  | VidBtn => vidBtn_onClick tb fileTypes
  | DocBtn => docBtn_onClick tb fileTypes
  end.

(** *** Connection *)

(** The result of [parseInt]: not a number, an integer, or an infinity. *)
Inductive Number :=
| NaN
| Finite (z : Z)
| Infinity (negative : bool).

Definition isNaN (n : Number) : bool :=
  match n with NaN => true | _ => false end.

(** [n > 0]. *)
Definition isPositive (n : Number) : bool :=
  match n with
  | NaN => false
  | Finite z => (0 <? z)%Z
  | Infinity negative => negb negative
  end.

(** The [onChange] of 'Eagle API Base URL', on the field. *)
Definition eagleApiBaseUrl_onChange (value : jsstring) : jsstring :=
  if truthy value then value else lit "http://localhost:41595".

(** The [onChange] of 'Connection Timeout', on the field; [parseInt] is
    [value => parseInt(value, 10)]. *)
Definition connectionTimeout_onChange (parseInt : jsstring -> Number)
    (connectionTimeout : Number) (value : jsstring) : Number :=
  let num := parseInt value in
  if negb (isNaN num) && isPositive num then num else connectionTimeout.

(** The text fields of the S3 record. *)
Definition s3_texts (c : S3Config) : list jsstring :=
  [s3_endpoint c; s3_region c; s3_bucket c; s3_accessKeyId c;
   s3_secretAccessKey c; s3_publicUrl c].

End SettingTab.

(** ** Specification-side notions *)

(** [selected keep l r]: [r] holds the elements of [l] that satisfy [keep],
    each as often as in [l] and in the order of [l]. *)
Inductive selected {A} (keep : A -> Prop) : list A -> list A -> Prop :=
| selected_nil : selected keep [] []
| selected_keep x l r :
    keep x -> selected keep l r -> selected keep (x :: l) (x :: r)
| selected_drop x l r :
    ~ keep x -> selected keep l r -> selected keep (x :: l) r.

(** [nearestTenths num den t]: [t / 10] is a multiple of one tenth nearest to
    the quotient [num / den], that is, at most one twentieth away from it. *)
Definition nearestTenths (num den t : N) : Prop :=
  2 * (t * den) <= 2 * (10 * num) + den
  /\ 2 * (10 * num) <= 2 * (t * den) + den.

(** The decimal numeral of [t / 10] with one digit after the point. *)
Definition oneDecimal (t : N) : jsstring :=
  NumberToString (t / 10) ++ lit "." ++ NumberToString (t mod 10).

(** The value of a string of decimal digits. *)
Definition digitsValue (s : jsstring) : N :=
  foldl (fun acc c => 10 * acc + (c - 48)) 0 s.

(** [Number.MAX_SAFE_INTEGER]: up to it every integer is a Number. *)
Definition MAX_SAFE_INTEGER : N := 2 ^ 53 - 1.

(** A tag cut into pieces: stretches of white space and stretches of other
    characters. *)
Inductive piece :=
| Text (s : jsstring)
| Space (s : jsstring).

Definition pieceSource (p : piece) : jsstring :=
  match p with Text s | Space s => s end.

(** A stretch of white space becomes one hyphen. *)
Definition pieceHyphenated (p : piece) : jsstring :=
  match p with Text s => s | Space _ => lit "-" end.

Definition pieceOk (p : piece) : bool :=
  match p with
  | Text s => truthy s && forallb (fun c => negb (isWhiteSpace c)) s
  | Space s => truthy s && forallb isWhiteSpace s
  end.

Definition isSpace (p : piece) : bool :=
  match p with Space _ => true | Text _ => false end.

(** The pieces are the maximal runs of a string: none is empty, each is of
    one kind, and the kinds alternate. *)
Fixpoint maximalRuns (ps : list piece) : bool :=
  match ps with
  | [] => true
  | p :: rest =>
      pieceOk p
      && match rest with
         | q :: _ => negb (Bool.eqb (isSpace p) (isSpace q))
         | [] => true
         end
      && maximalRuns rest
  end.

(** The maximal runs of a string. *)
Fixpoint runsOf (s : jsstring) : list piece :=
  match s with
  | [] => []
  | c :: r =>
      match isWhiteSpace c, runsOf r with
      | true, Space w :: ps => Space (c :: w) :: ps
      | true, ps => Space [c] :: ps
      | false, Text t :: ps => Text (c :: t) :: ps
      | false, ps => Text [c] :: ps
      end
  end.

(** The way back from a file URL that the round trip takes: drop
    [file://], split at the slashes, percent-decode each segment, and put
    the segments together again. *)
Definition fileUrlToPath (url : jsstring) : option jsstring :=
  rest ← stripPrefix (lit "file://") url;
  segments ← mapM decodeURIComponent (split 47 rest);
  Some (join 47 segments).

(** [s] is encoded to a string without a slash that decodes back to [s]. *)
Definition decodesBack (s : jsstring) : Prop :=
  exists (e : jsstring) (ts : list token),
    encodeURIComponent s = Some e
    /\ unescape e = Some ts
    /\ utf8Decode ts = Some s
    /\ 47 ∉ e.

(** A log of requests in which the library name is only asked right after
    a connection check, and the listing right after the library name. *)
Definition orderly (log : list EagleSearchModal.request) : Prop :=
  forall (k : nat) (r : EagleSearchModal.request),
    log !! k = Some r ->
    match r with
    | EagleSearchModal.IsConnected => True
    | EagleSearchModal.GetLibraryName =>
        exists j, k = S j /\ log !! j = Some EagleSearchModal.IsConnected
    | EagleSearchModal.ListItems =>
        exists j, k = S j /\ log !! j = Some EagleSearchModal.GetLibraryName
    end.

(** * Properties *)

Ltac Zify.zify_post_hook ::= Z.to_euclidean_division_equations.

(** Turns boolean tests on numbers, in the goal and the hypotheses, into
    propositions that [lia] understands. *)
Ltac tests_to_props :=
  repeat match goal with
    | H : _ && _ = true |- _ => apply andb_prop in H as [? ?]
    | H : _ || _ = false |- _ => apply orb_false_elim in H as [? ?]
    | H : negb _ = true |- _ => apply negb_true_iff in H
    | H : negb _ = false |- _ => apply negb_false_iff in H
    | H : (_ <? _) = true |- _ => apply N.ltb_lt in H
    | H : (_ <? _) = false |- _ => apply N.ltb_ge in H
    | H : (_ <=? _) = true |- _ => apply N.leb_le in H
    | H : (_ <=? _) = false |- _ => apply N.leb_gt in H
    | H : (_ =? _) = true |- _ => apply N.eqb_eq in H
    | H : (_ =? _) = false |- _ => apply N.eqb_neq in H
    end.

(** Decides the numeric tests of the goal one by one, closing the branches
    that the hypotheses exclude. *)
Ltac decide_tests :=
  repeat match goal with
    | |- context [?a <? ?b] =>
        destruct (N.ltb_spec a b); try (exfalso; lia)
    | |- context [?a <=? ?b] =>
        destruct (N.leb_spec a b); try (exfalso; lia)
    | |- context [?a =? ?b] =>
        destruct (N.eqb_spec a b); try (exfalso; lia)
    end.


(** ** The item filter *)

Section GetItems.

Variable toLowerCase : jsstring -> jsstring.

Lemma selected_filter {A} (keep : A -> Prop) `{!∀ x, Decision (keep x)}
    (l : list A) :
  selected keep l (List.filter (fun x => bool_decide (keep x)) l).
Proof.
  induction l as [|x l IH]; simpl; [constructor|].
  case_bool_decide; constructor; assumption.
Qed.

Lemma selected_functional {A} (keep : A -> Prop) (l r1 r2 : list A) :
  selected keep l r1 -> selected keep l r2 -> r1 = r2.
Proof.
  intros H1; revert r2.
  induction H1 as [|x l r Hx _ IH|x l r Hx _ IH]; intros r2 H2;
    inversion H2; subst; try contradiction; auto.
  f_equal; auto.
Qed.

Lemma selected_sublist {A} (keep : A -> Prop) (l r : list A) :
  selected keep l r -> sublist r l.
Proof. induction 1; by constructor. Qed.

Lemma selected_elem_of {A} (keep : A -> Prop) (l r : list A) :
  selected keep l r -> forall x, x ∈ r <-> x ∈ l /\ keep x.
Proof.
  induction 1 as [|y l r Hy _ IH|y l r Hy _ IH]; intros x.
  - split; [intros H; inversion H | intros [H _]; inversion H].
  - rewrite !elem_of_cons, IH. intuition (subst; auto).
  - rewrite elem_of_cons, IH. intuition (subst; auto; contradiction).
Qed.

(** C1. [getItems] returns exactly the loaded items whose lower-cased
    extension is in the active file-type set, in the order of the loaded
    list: a list is the in-order selection of those items if and only if
    it is the result. In particular the result is a sublist of the loaded
    list and contains an item exactly when the item is loaded and its
    lower-cased extension is active. *)
Theorem getItems_selects_active_types (m : EagleSearchModal.t) :
  (forall r,
      selected (fun item => toLowerCase (item_ext item)
                            ∈ EagleSearchModal.activeFileTypes m)
               (EagleSearchModal.allItems m) r
      <-> r = EagleSearchModal.getItems toLowerCase m)
  /\ sublist (EagleSearchModal.getItems toLowerCase m)
             (EagleSearchModal.allItems m)
  /\ (forall item,
        item ∈ EagleSearchModal.getItems toLowerCase m
        <-> item ∈ EagleSearchModal.allItems m
            /\ toLowerCase (item_ext item)
               ∈ EagleSearchModal.activeFileTypes m).
Proof.
  pose (shown := fun item => toLowerCase (item_ext item)
                             ∈ EagleSearchModal.activeFileTypes m).
  assert (Hsel : selected shown (EagleSearchModal.allItems m)
                   (EagleSearchModal.getItems toLowerCase m))
    by apply (selected_filter shown).
  split; [|split].
  - intros r; split.
    + intros Hr. eapply selected_functional; eassumption.
    + intros ->. exact Hsel.
  - eapply selected_sublist, Hsel.
  - apply (selected_elem_of _ _ _ Hsel).
Qed.

End GetItems.

Lemma getItems_selects_active_types_witness :
  let item ext :=
    {| item_id := lit "K1"; item_name := lit "shot"; item_ext := ext;
       item_size := 2048; item_tags := []; item_folders := [];
       item_annotation := [] |} in
  let m :=
    EagleSearchModal.set_allItems
      [item (lit "PNG"); item (lit "mp4"); item (lit "jpg")]
      (EagleSearchModal.create [ScopeName] [lit "png"; lit "jpg"]) in
  EagleSearchModal.getItems asciiToLowerCase m
  = [item (lit "PNG"); item (lit "jpg")].
Proof.
  intros item m. symmetry.
  apply (proj1 (getItems_selects_active_types asciiToLowerCase m)).
  apply selected_keep; [apply (bool_decide_unpack _); vm_compute; exact I|].
  apply selected_drop; [apply (bool_decide_unpack _); vm_compute; exact I|].
  apply selected_keep; [apply (bool_decide_unpack _); vm_compute; exact I|].
  apply selected_nil.
Defined.

(** ** The search scopes *)

Section Scopes.

Import EagleSearchModal SettingTab.

Lemma scopeClick_nonempty scope (scopes : gset SearchScope) :
  scopes ≠ ∅ -> scopeClick scope scopes ≠ ∅.
Proof.
  intros Hne. unfold scopeClick.
  case_bool_decide as Hin; [case_bool_decide as Hsz|].
  - intros Hempty.
    assert (Hsub : ({[scope]} : gset SearchScope) ⊆ scopes)
      by (by apply singleton_subseteq_l).
    apply size_difference in Hsub.
    rewrite Hempty, size_empty, size_singleton in Hsub. lia.
  - exact Hne.
  - set_solver.
Qed.

Lemma scopeClick_last scope (scopes : gset SearchScope) :
  scope ∈ scopes -> size scopes = 1%nat -> scopeClick scope scopes = scopes.
Proof.
  intros Hin Hsz. unfold scopeClick.
  rewrite bool_decide_eq_true_2 by done.
  rewrite bool_decide_eq_false_2 by lia. done.
Qed.

Lemma filter_ne_length (key : SearchScope) (scopes : list SearchScope) :
  NoDup scopes -> key ∈ scopes ->
  S (length (List.filter (fun s => bool_decide (s ≠ key)) scopes))
  = length scopes.
Proof.
  induction 1 as [|x l Hx Hnd IH]; intros Hin; [inversion Hin|].
  simpl. case_bool_decide as Hxk.
  - simpl. f_equal. apply IH.
    apply elem_of_cons in Hin as [->|]; [done|assumption].
  - subst x. f_equal.
    clear IH Hin Hnd. induction l as [|y l IH]; [done|].
    simpl. apply not_elem_of_cons in Hx as [Hne Hx].
    rewrite bool_decide_eq_true_2 by done. simpl. f_equal. auto.
Qed.

Lemma filter_NoDup {A} (f : A -> bool) (l : list A) :
  NoDup l -> NoDup (List.filter f l).
Proof.
  induction 1 as [|x l Hx Hnd IH]; simpl; [constructor|].
  destruct (f x); [|assumption]. constructor; [|assumption].
  intros Hin. apply Hx. apply list_elem_of_In in Hin.
  apply filter_In in Hin as [Hin _]. by apply list_elem_of_In.
Qed.

Lemma scopeButton_onClick_keeps key (scopes : list SearchScope) :
  NoDup scopes -> scopes ≠ [] ->
  NoDup (scopeButton_onClick key scopes)
  /\ scopeButton_onClick key scopes ≠ [].
Proof.
  intros Hnd Hne. unfold scopeButton_onClick.
  case_bool_decide as Hin; [case_bool_decide as Hlen|].
  - split; [by apply filter_NoDup|].
    intros Hempty. pose proof (filter_ne_length key scopes Hnd Hin) as Hl.
    rewrite Hempty in Hl. simpl in Hl. lia.
  - done.
  - split; [|by destruct scopes].
    apply NoDup_app. repeat split; [assumption| |apply NoDup_singleton].
    intros x Hx Hx'. apply list_elem_of_singleton in Hx'. by subst.
Qed.

Lemma scopeButton_onClick_last key :
  scopeButton_onClick key [key] = [key].
Proof.
  unfold scopeButton_onClick.
  rewrite bool_decide_eq_true_2 by apply list_elem_of_here.
  rewrite bool_decide_eq_false_2 by (simpl; lia). done.
Qed.

(** C8. The active search scopes never become empty. In the modal, any
    run of scope-button clicks from a non-empty set ends in a non-empty
    set; in the settings tab, any run of clicks from a non-empty array
    without repetitions ends in one. A click on the only active scope
    changes nothing. *)
Theorem scopes_never_empty :
  (forall (clicks : list SearchScope) (scopes : gset SearchScope),
      scopes ≠ ∅ ->
      foldl (fun acc scope => scopeClick scope acc) scopes clicks ≠ ∅)
  /\ (forall (clicks : list SearchScope) (scopes : list SearchScope),
        NoDup scopes -> scopes ≠ [] ->
        foldl (fun acc key => scopeButton_onClick key acc) scopes clicks
        ≠ [])
  /\ (forall scope : SearchScope,
        scopeClick scope {[scope]} = {[scope]}
        /\ scopeButton_onClick scope [scope] = [scope]).
Proof.
  split; [|split].
  - induction clicks as [|c clicks IH]; intros scopes Hne; simpl; [done|].
    apply IH. by apply scopeClick_nonempty.
  - induction clicks as [|c clicks IH]; intros scopes Hnd Hne; simpl;
      [done|].
    destruct (scopeButton_onClick_keeps c scopes Hnd Hne).
    by apply IH.
  - intros scope. split.
    + apply scopeClick_last; [set_solver|apply size_singleton].
    + apply scopeButton_onClick_last.
Qed.

Lemma scopes_never_empty_witness :
  foldl (fun acc scope => scopeClick scope acc)
        ({[ScopeName]} : gset SearchScope)
        [ScopeTags; ScopeName; ScopeTags] ≠ ∅
  /\ foldl (fun acc key => scopeButton_onClick key acc)
           [ScopeName; ScopeTags] [ScopeName; ScopeTags; ScopeFolders]
     ≠ [].
Proof.
  split.
  - apply (proj1 scopes_never_empty).
    apply (bool_decide_unpack _). vm_compute. exact I.
  - apply (proj1 (proj2 scopes_never_empty)).
    + apply (bool_decide_unpack _). vm_compute. exact I.
    + discriminate.
Defined.

(** The listener of the settings tab counts the entries of the array, so
    the property is one of arrays that list each scope once; the clicks keep
    them so ([scopeButton_onClick_keeps]). An array that lists its only scope
    twice is emptied by a click. *)
Example scopeButton_onClick_repeated :
  scopeButton_onClick ScopeName [ScopeName; ScopeName] = [].
Proof. reflexivity. Qed.

End Scopes.

(** ** The file types *)

Section FileTypes.

Import EagleSearchModal SettingTab.

Variable tb : ExtensionTables.
Hypothesis images_nonempty : SUPPORTED_IMAGE_EXTENSIONS tb ≠ [].

Lemma deleteEach_difference (exts : list jsstring) (active : gset jsstring) :
  deleteEach exts active = active ∖ list_to_set exts.
Proof.
  unfold deleteEach. revert active.
  induction exts as [|x exts IH]; intros active; simpl.
  - apply leibniz_equiv. set_solver.
  - rewrite IH. apply leibniz_equiv. set_solver.
Qed.

Lemma addEach_union (exts : list jsstring) (active : gset jsstring) :
  addEach exts active = list_to_set exts ∪ active.
Proof.
  unfold addEach. revert active.
  induction exts as [|x exts IH]; intros active; simpl.
  - apply leibniz_equiv. set_solver.
  - rewrite IH. apply leibniz_equiv. set_solver.
Qed.

Lemma list_to_set_nonempty (l : list jsstring) :
  l ≠ [] -> (list_to_set l : gset jsstring) ≠ ∅.
Proof.
  destruct l as [|x l]; [done|]. intros _ Hempty.
  assert (Hx : x ∈ (list_to_set (x :: l) : gset jsstring))
    by (apply elem_of_list_to_set, list_elem_of_here).
  rewrite Hempty in Hx. by apply not_elem_of_empty in Hx.
Qed.

Lemma union_nonempty_l (X Y : gset jsstring) : X ≠ ∅ -> X ∪ Y ≠ ∅.
Proof.
  intros HX HXY. apply HX. apply leibniz_equiv.
  apply (empty_union X Y). by rewrite HXY.
Qed.

Lemma union_nonempty_r (X Y : gset jsstring) : Y ≠ ∅ -> X ∪ Y ≠ ∅.
Proof.
  intros HY HXY. apply HY. apply leibniz_equiv.
  apply (empty_union X Y). by rewrite HXY.
Qed.

Lemma toggleTypeCategory_nonempty (category : FileTypeCategory)
    (active : gset jsstring) :
  active ≠ ∅ -> toggleTypeCategory tb category active ≠ ∅.
Proof.
  intros Hne.
  assert (Himg : (list_to_set (SUPPORTED_IMAGE_EXTENSIONS tb) : gset jsstring)
                 ≠ ∅) by by apply list_to_set_nonempty.
  assert (Hother : forall exts,
    (if existsb (fun ext => bool_decide (ext ∈ active)) exts
     then let removed := deleteEach exts active in
          if bool_decide (size removed = 0%nat)
          then addEach (SUPPORTED_IMAGE_EXTENSIONS tb) removed
          else removed
     else addEach exts active) ≠ ∅).
  { intros exts. destruct (existsb _ exts); simpl.
    - case_bool_decide as Hsz.
      + rewrite addEach_union. by apply union_nonempty_l.
      + intros Hempty. apply Hsz. rewrite Hempty. apply size_empty.
    - rewrite addEach_union. by apply union_nonempty_r. }
  destruct category; try apply Hother.
  unfold toggleTypeCategory.
  destruct (isTypeCategoryActive tb All active); [exact Himg|].
  rewrite list_to_set_app_L. by apply union_nonempty_l.
Qed.

Lemma toggleTypeCategory_reset (category : FileTypeCategory)
    (active : gset jsstring) :
  category ≠ All ->
  isTypeCategoryActive tb category active = true ->
  active ⊆ list_to_set (getExtensionsForCategory tb category) ->
  toggleTypeCategory tb category active
  = list_to_set (SUPPORTED_IMAGE_EXTENSIONS tb).
Proof.
  intros Hcat Hact Hsub.
  assert (Hrm : deleteEach (getExtensionsForCategory tb category) active = ∅).
  { rewrite deleteEach_difference. apply leibniz_equiv. set_solver. }
  destruct category; try done; unfold toggleTypeCategory;
    rewrite Hact; cbv zeta; rewrite Hrm, addEach_union;
    rewrite bool_decide_eq_true_2 by apply size_empty;
    apply leibniz_equiv; set_solver.
Qed.

Lemma typeButton_onClick_nonempty (exts fileTypes : list jsstring) :
  typeButton_onClick tb exts fileTypes ≠ [].
Proof.
  unfold typeButton_onClick. cbv zeta.
  case_bool_decide as Hlen; [exact images_nonempty|].
  intros Hnil. apply Hlen. by rewrite Hnil.
Qed.

Lemma typeButton_onClick_reset (exts fileTypes : list jsstring) :
  hasAll exts fileTypes = true ->
  (forall ext, ext ∈ fileTypes -> ext ∈ exts) ->
  typeButton_onClick tb exts fileTypes = SUPPORTED_IMAGE_EXTENSIONS tb.
Proof.
  intros Hall Hsub. unfold typeButton_onClick. rewrite Hall. cbv zeta.
  assert (Hnil : List.filter (fun ext => negb (includes exts ext)) fileTypes
                 = []).
  { clear Hall. induction fileTypes as [|x l IH]; [done|]. simpl.
    unfold includes at 1.
    rewrite bool_decide_eq_true_2 by apply Hsub, list_elem_of_here.
    simpl. apply IH. intros ext Hext. by apply Hsub, list_elem_of_further. }
  rewrite Hnil. done.
Qed.

(** C9. The active file types never become empty, provided the table of
    image extensions is not empty. In the modal, any run of category toggles
    (images, videos, documents, all) from a non-empty set ends in a
    non-empty set; in the settings tab, any run of clicks on the three type
    buttons from a non-empty array ends in one. A toggle that removes every
    active type leaves exactly the image extensions, and so does turning
    'all' off. *)
Theorem file_types_never_empty :
  (forall (toggles : list FileTypeCategory) (active : gset jsstring),
      active ≠ ∅ ->
      foldl (fun acc category => toggleTypeCategory tb category acc)
            active toggles ≠ ∅)
  /\ (forall (clicks : list typeButton) (fileTypes : list jsstring),
        fileTypes ≠ [] -> foldl (typeClick tb) fileTypes clicks ≠ [])
  /\ (forall (category : FileTypeCategory) (active : gset jsstring),
        category ≠ All ->
        isTypeCategoryActive tb category active = true ->
        active ⊆ list_to_set (getExtensionsForCategory tb category) ->
        toggleTypeCategory tb category active
        = list_to_set (SUPPORTED_IMAGE_EXTENSIONS tb))
  /\ (forall (b : typeButton) (fileTypes : list jsstring),
        let exts := match b with
                    | ImgBtn => SUPPORTED_IMAGE_EXTENSIONS tb
                    | VidBtn => SUPPORTED_VIDEO_EXTENSIONS tb
                    | DocBtn => SUPPORTED_DOCUMENT_EXTENSIONS tb
                    end in
        hasAll exts fileTypes = true ->
        (forall ext, ext ∈ fileTypes -> ext ∈ exts) ->
        typeClick tb fileTypes b = SUPPORTED_IMAGE_EXTENSIONS tb)
  /\ (forall active : gset jsstring,
        isTypeCategoryActive tb All active = true ->
        toggleTypeCategory tb All active
        = list_to_set (SUPPORTED_IMAGE_EXTENSIONS tb)).
Proof.
  split; [|split; [|split; [|split]]].
  - induction toggles as [|c toggles IH]; intros active Hne; simpl; [done|].
    apply IH. by apply toggleTypeCategory_nonempty.
  - induction clicks as [|b clicks IH]; intros fileTypes Hne; simpl; [done|].
    apply IH. destruct b; apply typeButton_onClick_nonempty.
  - apply toggleTypeCategory_reset.
  - intros b fileTypes exts Hall Hsub.
    destruct b; by apply typeButton_onClick_reset.
  - intros active Hact. unfold toggleTypeCategory. by rewrite Hact.
Qed.

End FileTypes.

Lemma file_types_never_empty_witness :
  let tb := {| SUPPORTED_IMAGE_EXTENSIONS := [lit "jpg"; lit "png"];
               SUPPORTED_VIDEO_EXTENSIONS := [lit "mp4"];
               SUPPORTED_DOCUMENT_EXTENSIONS := [lit "pdf"] |} in
  foldl (fun acc category =>
           EagleSearchModal.toggleTypeCategory tb category acc)
        ({[lit "mp4"]} : gset jsstring) [Videos; All; Images] ≠ ∅
  /\ foldl (SettingTab.typeClick tb) [lit "jpg"; lit "png"]
           [SettingTab.ImgBtn; SettingTab.VidBtn] ≠ [].
Proof.
  intros tb.
  assert (Himg : SUPPORTED_IMAGE_EXTENSIONS tb ≠ []) by discriminate.
  split.
  - apply (proj1 (file_types_never_empty tb Himg)).
    apply (bool_decide_unpack _). vm_compute. exact I.
  - apply (proj1 (proj2 (file_types_never_empty tb Himg))). discriminate.
Defined.

(** ** File sizes *)

Section FormatFileSize.

Import EagleSearchModal.

Lemma digitsValue_acc (d : Decimal.uint) (acc : positive) :
  foldl (fun a c => 10 * a + (c - 48)) (N.pos acc) (digitsOfUint d)
  = N.pos (Pos.of_uint_acc d acc).
Proof.
  revert acc. induction d; intros acc; simpl digitsOfUint; simpl foldl;
    [reflexivity|..];
    (etransitivity; [|apply IHd]); f_equal; lia.
Qed.

Lemma digitsValue_of_uint (d : Decimal.uint) :
  digitsValue (digitsOfUint d) = N.of_uint d.
Proof.
  unfold digitsValue, N.of_uint.
  induction d; simpl digitsOfUint; simpl foldl; try reflexivity;
    try exact IHd;
    try (etransitivity; [|apply digitsValue_acc]; reflexivity).
Qed.

(** The digits that [NumberToString] prints are the decimal numeral of the
    number. *)
Lemma NumberToString_value (n : N) : digitsValue (NumberToString n) = n.
Proof.
  unfold NumberToString. rewrite digitsValue_of_uint. apply Unsigned.of_to.
Qed.

Lemma toFixed1_nearest (num den : N) :
  den ≠ 0 ->
  exists t, nearestTenths num den t /\ toFixed1 num den = oneDecimal t.
Proof.
  intros Hden. exists ((20 * num + den) / (2 * den)). split; [|reflexivity].
  pose proof (N.Div0.mul_div_le (20 * num + den) (2 * den)) as Hle.
  pose proof (N.mul_succ_div_gt (20 * num + den) (2 * den)) as Hgt.
  unfold nearestTenths. split; lia.
Qed.

(** C3. For a byte count [n], [formatFileSize n] is the decimal numeral of
    [n] followed by " B" below 1024; the quotient [n / 1024] rounded to the
    nearest tenth, printed with one decimal and followed by " KB", from 1024
    up to 1048576 excluded; and [n / 1048576] rounded and printed the same
    way, followed by " MB", from there on. *)
Theorem formatFileSize_cases (n : N) :
  n <= MAX_SAFE_INTEGER ->
  (n < 1024 ->
   formatFileSize n = NumberToString n ++ lit " B"
   /\ digitsValue (NumberToString n) = n)
  /\ (1024 <= n < 1048576 ->
      exists t, nearestTenths n 1024 t
                /\ formatFileSize n = oneDecimal t ++ lit " KB")
  /\ (1048576 <= n ->
      exists t, nearestTenths n 1048576 t
                /\ formatFileSize n = oneDecimal t ++ lit " MB").
Proof.
  intros _. unfold formatFileSize.
  change (1024 * 1024) with 1048576.
  destruct (N.ltb_spec n 1024) as [H1|H1];
    [|destruct (N.ltb_spec n 1048576) as [H2|H2]];
    (split; [|split]); intros H; try lia.
  - split; [reflexivity | apply NumberToString_value].
  - destruct (toFixed1_nearest n 1024) as (t & Ht & ->); [lia|]. eauto.
  - destruct (toFixed1_nearest n 1048576) as (t & Ht & ->); [lia|]. eauto.
Qed.

Lemma formatFileSize_cases_witness :
  EagleSearchModal.formatFileSize 1023 = lit "1023 B"
  /\ (exists t, nearestTenths 1280 1024 t
                /\ EagleSearchModal.formatFileSize 1280
                   = oneDecimal t ++ lit " KB")
  /\ (exists t, nearestTenths 5242880 1048576 t
                /\ EagleSearchModal.formatFileSize 5242880
                   = oneDecimal t ++ lit " MB").
Proof.
  split; [|split].
  - apply (proj1 (formatFileSize_cases 1023 ltac:(vm_compute; discriminate))).
    reflexivity.
  - apply (proj1 (proj2 (formatFileSize_cases 1280
                           ltac:(vm_compute; discriminate)))).
    split; [vm_compute; discriminate | reflexivity].
  - apply (proj2 (proj2 (formatFileSize_cases 5242880
                           ltac:(vm_compute; discriminate)))).
    vm_compute; discriminate.
Defined.

Example formatFileSize_0 : formatFileSize 0 = lit "0 B".
Proof. reflexivity. Qed.

Example formatFileSize_1024 : formatFileSize 1024 = lit "1.0 KB".
Proof. reflexivity. Qed.

Example formatFileSize_1280 : formatFileSize 1280 = lit "1.3 KB".
Proof. reflexivity. Qed.

Example formatFileSize_1536 : formatFileSize 1536 = lit "1.5 KB".
Proof. reflexivity. Qed.

Example formatFileSize_1048575 : formatFileSize 1048575 = lit "1024.0 KB".
Proof. reflexivity. Qed.

Example formatFileSize_5242880 : formatFileSize 5242880 = lit "5.0 MB".
Proof. reflexivity. Qed.

End FormatFileSize.

(** ** Tags *)

Section NormalizeTag.

Import EagleSearchModal.

Variable toLowerCase : jsstring -> jsstring.

Lemma replaceWsRuns_text (rep t rest : jsstring) (in_run : bool) :
  truthy t = true ->
  forallb (fun c => negb (isWhiteSpace c)) t = true ->
  replaceWsRuns rep in_run (t ++ rest) = t ++ replaceWsRuns rep false rest.
Proof.
  revert in_run. induction t as [|c t IH]; intros in_run Hne Hall; [done|].
  simpl in Hall. apply andb_prop in Hall as [Hc Hall].
  apply negb_true_iff in Hc. simpl. rewrite Hc. f_equal.
  destruct t as [|d t]; [done|]. by apply IH.
Qed.

Lemma replaceWsRuns_inside (rep w rest : jsstring) :
  forallb isWhiteSpace w = true ->
  replaceWsRuns rep true (w ++ rest) = replaceWsRuns rep true rest.
Proof.
  induction w as [|c w IH]; intros Hall; [done|].
  simpl in Hall. apply andb_prop in Hall as [Hc Hall].
  simpl. rewrite Hc. by apply IH.
Qed.

Lemma replaceWsRuns_space (rep w rest : jsstring) :
  truthy w = true ->
  forallb isWhiteSpace w = true ->
  replaceWsRuns rep false (w ++ rest) = rep ++ replaceWsRuns rep true rest.
Proof.
  destruct w as [|c w]; [done|]. intros _ Hall.
  simpl in Hall. apply andb_prop in Hall as [Hc Hall].
  simpl. rewrite Hc. f_equal. by apply replaceWsRuns_inside.
Qed.

Lemma replaceWsRuns_pieces (ps : list piece) (in_run : bool) :
  maximalRuns ps = true ->
  (in_run = true -> match ps with p :: _ => isSpace p = false | [] => True end) ->
  replaceWsRuns (lit "-") in_run (concat (List.map pieceSource ps))
  = concat (List.map pieceHyphenated ps).
Proof.
  revert in_run. induction ps as [|p ps IH]; intros in_run Hruns Hhead; [done|].
  simpl in Hruns. apply andb_prop in Hruns as [Hruns Hrest].
  apply andb_prop in Hruns as [Hp Halt].
  destruct p as [t|w]; simpl in Hp; apply andb_prop in Hp as [Hne Hall];
    cbn [List.map concat pieceSource pieceHyphenated].
  - rewrite replaceWsRuns_text by assumption. f_equal.
    apply IH; [assumption|discriminate].
  - assert (in_run = false) as ->.
    { destruct in_run; [|done]. by specialize (Hhead eq_refl). }
    rewrite replaceWsRuns_space by assumption. f_equal.
    apply IH; [assumption|]. intros _.
    destruct ps as [|q ps]; [done|]. by destruct q.
Qed.

Lemma runsOf_source (s : jsstring) :
  concat (List.map pieceSource (runsOf s)) = s.
Proof.
  induction s as [|c s IH]; [done|]. simpl.
  destruct (isWhiteSpace c), (runsOf s) as [|[t|w] ps]; simpl in *;
    by rewrite <- IH.
Qed.

Lemma runsOf_maximal (s : jsstring) : maximalRuns (runsOf s) = true.
Proof.
  induction s as [|c s IH]; [done|]. simpl.
  destruct (isWhiteSpace c) eqn:Hc, (runsOf s) as [|[t|w] ps];
    simpl in *; rewrite ?Hc; simpl; try done;
    repeat match goal with
           | H : _ && _ = true |- _ => apply andb_prop in H as [? ?]
           end;
    repeat (apply andb_true_intro; split); simpl; auto.
Qed.

(** C4. [normalizeTag] replaces each maximal run of white space of the tag
    by one hyphen, lower-cases the result exactly when the setting
    [tagNormalization] is 'lowercase', and then puts [tagPrefix] and a slash
    in front exactly when [tagPrefix] is not empty. The maximal runs of a
    tag are the pieces of any cut of it into non-empty stretches of white
    space and of other characters that alternate; every tag has such a cut. *)
Theorem normalizeTag_spec (settings : CMDSPACEEagleSettings) :
  (forall ps : list piece,
      maximalRuns ps = true ->
      let hyphenated := concat (List.map pieceHyphenated ps) in
      let cased :=
        if bool_decide (tagNormalization settings = lit "lowercase")
        then toLowerCase hyphenated else hyphenated in
      normalizeTag toLowerCase settings (concat (List.map pieceSource ps))
      = if bool_decide (tagPrefix settings ≠ [])
        then tagPrefix settings ++ lit "/" ++ cased
        else cased)
  /\ (forall tag : jsstring,
        maximalRuns (runsOf tag) = true
        /\ concat (List.map pieceSource (runsOf tag)) = tag).
Proof.
  split.
  - intros ps Hruns hyphenated cased. unfold normalizeTag.
    rewrite replaceWsRuns_pieces by (done || discriminate).
    fold hyphenated. fold cased.
    destruct (tagPrefix settings); done.
  - intros tag. split; [apply runsOf_maximal | apply runsOf_source].
Qed.

End NormalizeTag.

Lemma normalizeTag_spec_witness :
  let settings :=
    {| searchScope := [ScopeName]; searchFileTypes := [lit "png"];
       tagNormalization := lit "lowercase"; tagPrefix := lit "eagle";
       cloudProviders := SettingTab.providers_blank |} in
  EagleSearchModal.normalizeTag asciiToLowerCase settings
    (lit "My  Tag") = lit "eagle/my-tag".
Proof.
  intros settings.
  exact (proj1 (normalizeTag_spec asciiToLowerCase settings)
               [Text (lit "My"); Space (lit "  "); Text (lit "Tag")]
               eq_refl).
Defined.

(** ** Loading the items *)

Section LoadItems.

Import EagleSearchModal.

Variable tb : ExtensionTables.

(** Where [resume] goes on to another [await], the flag is untouched; where
    the method returns, the [finally] block has cleared it. *)
Lemma resume_isLoading (p : pending) (r : response) (m m' : t)
    (next : option pending) :
  resume p r m = Some (m', next) ->
  isLoading m' = match next with Some _ => isLoading m | None => false end.
Proof.
  intros H. destruct p, r as [[]| | |]; simpl in H; inversion H; subst;
    try reflexivity.
  by destruct (truthy libraryName), (libraryNameEl m).
Qed.

(** A load ends in one of three ways, and no other response ends it. *)
Lemma resume_returns (p : pending) (r : response) (m m' : t) :
  resume p r m = Some (m', None) ->
  (exists error, r = Throws error)
  \/ (p = AwaitIsConnected /\ r = Connected false)
  \/ (exists libraryName items,
         p = AwaitListItems libraryName /\ r = Items items).
Proof.
  intros H. destruct p, r as [[]| | |]; simpl in H; inversion H; subst;
    first [ left; eexists; reflexivity
          | right; left; split; reflexivity
          | right; right; do 2 eexists; split; reflexivity ].
Qed.

Lemma guarded_loadItems (s : system) : guarded s -> guarded (loadItems s).
Proof.
  intros [[Hl Hf]|[Hl Hf]]; unfold loadItems; rewrite Hl.
  - right. simpl. rewrite Hf. eauto.
  - by right.
Qed.

Lemma guarded_onModal (f : t -> t) (s : system) :
  (forall m, isLoading (f m) = isLoading m) ->
  guarded s -> guarded (onModal f s).
Proof. intros Hf Hs. unfold guarded, onModal. simpl. by rewrite Hf. Qed.

Lemma guarded_settle (i : nat) (r : response) (s : system) :
  guarded s -> guarded (settle i r s).
Proof.
  intros Hs. unfold settle.
  destruct (inflight s !! i) as [p|] eqn:Hi; [|assumption].
  destruct (resume p r (modal s)) as [[m' next]|] eqn:Hr; [|assumption].
  destruct Hs as [[Hl Hf]|[Hl [q Hf]]]; [by rewrite Hf in Hi|].
  rewrite Hf in Hi. destruct i as [|i]; [|done].
  apply resume_isLoading in Hr. rewrite Hf.
  destruct next as [p'|]; [right|left]; simpl; rewrite Hr; eauto.
Qed.

Lemma guarded_step (s : system) (e : event) :
  guarded s -> guarded (step tb s e).
Proof.
  intros Hs. destruct e as [hasPrompt| |i r|scope|category]; simpl.
  - apply guarded_loadItems, guarded_onModal; [|assumption].
    intros m. by destruct hasPrompt.
  - by apply guarded_loadItems.
  - by apply guarded_settle.
  - by apply guarded_onModal.
  - by apply guarded_onModal.
Qed.

Lemma guarded_run (es : list event) (s : system) :
  guarded s -> guarded (run tb s es).
Proof.
  revert s. induction es as [|e es IH]; intros s Hs; [assumption|].
  apply IH, guarded_step, Hs.
Qed.

(** C7. At most one load of the item list is in flight. After any events
    on a new modal the number of loads in flight is at most one, and
    [isLoading] is set exactly when there is one. A call of [loadItems]
    while [isLoading] is set changes nothing and sends no request. When a
    load ends, with a result or with an exception, [isLoading] is clear. *)
Theorem one_load_in_flight :
  (forall (settings : CMDSPACEEagleSettings) (es : list event),
      let s := run tb (start settings) es in
      (length (inflight s) <= 1)%nat
      /\ (isLoading (modal s) = true <-> inflight s ≠ []))
  /\ (forall s : system, isLoading (modal s) = true -> loadItems s = s)
  /\ (forall (p : pending) (r : response) (m m' : t),
        resume p r m = Some (m', None) -> isLoading m' = false)
  /\ (forall (p : pending) (error : jsstring) (m : t),
        exists m', resume p (Throws error) m = Some (m', None))
  /\ (forall (libraryName : jsstring) (items : list EagleItem) (m : t),
        exists m',
          resume (AwaitListItems libraryName) (Items items) m
          = Some (m', None)).
Proof.
  split; [|split; [|split; [|split]]].
  - intros settings es s.
    assert (Hs : guarded s) by (apply guarded_run; by left).
    destruct Hs as [[Hl Hf]|[Hl [p Hf]]]; rewrite Hl, Hf; simpl.
    + split; [lia|]. split; [discriminate|done].
    + split; [lia|]. split; [discriminate|done].
  - intros s Hl. unfold loadItems. by rewrite Hl.
  - intros p r m m' H. by apply resume_isLoading in H.
  - intros p error m. destruct p; simpl; eauto.
  - intros libraryName items m. simpl. eauto.
Qed.

(** Only the listing that succeeds assigns [allItems]. *)
Lemma step_allItems (s : system) (e : event) :
  (forall i items, e ≠ Settle i (Items items)) ->
  allItems (modal (step tb s e)) = allItems (modal s).
Proof.
  intros He. destruct e as [hasPrompt| |i r|scope|category]; simpl.
  - unfold onOpen, loadItems, onModal, buildFilterUI.
    destruct hasPrompt; simpl; by destruct (isLoading (modal s)).
  - unfold loadItems. by destruct (isLoading (modal s)).
  - unfold settle.
    destruct (inflight s !! i) as [p|]; [|done].
    destruct p, r as [[]| | |]; simpl; try done;
      try by destruct (truthy _), (libraryNameEl (modal s)).
    exfalso. eapply He. reflexivity.
  - done.
  - done.
Qed.

(** C6. When the listing request of a load throws, the [catch] block runs:
    the error goes to the console and the notice 'Failed to load Eagle
    items...' is shown; [allItems] keeps its value, the load is over,
    [isLoading] is clear and no further request is sent. Over a whole call
    from an idle modal whose connection check and library-name request
    succeed and whose listing throws, [allItems] is the same as before the
    call and the listing was requested once. *)
Theorem loadItems_listing_throws :
  (forall (s : system) (i : nat) (libraryName error : jsstring),
      inflight s !! i = Some (AwaitListItems libraryName) ->
      let s' := settle i (Throws error) s in
      allItems (modal s') = allItems (modal s)
      /\ notices (modal s') = notices (modal s) ++ [NoticeLoadFailed]
      /\ consoleErrors (modal s') = consoleErrors (modal s) ++ [error]
      /\ isLoading (modal s') = false
      /\ inflight s' = delete i (inflight s)
      /\ requests s' = requests s)
  /\ (forall (s : system) (libraryName error : jsstring),
        isLoading (modal s) = false -> inflight s = [] ->
        let s' := run tb s [CallLoadItems; Settle 0 (Connected true);
                            Settle 0 (LibraryName libraryName);
                            Settle 0 (Throws error)] in
        allItems (modal s') = allItems (modal s)
        /\ notices (modal s') = notices (modal s) ++ [NoticeLoadFailed]
        /\ isLoading (modal s') = false
        /\ inflight s' = []
        /\ requests s'
           = requests s ++ [IsConnected; GetLibraryName; ListItems]).
Proof.
  split.
  - intros s i libraryName error Hi s'. subst s'. unfold settle.
    rewrite Hi. simpl. done.
  - intros s libraryName error Hl Hf s'. subst s'.
    unfold run. simpl. unfold loadItems. rewrite Hl, Hf. simpl.
    unfold settle. simpl.
    rewrite <- !app_assoc. simpl.
    by destruct (truthy libraryName), (libraryNameEl (modal s)).
Qed.

End LoadItems.

Lemma one_load_in_flight_witness :
  let tb := {| SUPPORTED_IMAGE_EXTENSIONS := [lit "png"];
               SUPPORTED_VIDEO_EXTENSIONS := [lit "mp4"];
               SUPPORTED_DOCUMENT_EXTENSIONS := [lit "pdf"] |} in
  let s := EagleSearchModal.loadItems
             (EagleSearchModal.start
                {| searchScope := [ScopeName];
                   searchFileTypes := [lit "png"];
                   tagNormalization := []; tagPrefix := [];
                   cloudProviders := SettingTab.providers_blank |}) in
  EagleSearchModal.loadItems s = s.
Proof.
  intros tb s. apply (proj1 (proj2 (one_load_in_flight tb))). reflexivity.
Defined.

Lemma loadItems_listing_throws_witness :
  let tb := {| SUPPORTED_IMAGE_EXTENSIONS := [lit "png"];
               SUPPORTED_VIDEO_EXTENSIONS := [lit "mp4"];
               SUPPORTED_DOCUMENT_EXTENSIONS := [lit "pdf"] |} in
  let s := EagleSearchModal.start
             {| searchScope := [ScopeName];
                searchFileTypes := [lit "png"];
                tagNormalization := []; tagPrefix := [];
                cloudProviders := SettingTab.providers_blank |} in
  let s' := EagleSearchModal.run tb s
              [EagleSearchModal.CallLoadItems;
               EagleSearchModal.Settle 0 (EagleSearchModal.Connected true);
               EagleSearchModal.Settle 0
                 (EagleSearchModal.LibraryName (lit "Design"));
               EagleSearchModal.Settle 0
                 (EagleSearchModal.Throws (lit "timeout"))] in
  EagleSearchModal.allItems (EagleSearchModal.modal s')
  = EagleSearchModal.allItems (EagleSearchModal.modal s).
Proof.
  intros tb s s'.
  apply (proj2 (loadItems_listing_throws tb) s (lit "Design") (lit "timeout")
               eq_refl eq_refl).
Defined.

(** ** The paste-choice modal *)

Section PasteChoice.

Import ImagePasteChoiceModal.

Lemma onClose_settles (m : t) (p : nat) :
  resolvePromise m = Some p ->
  settled m !! p = None ->
  settled (onClose m) !! p
  = Some {| resp_choice := default Cancel (response_choice m);
            resp_rememberChoice :=
              default false (response_rememberChoice m) |}.
Proof.
  intros Hp Hnone. unfold onClose, resolve. rewrite Hp. simpl.
  rewrite Hnone. apply lookup_insert_eq.
Qed.

Lemma calls_snoc (es : list event) (e : event) :
  calls (es ++ [e])
  = (calls es + match e with CallGetResponse => 1 | _ => 0 end)%nat.
Proof.
  unfold calls. rewrite List.filter_app, length_app. by destruct e.
Qed.

Lemma lastToggle_snoc (d : bool) (es : list event) (e : event) :
  lastToggle d (es ++ [e])
  = match e with Toggle v => v | _ => lastToggle d es end.
Proof. unfold lastToggle. by rewrite foldl_snoc. Qed.

(** As long as nothing closes the modal and no destination is picked, no
    choice is recorded, the remembered flag is the last position of the
    toggle, nothing is settled, and the stored resolver is that of the last
    promise handed out. *)
Lemma quiet_run (es : list event) :
  forallb quiet es = true ->
  let m := run create es in
  response_choice m = None
  /\ response_rememberChoice m = Some (lastToggle false es)
  /\ settled m = ∅
  /\ promises m = calls es
  /\ resolvePromise m
     = match calls es with O => None | S n => Some n end.
Proof.
  induction es as [|e es IH] using rev_ind; intros Hq; [done|].
  rewrite forallb_app in Hq. apply andb_prop in Hq as [Hq He].
  specialize (IH Hq). cbv zeta in IH.
  destruct IH as (Hc & Hr & Hs & Hn & Hp).
  cbv zeta. unfold run in *. rewrite foldl_snoc.
  rewrite calls_snoc, lastToggle_snoc.
  destruct e; try discriminate He; simpl.
  - rewrite Hn, Nat.add_1_r. done.
  - rewrite Nat.add_0_r. done.
  - rewrite Nat.add_0_r. done.
Qed.

(** C10. The promise of [getResponse] is resolved when the modal closes.
    Closing resolves the promise whose resolver is stored, with the recorded
    choice, or 'cancel' when there is none, and the recorded flag. So when a
    modal on which [getResponse] was called is dismissed and no destination
    button was clicked, the promise of the last call is resolved with choice
    'cancel' and with [rememberChoice] at the last position of the toggle,
    false when the toggle was never switched. *)
Theorem dismiss_resolves_cancel :
  (forall (m : t) (p : nat),
      resolvePromise m = Some p -> settled m !! p = None ->
      settled (onClose m) !! p
      = Some {| resp_choice := default Cancel (response_choice m);
                resp_rememberChoice :=
                  default false (response_rememberChoice m) |})
  /\ (forall es : list event,
        forallb quiet es = true -> (0 < calls es)%nat ->
        let m := run create (es ++ [Dismiss]) in
        settled m !! (calls es - 1)%nat
        = Some {| resp_choice := Cancel;
                  resp_rememberChoice := lastToggle false es |}).
Proof.
  split; [exact onClose_settles|].
  intros es Hq Hcalls m. subst m. unfold run. rewrite foldl_snoc.
  destruct (quiet_run es Hq) as (Hc & Hr & Hs & Hn & Hp).
  fold (run create es). simpl.
  destruct (calls es) as [|n] eqn:Hn'; [lia|].
  replace (S n - 1)%nat with n by lia.
  rewrite (onClose_settles _ n Hp) by (rewrite Hs; apply lookup_empty).
  by rewrite Hc, Hr.
Qed.

Lemma dismiss_resolves_cancel_witness :
  settled (run create [OpenModal; CallGetResponse; Toggle true; Dismiss])
  !! 0%nat
  = Some {| resp_choice := Cancel; resp_rememberChoice := true |}.
Proof.
  apply (proj2 dismiss_resolves_cancel
               [OpenModal; CallGetResponse; Toggle true]).
  - reflexivity.
  - vm_compute. constructor.
Defined.

Example click_resolves_choice :
  settled (run create [OpenModal; CallGetResponse; ClickCloud]) !! 0%nat
  = Some {| resp_choice := Cloud; resp_rememberChoice := false |}.
Proof. reflexivity. Qed.

(** A modal that closes before [getResponse] is called resolves nothing. *)
Example close_before_getResponse :
  settled (run create [OpenModal; Dismiss; CallGetResponse]) = ∅.
Proof. reflexivity. Qed.

End PasteChoice.

(** ** File URLs *)

Section FileUrl.

Lemma hexValue_hexDigit (d : N) : d < 16 -> hexValue (hexDigit d) = Some d.
Proof.
  intros Hd. unfold hexValue, hexDigit.
  decide_tests; simpl; f_equal; lia.
Qed.

Lemma hexDigit_not_slash (d : N) : d < 16 -> hexDigit d ≠ 47 /\ hexDigit d ≠ 37.
Proof. intros Hd. unfold hexDigit. decide_tests; lia. Qed.

Lemma unescape_unit (c : N) (e : jsstring) :
  c ≠ 37 -> unescape (c :: e) = cons (Unit c) <$> unescape e.
Proof. intros Hc. simpl. decide_tests. done. Qed.

Lemma unescape_percentEncode (b : N) (e : jsstring) :
  b < 256 ->
  unescape (percentEncode b ++ e) = cons (Octet b) <$> unescape e.
Proof.
  intros Hb. unfold percentEncode.
  change (unescape ([37; hexDigit (b / 16); hexDigit (b mod 16)] ++ e))
    with (match hexValue (hexDigit (b / 16)), hexValue (hexDigit (b mod 16)) with
          | Some hi, Some lo => cons (Octet (16 * hi + lo)) <$> unescape e
          | _, _ => None
          end).
  rewrite !hexValue_hexDigit by lia.
  replace (16 * (b / 16) + b mod 16) with b by lia. done.
Qed.

Lemma unescape_escapeCodePoint (cp : N) (e : jsstring) :
  cp < 2097152 ->
  unescape (escapeCodePoint cp ++ e)
  = app (List.map Octet (utf8Encode cp)) <$> unescape e.
Proof.
  intros Hcp. unfold escapeCodePoint, utf8Encode.
  decide_tests; cbn [flat_map List.map]; rewrite <- ?app_assoc, ?app_nil_l;
    rewrite ?unescape_percentEncode by lia;
    by destruct (unescape e).
Qed.

Lemma utf8Decode_octet (b : N) (r : list token) :
  utf8Decode (Octet b :: r)
  = if b <? 128 then cons b <$> utf8Decode r
    else if b <? 192 then None
    else if b <? 224 then
      match r with
      | Octet b1 :: r' =>
          let cp := (b - 192) * 64 + (b1 - 128) in
          if isContinuation b1 && (128 <=? cp)
          then app (utf16Encode cp) <$> utf8Decode r'
          else None
      | _ => None
      end
    else if b <? 240 then
      match r with
      | Octet b1 :: Octet b2 :: r' =>
          let cp := (b - 224) * 4096 + (b1 - 128) * 64 + (b2 - 128) in
          if isContinuation b1 && isContinuation b2 && (2048 <=? cp)
             && negb (isHighSurrogate cp) && negb (isLowSurrogate cp)
          then app (utf16Encode cp) <$> utf8Decode r'
          else None
      | _ => None
      end
    else if b <? 248 then
      match r with
      | Octet b1 :: Octet b2 :: Octet b3 :: r' =>
          let cp := (b - 240) * 262144 + (b1 - 128) * 4096
                    + (b2 - 128) * 64 + (b3 - 128) in
          if isContinuation b1 && isContinuation b2 && isContinuation b3
             && (65536 <=? cp) && (cp <=? 1114111)
          then app (utf16Encode cp) <$> utf8Decode r'
          else None
      | _ => None
      end
    else None.
Proof. reflexivity. Qed.

Lemma utf8Decode_utf8Encode (cp : N) (ts : list token) :
  cp < 1114112 -> cp < 55296 \/ 57343 < cp ->
  utf8Decode (List.map Octet (utf8Encode cp) ++ ts)
  = app (utf16Encode cp) <$> utf8Decode ts.
Proof.
  intros Hcp Hsur. unfold utf8Encode.
  destruct (N.ltb_spec cp 128); [|destruct (N.ltb_spec cp 2048);
    [|destruct (N.ltb_spec cp 65536)]];
    cbn [List.map app]; rewrite utf8Decode_octet; cbv zeta.
  - decide_tests. unfold utf16Encode. decide_tests.
    by destruct (utf8Decode ts).
  - replace ((192 + cp / 64 - 192) * 64 + (128 + cp mod 64 - 128))
      with cp by lia.
    unfold isContinuation. decide_tests. done.
  - replace ((224 + cp / 4096 - 224) * 4096
             + (128 + (cp / 64) mod 64 - 128) * 64 + (128 + cp mod 64 - 128))
      with cp by lia.
    unfold isContinuation, isHighSurrogate, isLowSurrogate.
    decide_tests; done.
  - replace ((240 + cp / 262144 - 240) * 262144
             + (128 + (cp / 4096) mod 64 - 128) * 4096
             + (128 + (cp / 64) mod 64 - 128) * 64 + (128 + cp mod 64 - 128))
      with cp by lia.
    unfold isContinuation. decide_tests; done.
Qed.

Lemma list_ind2 {A} (P : list A -> Prop) :
  P [] -> (forall c, P [c]) ->
  (forall c d r, P r -> P (d :: r) -> P (c :: d :: r)) ->
  forall s, P s.
Proof.
  intros Hnil Hone Hstep s.
  assert (H : P s /\ forall c, P (c :: s)).
  { induction s as [|d r [IH1 IH2]]; [by split|].
    split; [apply IH2|]. intros c. apply Hstep; [assumption|apply IH2]. }
  apply H.
Qed.

Lemma percentEncode_no_slash (b : N) : b < 256 -> 47 ∉ percentEncode b.
Proof.
  intros Hb. unfold percentEncode.
  destruct (hexDigit_not_slash (b / 16)) as [H1 _]; [lia|].
  destruct (hexDigit_not_slash (b mod 16)) as [H2 _]; [lia|].
  rewrite !not_elem_of_cons. repeat split; try done.
  apply not_elem_of_nil.
Qed.

Lemma escapeCodePoint_no_slash (cp : N) :
  cp < 2097152 -> 47 ∉ escapeCodePoint cp.
Proof.
  intros Hcp. unfold escapeCodePoint, utf8Encode.
  decide_tests; cbn [flat_map]; rewrite ?not_elem_of_app;
    repeat split; try apply not_elem_of_nil;
    apply percentEncode_no_slash; lia.
Qed.

Lemma decodesBack_nil : decodesBack [].
Proof. exists [], []. repeat split; try done. apply not_elem_of_nil. Qed.

Lemma decodesBack_unreserved (c : N) (r : jsstring) :
  isUnreserved c = true -> decodesBack r -> decodesBack (c :: r).
Proof.
  intros Hc (e & ts & He & Hu & Hd & Hs).
  assert (Hn : c ≠ 37 /\ c ≠ 47).
  { unfold isUnreserved in Hc.
    repeat match goal with
           | H : _ || _ = true |- _ => apply orb_prop in H as [H|H]
           end; tests_to_props; lia. }
  exists (c :: e), (Unit c :: ts). repeat split.
  - simpl. by rewrite Hc, He.
  - rewrite unescape_unit by apply Hn. by rewrite Hu.
  - simpl. by rewrite Hd.
  - apply not_elem_of_cons. split; [lia | assumption].
Qed.

Lemma decodesBack_escaped (cp : N) (units r : jsstring) :
  cp < 1114112 -> cp < 55296 \/ 57343 < cp ->
  utf16Encode cp = units ->
  encodeURIComponent (units ++ r)
  = app (escapeCodePoint cp) <$> encodeURIComponent r ->
  decodesBack r -> decodesBack (units ++ r).
Proof.
  intros Hcp Hsur Hunits Henc (e & ts & He & Hu & Hd & Hs).
  exists (escapeCodePoint cp ++ e), (List.map Octet (utf8Encode cp) ++ ts).
  repeat split.
  - by rewrite Henc, He.
  - rewrite unescape_escapeCodePoint by lia. by rewrite Hu.
  - rewrite utf8Decode_utf8Encode by assumption. by rewrite Hd, Hunits.
  - apply not_elem_of_app. split; [|assumption].
    apply escapeCodePoint_no_slash. lia.
Qed.

Lemma unreserved_not_surrogate (c : N) :
  isUnreserved c = true -> isHighSurrogate c = false /\ isLowSurrogate c = false.
Proof.
  intros Hc. unfold isUnreserved in Hc.
  unfold isHighSurrogate, isLowSurrogate.
  repeat match goal with
         | H : _ || _ = true |- _ => apply orb_prop in H as [H|H]
         end; tests_to_props; split; decide_tests; done.
Qed.

Lemma decodesBack_bmp (c : N) (r : jsstring) :
  isHighSurrogate c = false -> isLowSurrogate c = false -> c < 65536 ->
  decodesBack r -> decodesBack (c :: r).
Proof.
  intros Hh Hl Hc Hr.
  destruct (isUnreserved c) eqn:Hu; [by apply decodesBack_unreserved|].
  apply (decodesBack_escaped c [c] r); try assumption; try lia.
  - unfold isHighSurrogate, isLowSurrogate in *.
    destruct (N.le_gt_cases 55296 c); [|lia].
    destruct (N.le_gt_cases c 56319).
    + exfalso. revert Hh. decide_tests. done.
    + destruct (N.le_gt_cases 56320 c); [|lia].
      destruct (N.le_gt_cases c 57343); [|lia].
      exfalso. revert Hl. decide_tests. done.
  - unfold utf16Encode. decide_tests. done.
  - simpl. by rewrite Hu, Hl, Hh.
Qed.

Lemma decodesBack_pair (c d : N) (r : jsstring) :
  isHighSurrogate c = true -> isLowSurrogate d = true ->
  decodesBack r -> decodesBack (c :: d :: r).
Proof.
  intros Hc Hd Hr.
  assert (Hrange : 55296 <= c <= 56319 /\ 56320 <= d <= 57343).
  { unfold isHighSurrogate, isLowSurrogate in *. tests_to_props. lia. }
  apply (decodesBack_escaped
           (65536 + (c - 55296) * 1024 + (d - 56320)) [c; d] r);
    try assumption; try lia.
  - unfold utf16Encode. decide_tests. f_equal; [|f_equal]; lia.
  - assert (Hu : isUnreserved c = false).
    { destruct (isUnreserved c) eqn:Hu; [|done].
      apply unreserved_not_surrogate in Hu as [Hu _]. congruence. }
    assert (Hl : isLowSurrogate c = false).
    { unfold isLowSurrogate. decide_tests; done. }
    simpl. by rewrite Hu, Hl, Hc, Hd.
Qed.

Lemma isWellFormed_decodesBack (s : jsstring) :
  isWellFormed s = true -> decodesBack s.
Proof.
  induction s as [|c|c d r IHr IHdr] using list_ind2; intros Hwf.
  - apply decodesBack_nil.
  - simpl in Hwf. destruct (isHighSurrogate c) eqn:Hh; [done|].
    tests_to_props. apply decodesBack_bmp; try assumption.
    apply decodesBack_nil.
  - change (isWellFormed (c :: d :: r))
      with (if isHighSurrogate c
            then isLowSurrogate d && isWellFormed r
            else negb (isLowSurrogate c) && (c <? 65536)
                 && isWellFormed (d :: r)) in Hwf.
    destruct (isHighSurrogate c) eqn:Hh; tests_to_props.
    + apply decodesBack_pair; auto.
    + apply decodesBack_bmp; auto.
Qed.

Lemma split_nonempty (sep : N) (s : jsstring) : split sep s ≠ [].
Proof.
  induction s as [|c r IH]; simpl; [done|].
  destruct (c =? sep); [done|]. by destruct (split sep r).
Qed.

Lemma join_cons (sep : N) (seg : jsstring) (segs : list jsstring) :
  segs ≠ [] -> join sep (seg :: segs) = seg ++ sep :: join sep segs.
Proof. by destruct segs. Qed.

Lemma join_split (sep : N) (s : jsstring) : join sep (split sep s) = s.
Proof.
  induction s as [|c r IH]; [done|]. simpl.
  destruct (N.eqb_spec c sep) as [->|Hc].
  - rewrite join_cons by apply split_nonempty. simpl. by rewrite IH.
  - pose proof (split_nonempty sep r) as Hne.
    destruct (split sep r) as [|seg segs]; [done|].
    destruct segs as [|seg' segs].
    + simpl in *. by rewrite IH.
    + rewrite join_cons by done. rewrite join_cons in IH by done.
      rewrite <- app_comm_cons. by rewrite IH.
Qed.

Lemma split_without_sep (sep : N) (seg : jsstring) :
  sep ∉ seg -> split sep seg = [seg].
Proof.
  induction seg as [|c r IH]; intros Hs; [done|].
  apply not_elem_of_cons in Hs as [Hc Hr]. simpl.
  destruct (N.eqb_spec c sep); [congruence|]. by rewrite IH.
Qed.

Lemma split_app_sep (sep : N) (seg rest : jsstring) :
  sep ∉ seg -> split sep (seg ++ sep :: rest) = seg :: split sep rest.
Proof.
  induction seg as [|c r IH]; intros Hs.
  - simpl. by rewrite N.eqb_refl.
  - apply not_elem_of_cons in Hs as [Hc Hr]. simpl.
    destruct (N.eqb_spec c sep); [congruence|]. by rewrite IH.
Qed.

Lemma split_join (sep : N) (segs : list jsstring) :
  segs ≠ [] -> Forall (fun seg => sep ∉ seg) segs ->
  split sep (join sep segs) = segs.
Proof.
  induction segs as [|seg segs IH]; intros Hne Hall; [done|].
  apply Forall_cons in Hall as [Hseg Hall].
  destruct segs as [|seg' segs].
  - simpl. by apply split_without_sep.
  - rewrite join_cons by done. rewrite split_app_sep by done.
    f_equal. by apply IH.
Qed.

Lemma stripPrefix_app (p s : jsstring) : stripPrefix p (p ++ s) = Some s.
Proof.
  induction p as [|a p IH]; [by destruct s|]. simpl. by rewrite N.eqb_refl.
Qed.

Lemma isWellFormed_split (s : jsstring) :
  isWellFormed s = true -> Forall (fun seg => isWellFormed seg = true) (split 47 s).
Proof.
  induction s as [|c|c d r IHr IHdr] using list_ind2; intros Hwf.
  - by repeat constructor.
  - simpl. destruct (N.eqb_spec c 47); by repeat constructor.
  - change (isWellFormed (c :: d :: r))
      with (if isHighSurrogate c
            then isLowSurrogate d && isWellFormed r
            else negb (isLowSurrogate c) && (c <? 65536)
                 && isWellFormed (d :: r)) in Hwf.
    destruct (isHighSurrogate c) eqn:Hh.
    + apply andb_prop in Hwf as [Hd Hr]. specialize (IHr Hr).
      assert (Hc47 : (c =? 47) = false).
      { apply N.eqb_neq. intros ->. discriminate Hh. }
      assert (Hd47 : (d =? 47) = false).
      { apply N.eqb_neq. intros ->. discriminate Hd. }
      change (split 47 (c :: d :: r))
        with (if c =? 47 then [] :: split 47 (d :: r)
              else match (if d =? 47 then [] :: split 47 r
                          else match split 47 r with
                               | seg :: segs => (d :: seg) :: segs
                               | [] => [[d]]
                               end) with
                   | seg :: segs => (c :: seg) :: segs
                   | [] => [[c]]
                   end).
      rewrite Hc47, Hd47.
      pose proof (split_nonempty 47 r) as Hne.
      destruct (split 47 r) as [|seg segs]; [done|].
      apply Forall_cons in IHr as [Hseg Hsegs].
      constructor; [|assumption].
      simpl. by rewrite Hh, Hd, Hseg.
    + apply andb_prop in Hwf as [Hc Hdr]. specialize (IHdr Hdr).
      change (split 47 (c :: d :: r))
        with (if c =? 47 then [] :: split 47 (d :: r)
              else match split 47 (d :: r) with
                   | seg :: segs => (c :: seg) :: segs
                   | [] => [[c]]
                   end).
      destruct (c =? 47); [by constructor|].
      pose proof (split_nonempty 47 (d :: r)) as Hne.
      destruct (split 47 (d :: r)) as [|seg segs]; [done|].
      apply Forall_cons in IHdr as [Hseg Hsegs].
      constructor; [|assumption].
      change (isWellFormed (c :: seg))
        with (if isHighSurrogate c then
                match seg with
                | d :: r' => isLowSurrogate d && isWellFormed r'
                | [] => false
                end
              else negb (isLowSurrogate c) && (c <? 65536) && isWellFormed seg).
      by rewrite Hh, Hc, Hseg.
Qed.

Lemma encode_segments (segs : list jsstring) :
  Forall (fun seg => isWellFormed seg = true) segs ->
  exists encoded,
    mapM encodeURIComponent segs = Some encoded
    /\ mapM decodeURIComponent encoded = Some segs
    /\ Forall (fun e => 47 ∉ e) encoded
    /\ length encoded = length segs.
Proof.
  induction 1 as [|seg segs Hseg _ (encoded & He & Hd & Hs & Hl)].
  - exists []. by repeat split.
  - destruct (isWellFormed_decodesBack seg Hseg)
      as (e & ts & Hee & Hu & Hdd & Hss).
    exists (e :: encoded). repeat split.
    + change (mapM encodeURIComponent (seg :: segs))
        with (y ← encodeURIComponent seg;
              k ← mapM encodeURIComponent segs; mret (y :: k)).
      by rewrite Hee, He.
    + assert (Hdec : decodeURIComponent e = Some seg).
      { unfold decodeURIComponent. rewrite Hu. exact Hdd. }
      change (mapM decodeURIComponent (e :: encoded))
        with (y ← decodeURIComponent e;
              k ← mapM decodeURIComponent encoded; mret (y :: k)).
      by rewrite Hdec, Hd.
    + by constructor.
    + simpl. by rewrite Hl.
Qed.

(** C5, amended. For every file path that is a well-formed string (no
    surrogate without its partner), [pathToFileUrl] returns 'file://'
    followed by the percent-encoded segments of the path, joined by
    slashes; dropping the prefix, splitting at the slashes and
    percent-decoding each segment gives back the segments of the path, and
    with them the path. *)
Theorem pathToFileUrl_round_trip (path : jsstring) :
  isWellFormed path = true ->
  exists encoded : list jsstring,
    mapM encodeURIComponent (split 47 path) = Some encoded
    /\ EagleSearchModal.pathToFileUrl path
       = Some (lit "file://" ++ join 47 encoded)
    /\ stripPrefix (lit "file://") (lit "file://" ++ join 47 encoded)
       = Some (join 47 encoded)
    /\ mapM decodeURIComponent (split 47 (join 47 encoded))
       = Some (split 47 path)
    /\ join 47 (split 47 path) = path
    /\ fileUrlToPath (lit "file://" ++ join 47 encoded) = Some path.
Proof.
  intros Hwf.
  destruct (encode_segments (split 47 path) (isWellFormed_split path Hwf))
    as (encoded & He & Hd & Hs & Hl).
  assert (Hne : encoded ≠ []).
  { pose proof (split_nonempty 47 path) as Hne.
    destruct encoded; [|done]. by destruct (split 47 path). }
  exists encoded. split_and!.
  - exact He.
  - unfold EagleSearchModal.pathToFileUrl. by rewrite He.
  - apply stripPrefix_app.
  - by rewrite split_join.
  - apply join_split.
  - unfold fileUrlToPath. rewrite stripPrefix_app. simpl.
    rewrite split_join by assumption. rewrite Hd. simpl.
    by rewrite join_split.
Qed.

Lemma pathToFileUrl_round_trip_witness :
  let path := lit "/Users/me/My Pictures/caf" ++ [233] ++ lit ".png" in
  fileUrlToPath
    (lit "file:///Users/me/My%20Pictures/caf%C3%A9.png") = Some path.
Proof.
  intros path.
  destruct (pathToFileUrl_round_trip path eq_refl)
    as (encoded & He & _ & _ & _ & _ & Hback).
  injection He as <-. exact Hback.
Defined.

(** C5 as stated fails: on a path with half of a surrogate pair
    [encodeURIComponent] throws, and [pathToFileUrl] returns nothing. *)
Lemma pathToFileUrl_unpaired_surrogate :
  EagleSearchModal.pathToFileUrl (lit "/tmp/" ++ [55357] ++ lit ".png")
  = None.
Proof. reflexivity. Qed.

Example pathToFileUrl_spaces :
  EagleSearchModal.pathToFileUrl (lit "/a b/c#d.png")
  = Some (lit "file:///a%20b/c%23d.png").
Proof. reflexivity. Qed.

Example pathToFileUrl_emoji :
  EagleSearchModal.pathToFileUrl (lit "/" ++ [55357; 56832])
  = Some (lit "file:///%F0%9F%98%80").
Proof. reflexivity. Qed.

End FileUrl.

(** ** The cloud providers *)

Section CloudProviders.

Import SettingTab.

(** For R2, ImgHippo and the custom server every edit of a credential
    recomputes [enabled] from all the credentials of the provider, and the
    edits of the other fields keep both. *)
Lemma r2_edit_enabled (c : R2Config) (e : r2_field * jsstring) :
  (fst e = R2PublicUrl -> r2_enabled c = r2_configured c) ->
  r2_enabled (r2_edit c e) = r2_configured (r2_edit c e).
Proof. destruct e as [[] value]; simpl; intros H; auto. Qed.

Lemma imghippo_edit_enabled (c : ImgHippoConfig) (value : jsstring) :
  imghippo_enabled (imghippo_edit c value)
  = imghippo_configured (imghippo_edit c value).
Proof. reflexivity. Qed.

Lemma custom_edit_enabled (c : CustomConfig) (e : custom_field * jsstring) :
  (fst e = CustomPublicUrl -> custom_enabled c = custom_configured c) ->
  custom_enabled (custom_edit c e) = custom_configured (custom_edit c e).
Proof. destruct e as [[] value]; simpl; intros H; auto. Qed.

Lemma r2_edits_enabled (es : list (r2_field * jsstring)) (c : R2Config) :
  r2_enabled c = r2_configured c ->
  r2_enabled (foldl r2_edit c es) = r2_configured (foldl r2_edit c es).
Proof.
  revert c. induction es as [|e es IH]; intros c Hc; [assumption|].
  simpl. apply IH, r2_edit_enabled. auto.
Qed.

Lemma custom_edits_enabled (es : list (custom_field * jsstring))
    (c : CustomConfig) :
  custom_enabled c = custom_configured c ->
  custom_enabled (foldl custom_edit c es)
  = custom_configured (foldl custom_edit c es).
Proof.
  revert c. induction es as [|e es IH]; intros c Hc; [assumption|].
  simpl. apply IH, custom_edit_enabled. auto.
Qed.

(** For S3 and WebDAV only the last credential field recomputes [enabled];
    the handlers of the other credentials leave the flag as it is. *)
Lemma s3_enabled_untouched (c : S3Config) (e : s3_field * jsstring) :
  fst e ≠ S3SecretAccessKey -> s3_enabled (s3_edit c e) = s3_enabled c.
Proof. by destruct e as [[] value]. Qed.

Lemma webdav_enabled_untouched (c : WebDAVConfig)
    (e : webdav_field * jsstring) :
  fst e ≠ WebDAVPassword -> webdav_enabled (webdav_edit c e) = webdav_enabled c.
Proof. by destruct e as [[] value]. Qed.

(** C2. The flag and the credentials come apart for S3 and for WebDAV.
    Entering the secret key (the password) first and the other credentials
    after it leaves a provider with all its credentials and [enabled] false;
    entering all credentials and then clearing the endpoint (the server URL)
    leaves [enabled] true on a provider that lacks a credential. *)
Theorem s3_webdav_enabled_stale :
  (let c := foldl s3_edit s3_blank
              [(S3SecretAccessKey, lit "secret");
               (S3Endpoint, lit "https://s3.amazonaws.com");
               (S3AccessKeyId, lit "AKIA")] in
   s3_configured c = true /\ s3_enabled c = false)
  /\ (let c := foldl s3_edit s3_blank
                 [(S3Endpoint, lit "https://s3.amazonaws.com");
                  (S3AccessKeyId, lit "AKIA");
                  (S3SecretAccessKey, lit "secret");
                  (S3Endpoint, lit "")] in
      s3_configured c = false /\ s3_enabled c = true)
  /\ (let c := foldl webdav_edit webdav_blank
                 [(WebDAVPassword, lit "secret");
                  (WebDAVServerUrl, lit "https://nas.example.com/webdav");
                  (WebDAVUsername, lit "me")] in
      webdav_configured c = true /\ webdav_enabled c = false)
  /\ (let c := foldl webdav_edit webdav_blank
                 [(WebDAVServerUrl, lit "https://nas.example.com/webdav");
                  (WebDAVUsername, lit "me");
                  (WebDAVPassword, lit "secret");
                  (WebDAVServerUrl, lit "")] in
      webdav_configured c = false /\ webdav_enabled c = true).
Proof. repeat split; reflexivity. Qed.

Example r2_workerUrl_normalised :
  r2_workerUrl
    (r2_workerUrl_onChange (lit "  eagle.me.workers.dev/ ")
       {| r2_enabled := false; r2_workerUrl := []; r2_apiKey := lit "k";
          r2_publicUrl := [] |})
  = lit "https://eagle.me.workers.dev".
Proof. reflexivity. Qed.

End CloudProviders.

(** ** The search text and the tag cells *)

Section SearchText.

Import EagleSearchModal.

Lemma join_contains (sep : N) (parts : list jsstring) (x : jsstring) :
  x ∈ parts -> exists before after, join sep parts = before ++ x ++ after.
Proof.
  induction parts as [|p parts IH]; intros Hx; [by apply elem_of_nil in Hx|].
  destruct parts as [|q parts].
  - apply list_elem_of_singleton in Hx as ->.
    exists [], []. simpl. by rewrite app_nil_r.
  - rewrite join_cons by done.
    apply elem_of_cons in Hx as [->|Hx].
    + exists [], (sep :: join sep (q :: parts)). done.
    + destruct (IH Hx) as (b & a & ->).
      exists (p ++ sep :: b), a. by rewrite <- app_assoc.
Qed.

Lemma join_head (sep : N) (p : jsstring) (parts : list jsstring) :
  exists after, join sep (p :: parts) = p ++ after.
Proof.
  destruct parts as [|q parts].
  - exists []. simpl. by rewrite app_nil_r.
  - rewrite join_cons by done. eauto.
Qed.

Lemma truthy_false (s : jsstring) : truthy s = false -> s = [].
Proof. by destruct s. Qed.

(** The parts that [getItemText] collects, in terms of membership. *)
Lemma getItemText_parts (m : t) (item : EagleItem) :
  exists parts : list jsstring,
    getItemText m item
    = (if truthy (join 32 parts) then join 32 parts else item_name item)
    /\ (ScopeName ∈ activeScopes m ->
        exists rest, parts = item_name item :: rest)
    /\ (ScopeTags ∈ activeScopes m -> item_tags item ≠ [] ->
        join 32 (item_tags item) ∈ parts)
    /\ (ScopeAnnotation ∈ activeScopes m -> item_annotation item ≠ [] ->
        item_annotation item ∈ parts)
    /\ (ScopeFolders ∈ activeScopes m -> item_folders item ≠ [] ->
        join 47 (item_folders item) ∈ parts).
Proof.
  unfold getItemText.
  destruct (bool_decide (ScopeName ∈ activeScopes m)) eqn:Hn;
  destruct (bool_decide (ScopeTags ∈ activeScopes m)) eqn:Ht;
  destruct (bool_decide (ScopeAnnotation ∈ activeScopes m)) eqn:Ha;
  destruct (bool_decide (ScopeFolders ∈ activeScopes m)) eqn:Hf;
  destruct (item_tags item) as [|tag tags] eqn:Etags;
  destruct (item_annotation item) as [|c note] eqn:Enote;
  destruct (item_folders item) as [|folder folders] eqn:Efolders;
  cbn [andb truthy length Nat.ltb Nat.leb app];
  (eexists; split; [reflexivity|]);
  repeat match goal with
         | H : bool_decide _ = true |- _ => apply bool_decide_eq_true_1 in H
         | H : bool_decide _ = false |- _ => apply bool_decide_eq_false_1 in H
         end;
  split_and!; intros; try done; eauto;
  repeat first [apply list_elem_of_here | apply list_elem_of_further].
Qed.

(** X1. The search text contains every field whose scope is active: it
    starts with the name when the name scope is active, and the tags joined
    by spaces, the annotation and the folders joined by slashes each occur
    in it when their scope is active and the field is not empty. *)
Theorem getItemText_contains_active_fields (m : t) (item : EagleItem) :
  (ScopeName ∈ activeScopes m ->
   exists after, getItemText m item = item_name item ++ after)
  /\ (ScopeTags ∈ activeScopes m -> item_tags item ≠ [] ->
      exists before after,
        getItemText m item = before ++ join 32 (item_tags item) ++ after)
  /\ (ScopeAnnotation ∈ activeScopes m -> item_annotation item ≠ [] ->
      exists before after,
        getItemText m item = before ++ item_annotation item ++ after)
  /\ (ScopeFolders ∈ activeScopes m -> item_folders item ≠ [] ->
      exists before after,
        getItemText m item = before ++ join 47 (item_folders item) ++ after).
Proof.
  destruct (getItemText_parts m item) as (parts & -> & Hn & Ht & Ha & Hf).
  assert (Hin : forall x, x ∈ parts ->
            exists before after,
              (if truthy (join 32 parts) then join 32 parts
               else item_name item) = before ++ x ++ after).
  { intros x Hx. destruct (join_contains 32 parts x Hx) as (b & a & Hj).
    destruct (truthy (join 32 parts)) eqn:Htr; [eauto|].
    apply truthy_false in Htr. rewrite Htr in Hj.
    symmetry in Hj. apply app_eq_nil in Hj as [-> Hj].
    apply app_eq_nil in Hj as [-> ->].
    exists (item_name item), []. by rewrite !app_nil_r. }
  split_and!; [|by auto..].
  intros Hname. destruct (Hn Hname) as (rest & ->).
  destruct (join_head 32 (item_name item) rest) as (after & Hj).
  destruct (truthy _); [eauto|]. exists []. by rewrite app_nil_r.
Qed.

Lemma getItemText_contains_active_fields_witness :
  let item :=
    {| item_id := lit "K1"; item_name := lit "shot"; item_ext := lit "png";
       item_size := 2048; item_tags := [lit "ui"; lit "dark"];
       item_folders := [lit "work"]; item_annotation := [] |} in
  exists before after,
    getItemText (create [ScopeName; ScopeTags] [lit "png"]) item
    = before ++ lit "ui dark" ++ after.
Proof.
  intros item.
  apply (proj1 (proj2 (getItemText_contains_active_fields
                         (create [ScopeName; ScopeTags] [lit "png"]) item))).
  - apply (bool_decide_unpack _). vm_compute. exact I.
  - discriminate.
Defined.

(** X2. The search text reads a field only through its scope, and the name
    also as a fallback. Two items that differ only in their tags have the
    same text when the tags scope is off, and likewise for the annotation
    and the folders. When no active scope has anything to give, the text is
    the name of the item, also when the name scope is off. *)
Theorem getItemText_ignores_inactive_fields (m : t) (item item' : EagleItem) :
  item_name item = item_name item' ->
  (ScopeTags ∉ activeScopes m ->
   item_annotation item = item_annotation item' ->
   item_folders item = item_folders item' ->
   getItemText m item = getItemText m item')
  /\ (ScopeAnnotation ∉ activeScopes m ->
      item_tags item = item_tags item' ->
      item_folders item = item_folders item' ->
      getItemText m item = getItemText m item')
  /\ (ScopeFolders ∉ activeScopes m ->
      item_tags item = item_tags item' ->
      item_annotation item = item_annotation item' ->
      getItemText m item = getItemText m item')
  /\ ((ScopeTags ∉ activeScopes m \/ item_tags item = []) ->
      (ScopeAnnotation ∉ activeScopes m \/ item_annotation item = []) ->
      (ScopeFolders ∉ activeScopes m \/ item_folders item = []) ->
      getItemText m item = item_name item).
Proof.
  intros Hname. split_and!.
  - intros Hoff Ha Hf. unfold getItemText.
    rewrite (bool_decide_eq_false_2 _ Hoff). simpl.
    by rewrite Hname, Ha, Hf.
  - intros Hoff Ht Hf. unfold getItemText.
    rewrite (bool_decide_eq_false_2 _ Hoff). simpl.
    by rewrite Hname, Ht, Hf.
  - intros Hoff Ht Ha. unfold getItemText.
    rewrite (bool_decide_eq_false_2 _ Hoff). simpl.
    by rewrite Hname, Ht, Ha.
  - intros Ht Ha Hf. unfold getItemText.
    assert (Ht' : bool_decide (ScopeTags ∈ activeScopes m)
                  && (0 <? length (item_tags item))%nat = false).
    { destruct Ht as [Ht| ->]; [|apply andb_false_r].
      by rewrite (bool_decide_eq_false_2 _ Ht). }
    assert (Ha' : bool_decide (ScopeAnnotation ∈ activeScopes m)
                  && truthy (item_annotation item) = false).
    { destruct Ha as [Ha| ->]; [|apply andb_false_r].
      by rewrite (bool_decide_eq_false_2 _ Ha). }
    assert (Hf' : bool_decide (ScopeFolders ∈ activeScopes m)
                  && (0 <? length (item_folders item))%nat = false).
    { destruct Hf as [Hf| ->]; [|apply andb_false_r].
      by rewrite (bool_decide_eq_false_2 _ Hf). }
    rewrite Ht', Ha', Hf'.
    destruct (bool_decide (ScopeName ∈ activeScopes m)); simpl; [|done].
    by destruct (item_name item).
Qed.

Lemma getItemText_ignores_inactive_fields_witness :
  let item :=
    {| item_id := lit "K1"; item_name := lit "shot"; item_ext := lit "png";
       item_size := 2048; item_tags := [];
       item_folders := [lit "work"]; item_annotation := lit "draft" |} in
  getItemText (create [ScopeTags] [lit "png"]) item = lit "shot".
Proof.
  intros item.
  apply (proj2 (proj2 (proj2 (getItemText_ignores_inactive_fields
           (create [ScopeTags] [lit "png"]) item item eq_refl)))).
  - by right.
  - left. apply (bool_decide_unpack _). vm_compute. exact I.
  - left. apply (bool_decide_unpack _). vm_compute. exact I.
Defined.

End SearchText.

(** ** The tag cells of the inserted text *)

Section TagCells.

Import EagleSearchModal.

Variable toLowerCase : jsstring -> jsstring.
Variable settings : CMDSPACEEagleSettings.

Lemma hashtags_cons (tag : jsstring) (tags : list jsstring) :
  exists rest, hashtags toLowerCase settings (tag :: tags) = 35 :: rest.
Proof.
  unfold hashtags. cbn [List.map].
  destruct (join_head 32 (lit "#" ++ normalizeTag toLowerCase settings tag)
              (List.map (fun tag => lit "#" ++ normalizeTag toLowerCase
                                               settings tag) tags))
    as (after & ->).
  eexists. reflexivity.
Qed.

Lemma filter_nil_forallb {A} (f : A -> bool) (l : list A) :
  List.filter (fun x => negb (f x)) l = [] <-> forallb f l = true.
Proof.
  induction l as [|x l IH]; simpl; [done|].
  destruct (f x); simpl; [exact IH|]. split; discriminate.
Qed.

(** X3. The tag cell of the metadata line reads 'No tags' exactly when
    every tag of the item is a cloud-upload tag ('r2:...', 'r2-cloud',
    'cloud-upload'), in particular when the item has no tag; otherwise it
    lists the hashtags of the other tags. The tag cell of the link card
    does not filter: it reads 'None' exactly when the item has no tag. *)
Theorem tag_cells_empty_marker (item : EagleItem) :
  (metadataLineTags toLowerCase settings item = lit "No tags"
   <-> forallb isCloudTag (item_tags item) = true)
  /\ (forallb isCloudTag (item_tags item) = false ->
      metadataLineTags toLowerCase settings item
      = hashtags toLowerCase settings
          (List.filter (fun tag => negb (isCloudTag tag)) (item_tags item)))
  /\ (linkCardTags toLowerCase settings item = lit "None"
      <-> item_tags item = []).
Proof.
  unfold metadataLineTags, linkCardTags. cbv zeta.
  pose proof (filter_nil_forallb isCloudTag (item_tags item)) as Hnil.
  destruct (List.filter (fun tag => negb (isCloudTag tag)) (item_tags item))
    as [|tag tags] eqn:Hfilter.
  - rewrite (proj1 Hnil eq_refl). split_and!; [done|discriminate|].
    destruct (item_tags item) as [|tag tags]; [done|].
    destruct (hashtags_cons tag tags) as (rest & ->). simpl.
    split; discriminate.
  - destruct (hashtags_cons tag tags) as (rest & Hrest).
    assert (Hall : forallb isCloudTag (item_tags item) = false).
    { destruct (forallb isCloudTag (item_tags item)); [|done].
      by pose proof (proj2 Hnil eq_refl). }
    rewrite Hrest, Hall. simpl. split_and!; [split; discriminate|done|].
    destruct (item_tags item) as [|tag' tags']; [done|].
    destruct (hashtags_cons tag' tags') as (rest' & ->). simpl.
    split; discriminate.
Qed.

End TagCells.

Lemma tag_cells_empty_marker_witness :
  let settings :=
    {| searchScope := [ScopeName]; searchFileTypes := [lit "png"];
       tagNormalization := lit "lowercase"; tagPrefix := [];
       cloudProviders := SettingTab.providers_blank |} in
  let item :=
    {| item_id := lit "K1"; item_name := lit "shot"; item_ext := lit "png";
       item_size := 2048;
       item_tags := [lit "r2:abc"; lit "Dark Mode"; lit "cloud-upload"];
       item_folders := []; item_annotation := [] |} in
  EagleSearchModal.metadataLineTags asciiToLowerCase settings item
  = lit "#dark-mode".
Proof.
  intros settings item.
  apply (proj1 (proj2 (tag_cells_empty_marker asciiToLowerCase settings item))).
  reflexivity.
Defined.

(** ** More on the file-type buttons of the modal *)

Lemma deleteEach_eq (exts : list jsstring) (active : gset jsstring) :
  EagleSearchModal.deleteEach exts active = active ∖ list_to_set exts.
Proof.
  unfold EagleSearchModal.deleteEach. revert active.
  induction exts as [|x exts IH]; intros active; simpl.
  - apply leibniz_equiv. set_solver.
  - rewrite IH. apply leibniz_equiv. set_solver.
Qed.

Lemma addEach_eq (exts : list jsstring) (active : gset jsstring) :
  EagleSearchModal.addEach exts active = list_to_set exts ∪ active.
Proof.
  unfold EagleSearchModal.addEach. revert active.
  induction exts as [|x exts IH]; intros active; simpl.
  - apply leibniz_equiv. set_solver.
  - rewrite IH. apply leibniz_equiv. set_solver.
Qed.

Section TypeButtons.

Import EagleSearchModal.

Variable tb : ExtensionTables.

Lemma isTypeCategoryActive_true (category : FileTypeCategory)
    (active : gset jsstring) :
  isTypeCategoryActive tb category active = true
  <-> exists ext, ext ∈ getExtensionsForCategory tb category /\ ext ∈ active.
Proof.
  unfold isTypeCategoryActive. rewrite existsb_exists. split.
  - intros (ext & Hin & Hact). exists ext. split.
    + by apply list_elem_of_In.
    + by apply bool_decide_eq_true_1 in Hact.
  - intros (ext & Hin & Hact). exists ext. split.
    + by apply list_elem_of_In.
    + by apply bool_decide_eq_true_2.
Qed.

Lemma isTypeCategoryActive_false (category : FileTypeCategory)
    (active : gset jsstring) :
  isTypeCategoryActive tb category active = false
  <-> forall ext, ext ∈ getExtensionsForCategory tb category -> ext ∉ active.
Proof.
  rewrite <- not_true_iff_false, isTypeCategoryActive_true. split.
  - intros Hno ext Hin Hact. apply Hno. eauto.
  - intros Hno (ext & Hin & Hact). by apply (Hno ext).
Qed.

(** X4. The 'All' button counts as active as soon as one of the three
    categories is: it is active exactly when some supported extension is
    active. So a click on it selects every supported extension only from a
    state in which none is active; from every other state it leaves exactly
    the image extensions. *)
Theorem all_button_resets_to_images (active : gset jsstring) :
  isTypeCategoryActive tb All active
  = isTypeCategoryActive tb Images active
    || isTypeCategoryActive tb Videos active
    || isTypeCategoryActive tb Documents active
  /\ toggleTypeCategory tb All active
     = if isTypeCategoryActive tb Images active
          || isTypeCategoryActive tb Videos active
          || isTypeCategoryActive tb Documents active
       then list_to_set (SUPPORTED_IMAGE_EXTENSIONS tb)
       else list_to_set (SUPPORTED_IMAGE_EXTENSIONS tb)
            ∪ list_to_set (SUPPORTED_VIDEO_EXTENSIONS tb)
            ∪ list_to_set (SUPPORTED_DOCUMENT_EXTENSIONS tb).
Proof.
  assert (Hall : isTypeCategoryActive tb All active
                 = isTypeCategoryActive tb Images active
                   || isTypeCategoryActive tb Videos active
                   || isTypeCategoryActive tb Documents active).
  { unfold isTypeCategoryActive. simpl.
    by rewrite !existsb_app, orb_assoc. }
  split; [exact Hall|].
  unfold toggleTypeCategory. rewrite Hall.
  destruct (_ || _); [done|].
  rewrite !list_to_set_app_L. apply leibniz_equiv. set_solver.
Qed.

Lemma toggleTypeCategory_on (category : FileTypeCategory)
    (active : gset jsstring) :
  category ≠ All ->
  isTypeCategoryActive tb category active = false ->
  toggleTypeCategory tb category active
  = list_to_set (getExtensionsForCategory tb category) ∪ active.
Proof.
  intros Hcat Hoff. destruct category; try done;
    unfold toggleTypeCategory; rewrite Hoff; apply addEach_eq.
Qed.

Lemma toggleTypeCategory_off (category : FileTypeCategory)
    (active : gset jsstring) :
  category ≠ All ->
  isTypeCategoryActive tb category active = true ->
  ~ active ⊆ list_to_set (getExtensionsForCategory tb category) ->
  toggleTypeCategory tb category active
  = active ∖ list_to_set (getExtensionsForCategory tb category).
Proof.
  intros Hcat Hon Hmore.
  set (exts := list_to_set (getExtensionsForCategory tb category)
               : gset jsstring) in *.
  assert (Hrm : deleteEach (getExtensionsForCategory tb category) active
                = active ∖ exts) by apply deleteEach_eq.
  assert (Hsz : size (active ∖ exts) ≠ 0%nat).
  { intros Hsz. apply size_empty_inv in Hsz. apply Hmore.
    intros x Hx. destruct (decide (x ∈ exts)); [done|].
    exfalso. apply (not_elem_of_empty (C:=gset jsstring) x).
    rewrite <- (leibniz_equiv _ _ Hsz). set_solver. }
  destruct category; try done; unfold toggleTypeCategory;
    rewrite Hon; cbv zeta; rewrite Hrm;
    by rewrite bool_decide_eq_false_2.
Qed.

(** X5. What a click on the Images, Videos or Docs button does. When no
    extension of the category is active, the click adds them all and keeps
    the others. When some are active and another extension is active too,
    the click removes all extensions of the category, keeps the others, and
    the category is inactive afterwards. *)
Theorem toggleTypeCategory_effect (category : FileTypeCategory)
    (active : gset jsstring) :
  category ≠ All ->
  let exts : gset jsstring :=
    list_to_set (getExtensionsForCategory tb category) in
  (isTypeCategoryActive tb category active = false ->
   toggleTypeCategory tb category active = exts ∪ active)
  /\ (isTypeCategoryActive tb category active = true ->
      ~ active ⊆ exts ->
      toggleTypeCategory tb category active = active ∖ exts
      /\ isTypeCategoryActive tb category
           (toggleTypeCategory tb category active) = false).
Proof.
  intros Hcat exts. split.
  - by apply toggleTypeCategory_on.
  - intros Hon Hmore.
    pose proof (toggleTypeCategory_off category active Hcat Hon Hmore)
      as Hres.
    split; [exact Hres|]. rewrite Hres.
    apply isTypeCategoryActive_false. intros ext Hin.
    subst exts. set_solver.
Qed.

Lemma toggleTypeCategory_supported (category : FileTypeCategory)
    (active : gset jsstring) :
  toggleTypeCategory tb category active
  ⊆ active ∪ list_to_set (getExtensionsForCategory tb All).
Proof.
  assert (Hsub : forall c,
            (list_to_set (getExtensionsForCategory tb c) : gset jsstring)
            ⊆ list_to_set (getExtensionsForCategory tb All)).
  { intros c x Hx. apply elem_of_list_to_set in Hx.
    apply elem_of_list_to_set. simpl.
    destruct c; simpl in Hx; rewrite ?elem_of_app in *; tauto. }
  assert (Hother : forall c,
    (if isTypeCategoryActive tb c active
     then let removed := deleteEach (getExtensionsForCategory tb c) active in
          if bool_decide (size removed = 0%nat)
          then addEach (SUPPORTED_IMAGE_EXTENSIONS tb) removed
          else removed
     else addEach (getExtensionsForCategory tb c) active)
    ⊆ active ∪ list_to_set (getExtensionsForCategory tb All)).
  { intros c. pose proof (Hsub c) as Hc. pose proof (Hsub Images) as Hi.
    simpl in Hi.
    destruct (isTypeCategoryActive tb c active); cbv zeta;
      [case_bool_decide|]; rewrite ?addEach_eq, ?deleteEach_eq; set_solver. }
  destruct category; try apply Hother.
  unfold toggleTypeCategory. pose proof (Hsub Images) as Hi. simpl in Hi.
  destruct (isTypeCategoryActive tb All active); simpl; set_solver.
Qed.

(** X6. The type buttons of the modal only ever activate supported
    extensions: after any run of toggles, every active extension was active
    at the start or is in one of the three tables. *)
Theorem toggles_stay_supported (toggles : list FileTypeCategory)
    (active : gset jsstring) :
  foldl (fun acc category => toggleTypeCategory tb category acc)
        active toggles
  ⊆ active ∪ list_to_set (SUPPORTED_IMAGE_EXTENSIONS tb
                          ++ SUPPORTED_VIDEO_EXTENSIONS tb
                          ++ SUPPORTED_DOCUMENT_EXTENSIONS tb).
Proof.
  change (SUPPORTED_IMAGE_EXTENSIONS tb ++ SUPPORTED_VIDEO_EXTENSIONS tb
          ++ SUPPORTED_DOCUMENT_EXTENSIONS tb)
    with (getExtensionsForCategory tb All).
  revert active. induction toggles as [|c toggles IH]; intros active; simpl.
  - set_solver.
  - pose proof (IH (toggleTypeCategory tb c active)) as Hrest.
    pose proof (toggleTypeCategory_supported c active) as Hstep.
    set_solver.
Qed.

End TypeButtons.

Lemma toggleTypeCategory_effect_witness :
  let tb := {| SUPPORTED_IMAGE_EXTENSIONS := [lit "jpg"; lit "png"];
               SUPPORTED_VIDEO_EXTENSIONS := [lit "mp4"];
               SUPPORTED_DOCUMENT_EXTENSIONS := [lit "pdf"] |} in
  EagleSearchModal.toggleTypeCategory tb Videos {[lit "png"]}
  = {[lit "mp4"]} ∪ {[lit "png"]}
  /\ EagleSearchModal.toggleTypeCategory tb Videos {[lit "png"; lit "mp4"]}
     = {[lit "png"]}.
Proof.
  intros tb. split.
  - rewrite (proj1 (toggleTypeCategory_effect tb Videos {[lit "png"]}
                      ltac:(discriminate)) eq_refl).
    apply (bool_decide_unpack _). vm_compute. exact I.
  - rewrite (proj1 (proj2 (toggleTypeCategory_effect tb Videos
                             {[lit "png"; lit "mp4"]} ltac:(discriminate))
                      eq_refl
                      ltac:(apply (bool_decide_unpack _); vm_compute;
                            exact I))).
    apply (bool_decide_unpack _). vm_compute. exact I.
Defined.

Section TypeButtonsAndItems.

Import EagleSearchModal.

Variable tb : ExtensionTables.
Variable toLowerCase : jsstring -> jsstring.

Lemma filter_sublist_mono {A} (f g : A -> bool) (l : list A) :
  (forall x, f x = true -> g x = true) ->
  sublist (List.filter f l) (List.filter g l).
Proof.
  intros Hfg. induction l as [|x l IH]; simpl; [constructor|].
  destruct (f x) eqn:Hf.
  - rewrite (Hfg x Hf). by constructor.
  - destruct (g x); [by constructor|assumption].
Qed.

Lemma filter_filter_and {A} (f g : A -> bool) (l : list A) :
  List.filter f (List.filter g l) = List.filter (fun x => g x && f x) l.
Proof.
  induction l as [|x l IH]; simpl; [done|].
  destruct (g x); simpl; [|assumption]. destruct (f x); by rewrite IH.
Qed.

(** X7. Switching a category on never hides an item: after a click on the
    Images, Videos or Docs button while the category is inactive, the items
    listed before are still listed, in the same order. More generally the
    list only grows when the set of active file types grows. *)
Theorem getItems_grows_with_types (m : t) :
  (forall types : gset jsstring,
      activeFileTypes m ⊆ types ->
      sublist (getItems toLowerCase m)
              (getItems toLowerCase (set_activeFileTypes types m)))
  /\ (forall category : FileTypeCategory,
        category ≠ All ->
        isTypeCategoryActive tb category (activeFileTypes m) = false ->
        sublist (getItems toLowerCase m)
                (getItems toLowerCase
                   (createTypeButton_onClick tb category m))).
Proof.
  assert (Hmono : forall types : gset jsstring,
            activeFileTypes m ⊆ types ->
            sublist (getItems toLowerCase m)
                    (getItems toLowerCase (set_activeFileTypes types m))).
  { intros types Hsub. unfold getItems. simpl.
    apply filter_sublist_mono. intros item Hin.
    apply bool_decide_eq_true_1 in Hin. apply bool_decide_eq_true_2. auto. }
  split; [exact Hmono|].
  intros category Hcat Hoff.
  pose proof (toggleTypeCategory_on tb category (activeFileTypes m) Hcat)
    as Hon.
  change (getItems toLowerCase (createTypeButton_onClick tb category m))
    with (getItems toLowerCase
            (set_activeFileTypes
               (toggleTypeCategory tb category (activeFileTypes m)) m)).
  apply Hmono. rewrite (Hon Hoff). set_solver.
Qed.

(** X8. Switching a category off hides exactly its items: after a click on
    the Images, Videos or Docs button while the category is active and
    another extension is active too, the list is the previous list without
    the items whose lower-cased extension is in the table of the category. *)
Theorem getItems_after_category_off (m : t) (category : FileTypeCategory) :
  category ≠ All ->
  isTypeCategoryActive tb category (activeFileTypes m) = true ->
  ~ activeFileTypes m ⊆ list_to_set (getExtensionsForCategory tb category) ->
  getItems toLowerCase (createTypeButton_onClick tb category m)
  = List.filter
      (fun item =>
         bool_decide (toLowerCase (item_ext item)
                      ∉ getExtensionsForCategory tb category))
      (getItems toLowerCase m).
Proof.
  intros Hcat Hon Hmore.
  pose proof (toggleTypeCategory_off tb category (activeFileTypes m)
                Hcat Hon Hmore) as Hres.
  unfold getItems. rewrite filter_filter_and. simpl. rewrite Hres.
  apply filter_ext_in. intros item _.
  apply Bool.eq_true_iff_eq.
  rewrite andb_true_iff, !bool_decide_eq_true.
  by rewrite elem_of_difference, elem_of_list_to_set.
Qed.

End TypeButtonsAndItems.

Lemma getItems_grows_with_types_witness :
  let tb := {| SUPPORTED_IMAGE_EXTENSIONS := [lit "jpg"; lit "png"];
               SUPPORTED_VIDEO_EXTENSIONS := [lit "mp4"];
               SUPPORTED_DOCUMENT_EXTENSIONS := [lit "pdf"] |} in
  let item ext :=
    {| item_id := lit "K1"; item_name := lit "shot"; item_ext := ext;
       item_size := 2048; item_tags := []; item_folders := [];
       item_annotation := [] |} in
  let m :=
    EagleSearchModal.set_allItems
      [item (lit "PNG"); item (lit "mp4"); item (lit "jpg")]
      (EagleSearchModal.create [ScopeName] [lit "png"; lit "jpg"]) in
  sublist (EagleSearchModal.getItems asciiToLowerCase m)
          (EagleSearchModal.getItems asciiToLowerCase
             (EagleSearchModal.createTypeButton_onClick tb Videos m)).
Proof.
  intros tb item m.
  apply (proj2 (getItems_grows_with_types tb asciiToLowerCase m) Videos).
  - discriminate.
  - reflexivity.
Defined.

Lemma getItems_after_category_off_witness :
  let tb := {| SUPPORTED_IMAGE_EXTENSIONS := [lit "jpg"; lit "png"];
               SUPPORTED_VIDEO_EXTENSIONS := [lit "mp4"];
               SUPPORTED_DOCUMENT_EXTENSIONS := [lit "pdf"] |} in
  let item ext :=
    {| item_id := lit "K1"; item_name := lit "shot"; item_ext := ext;
       item_size := 2048; item_tags := []; item_folders := [];
       item_annotation := [] |} in
  let m :=
    EagleSearchModal.set_allItems
      [item (lit "PNG"); item (lit "mp4"); item (lit "jpg")]
      (EagleSearchModal.create [ScopeName]
         [lit "png"; lit "jpg"; lit "mp4"]) in
  EagleSearchModal.getItems asciiToLowerCase
    (EagleSearchModal.createTypeButton_onClick tb Images m)
  = [item (lit "mp4")].
Proof.
  intros tb item m.
  rewrite (getItems_after_category_off tb asciiToLowerCase m Images).
  - vm_compute. reflexivity.
  - discriminate.
  - reflexivity.
  - apply (bool_decide_unpack _). vm_compute. exact I.
Defined.

(** ** More on the scope buttons *)

Section ScopeButtons.

Import EagleSearchModal SettingTab.

(** X9. In the modal a second click on the same scope button undoes the
    first: from every non-empty set of scopes two clicks on one button give
    the set back. *)
Theorem scopeClick_twice (scope : SearchScope) (scopes : gset SearchScope) :
  scopes ≠ ∅ -> scopeClick scope (scopeClick scope scopes) = scopes.
Proof.
  intros Hne. unfold scopeClick at 2.
  case_bool_decide as Hin; [case_bool_decide as Hsz|].
  - unfold scopeClick.
    rewrite bool_decide_eq_false_2 by set_solver.
    apply leibniz_equiv. intros x. rewrite elem_of_union, elem_of_difference,
      elem_of_singleton.
    destruct (decide (x = scope)) as [->|]; tauto.
  - unfold scopeClick. rewrite bool_decide_eq_true_2 by done.
    by rewrite bool_decide_eq_false_2.
  - unfold scopeClick.
    rewrite bool_decide_eq_true_2 by set_solver.
    assert (Hsize : (1 < size ({[scope]} ∪ scopes))%nat).
    { rewrite size_union by set_solver. rewrite size_singleton.
      assert (size scopes ≠ 0%nat); [|lia].
      intros Hz. apply size_empty_inv in Hz. apply Hne.
      by apply leibniz_equiv. }
    rewrite bool_decide_eq_true_2 by done.
    apply leibniz_equiv. set_solver.
Qed.

Lemma scopeButton_onClick_NoDup (key : SearchScope)
    (scopes : list SearchScope) :
  NoDup scopes -> NoDup (scopeButton_onClick key scopes).
Proof.
  intros Hnd. unfold scopeButton_onClick.
  case_bool_decide as Hin; [case_bool_decide|].
  - by apply filter_NoDup.
  - done.
  - apply NoDup_app. split_and!; [done| |apply NoDup_singleton].
    intros x Hx Hx'. apply list_elem_of_singleton in Hx'. by subst.
Qed.

Lemma scopeButton_onClick_scopeClick (key : SearchScope)
    (scopes : list SearchScope) :
  NoDup scopes ->
  list_to_set (scopeButton_onClick key scopes)
  = scopeClick key (list_to_set scopes).
Proof.
  intros Hnd. unfold scopeButton_onClick, scopeClick.
  rewrite (size_list_to_set scopes) by done.
  destruct (decide (key ∈ scopes)) as [Hin|Hin].
  - assert (Hin' : key ∈ (list_to_set scopes : gset SearchScope))
      by (by apply elem_of_list_to_set).
    rewrite (bool_decide_eq_true_2 _ Hin), (bool_decide_eq_true_2 _ Hin').
    case_bool_decide; [|done].
    apply leibniz_equiv. intros x.
    rewrite elem_of_list_to_set, elem_of_difference, elem_of_list_to_set,
      elem_of_singleton, list_elem_of_In, filter_In, <- list_elem_of_In.
    by rewrite bool_decide_eq_true.
  - assert (Hin' : key ∉ (list_to_set scopes : gset SearchScope))
      by (by rewrite elem_of_list_to_set).
    rewrite (bool_decide_eq_false_2 _ Hin), (bool_decide_eq_false_2 _ Hin').
    rewrite list_to_set_app_L. simpl. apply leibniz_equiv. set_solver.
Qed.

(** X10. The scope buttons of the settings tab and of the modal do the same
    thing: on an array without repetitions, the set of the scopes after a
    click in the settings tab is the set after the same click in the modal,
    and so after any run of clicks. *)
Theorem settings_and_modal_scopes_agree (clicks : list SearchScope)
    (scopes : list SearchScope) :
  NoDup scopes ->
  list_to_set (foldl (fun acc key => scopeButton_onClick key acc)
                     scopes clicks)
  = foldl (fun acc scope => scopeClick scope acc)
          (list_to_set scopes : gset SearchScope) clicks.
Proof.
  revert scopes. induction clicks as [|c clicks IH]; intros scopes Hnd;
    simpl; [done|].
  rewrite IH by by apply scopeButton_onClick_NoDup.
  by rewrite scopeButton_onClick_scopeClick.
Qed.

End ScopeButtons.

Lemma scopeClick_twice_witness :
  EagleSearchModal.scopeClick ScopeTags
    (EagleSearchModal.scopeClick ScopeTags {[ScopeName]})
  = {[ScopeName]}.
Proof.
  apply scopeClick_twice.
  apply (bool_decide_unpack _). vm_compute. exact I.
Defined.

Lemma settings_and_modal_scopes_agree_witness :
  list_to_set (foldl (fun acc key => SettingTab.scopeButton_onClick key acc)
                     [ScopeName; ScopeTags] [ScopeName; ScopeFolders])
  = foldl (fun acc scope => EagleSearchModal.scopeClick scope acc)
          (list_to_set [ScopeName; ScopeTags] : gset SearchScope)
          [ScopeName; ScopeFolders].
Proof.
  apply settings_and_modal_scopes_agree.
  apply (bool_decide_unpack _). vm_compute. exact I.
Defined.

(** ** More on the type buttons of the settings tab *)

Section SettingsTypeButtons.

Import SettingTab.

Variable tb : ExtensionTables.

Lemma includes_true (l : list jsstring) (x : jsstring) :
  includes l x = true <-> x ∈ l.
Proof. unfold includes. apply bool_decide_eq_true. Qed.

Lemma hasAll_true (exts fileTypes : list jsstring) :
  hasAll exts fileTypes = true <-> forall x, x ∈ exts -> x ∈ fileTypes.
Proof.
  unfold hasAll. rewrite forallb_forall. split.
  - intros H x Hx. apply includes_true, H. by apply list_elem_of_In.
  - intros H x Hx. apply includes_true, H. by apply list_elem_of_In.
Qed.

Lemma pushMissing_spec (exts fileTypes : list jsstring) :
  fileTypes `prefix_of` pushMissing exts fileTypes
  /\ (forall x, x ∈ pushMissing exts fileTypes <-> x ∈ fileTypes \/ x ∈ exts)
  /\ (NoDup fileTypes -> NoDup (pushMissing exts fileTypes)).
Proof.
  unfold pushMissing. revert fileTypes.
  induction exts as [|e exts IH]; intros fileTypes; simpl.
  - split_and!; [done| |done]. intros x. rewrite elem_of_nil. tauto.
  - destruct (includes fileTypes e) eqn:He.
    + destruct (IH fileTypes) as (Hp & Hin & Hnd).
      split_and!; [done| |done].
      intros x. rewrite Hin, elem_of_cons.
      apply includes_true in He. split; [tauto|].
      intros [?|[->|?]]; auto.
    + destruct (IH (fileTypes ++ [e])) as (Hp & Hin & Hnd).
      split_and!.
      * etransitivity; [|exact Hp]. by apply prefix_app_r.
      * intros x. rewrite Hin, elem_of_app, list_elem_of_singleton,
          elem_of_cons. tauto.
      * intros Hft. apply Hnd. apply NoDup_app. split_and!; [done| |].
        -- intros x Hx Hx'. apply list_elem_of_singleton in Hx'. subst.
           apply includes_true in Hx. congruence.
        -- apply NoDup_singleton.
Qed.

Lemma filter_out_spec (exts fileTypes : list jsstring) :
  forall x,
    x ∈ List.filter (fun ext => negb (includes exts ext)) fileTypes
    <-> x ∈ fileTypes /\ x ∉ exts.
Proof.
  intros x. rewrite list_elem_of_In, filter_In, <- list_elem_of_In.
  rewrite negb_true_iff, <- not_true_iff_false, includes_true. done.
Qed.

Lemma filter_sublist {A} (f : A -> bool) (l : list A) :
  sublist (List.filter f l) l.
Proof.
  induction l as [|x l IH]; simpl; [constructor|].
  destruct (f x); by constructor.
Qed.

Lemma typeButton_onClick_on (exts fileTypes : list jsstring) :
  hasAll exts fileTypes = false ->
  typeButton_onClick tb exts fileTypes = pushMissing exts fileTypes.
Proof.
  intros Hoff. unfold typeButton_onClick. rewrite Hoff. cbv zeta.
  case_bool_decide as Hlen; [|done]. exfalso.
  apply length_zero_iff_nil in Hlen.
  destruct (pushMissing_spec exts fileTypes) as (_ & Hin & _).
  assert (Hall : hasAll exts fileTypes = true); [|congruence].
  apply hasAll_true. intros x Hx.
  assert (Hx' : x ∈ pushMissing exts fileTypes) by (apply Hin; auto).
  rewrite Hlen in Hx'. by apply elem_of_nil in Hx'.
Qed.

Lemma typeButton_onClick_off (exts fileTypes : list jsstring) :
  hasAll exts fileTypes = true ->
  (exists x, x ∈ fileTypes /\ x ∉ exts) ->
  typeButton_onClick tb exts fileTypes
  = List.filter (fun ext => negb (includes exts ext)) fileTypes.
Proof.
  intros Hon (x & Hx & Hout). unfold typeButton_onClick. rewrite Hon.
  cbv zeta. case_bool_decide as Hlen; [|done]. exfalso.
  apply length_zero_iff_nil in Hlen.
  assert (Hx' : x ∈ List.filter (fun ext => negb (includes exts ext))
                     fileTypes) by by apply filter_out_spec.
  rewrite Hlen in Hx'. by apply elem_of_nil in Hx'.
Qed.

Lemma typeButton_onClick_on_elems (exts fileTypes : list jsstring) :
  hasAll exts fileTypes = false ->
  forall x, x ∈ typeButton_onClick tb exts fileTypes
            <-> x ∈ fileTypes \/ x ∈ exts.
Proof.
  intros Hoff. rewrite typeButton_onClick_on by done.
  apply pushMissing_spec.
Qed.

Lemma typeButton_onClick_off_elems (exts fileTypes : list jsstring) :
  hasAll exts fileTypes = true ->
  (exists x, x ∈ fileTypes /\ x ∉ exts) ->
  forall x, x ∈ typeButton_onClick tb exts fileTypes
            <-> x ∈ fileTypes /\ x ∉ exts.
Proof.
  intros Hon Hout. rewrite typeButton_onClick_off by done.
  apply filter_out_spec.
Qed.

(** X11. What a click on a type button of the settings tab does to the
    array of file types. When an extension of the category is missing, the
    click appends the missing ones after the present entries and the
    category is complete afterwards. When the category is complete and the
    array holds another extension too, the click removes the extensions of
    the category and keeps the others in their order. *)
Theorem typeButton_onClick_effect (exts fileTypes : list jsstring) :
  (hasAll exts fileTypes = false ->
   fileTypes `prefix_of` typeButton_onClick tb exts fileTypes
   /\ (forall x, x ∈ typeButton_onClick tb exts fileTypes
                 <-> x ∈ fileTypes \/ x ∈ exts)
   /\ hasAll exts (typeButton_onClick tb exts fileTypes) = true)
  /\ (hasAll exts fileTypes = true ->
      (exists x, x ∈ fileTypes /\ x ∉ exts) ->
      sublist (typeButton_onClick tb exts fileTypes) fileTypes
      /\ (forall x, x ∈ typeButton_onClick tb exts fileTypes
                    <-> x ∈ fileTypes /\ x ∉ exts)).
Proof.
  split.
  - intros Hoff.
    pose proof (typeButton_onClick_on_elems exts fileTypes Hoff) as Hin.
    split_and!; [|done|].
    + rewrite typeButton_onClick_on by done. apply pushMissing_spec.
    + apply hasAll_true. intros x Hx. apply Hin. auto.
  - intros Hon Hout. split; [|by apply typeButton_onClick_off_elems].
    rewrite typeButton_onClick_off by done. apply filter_sublist.
Qed.

(** X12. Switching a complete category off and on again restores the
    selection: when the array holds every extension of the category and
    another extension too, two clicks on the button give an array with the
    same extensions as before. *)
Theorem typeButton_onClick_off_on (exts fileTypes : list jsstring) :
  hasAll exts fileTypes = true ->
  (exists x, x ∈ fileTypes /\ x ∉ exts) ->
  forall x,
    x ∈ typeButton_onClick tb exts (typeButton_onClick tb exts fileTypes)
    <-> x ∈ fileTypes.
Proof.
  intros Hon Hout x.
  pose proof (typeButton_onClick_off_elems exts fileTypes Hon Hout)
    as Hfirst.
  pose proof (proj1 (hasAll_true exts fileTypes) Hon) as Hsub.
  destruct (hasAll exts (typeButton_onClick tb exts fileTypes)) eqn:Hagain.
  - pose proof (proj1 (hasAll_true _ _) Hagain) as Hnone.
    assert (Hempty : forall y, y ∉ exts).
    { intros y Hy. by apply (proj1 (Hfirst y) (Hnone y Hy)). }
    assert (Hout' : exists y, y ∈ typeButton_onClick tb exts fileTypes
                              /\ y ∉ exts).
    { destruct Hout as (y & Hy & Hy'). exists y. split; [|done].
      by apply Hfirst. }
    rewrite (typeButton_onClick_off_elems exts _ Hagain Hout'), Hfirst.
    specialize (Hempty x). tauto.
  - rewrite (typeButton_onClick_on_elems exts _ Hagain), Hfirst.
    destruct (decide (x ∈ exts)); [|tauto].
    split; [intros [[? ?]|?]; auto | auto].
Qed.

Lemma typeButton_onClick_NoDup (exts fileTypes : list jsstring) :
  NoDup (SUPPORTED_IMAGE_EXTENSIONS tb) ->
  NoDup fileTypes -> NoDup (typeButton_onClick tb exts fileTypes).
Proof.
  intros Himg Hft. unfold typeButton_onClick. cbv zeta.
  case_bool_decide; [done|].
  destruct (hasAll exts fileTypes).
  - by apply filter_NoDup.
  - by apply pushMissing_spec.
Qed.

(** X13. The settings tab never stores an extension twice: when the table
    of image extensions and the array of file types have no repetition, the
    array has none after any run of clicks on the three type buttons. *)
Theorem typeClick_NoDup (clicks : list typeButton)
    (fileTypes : list jsstring) :
  NoDup (SUPPORTED_IMAGE_EXTENSIONS tb) ->
  NoDup fileTypes -> NoDup (foldl (typeClick tb) fileTypes clicks).
Proof.
  intros Himg. revert fileTypes.
  induction clicks as [|b clicks IH]; intros fileTypes Hft; simpl; [done|].
  apply IH. destruct b; by apply typeButton_onClick_NoDup.
Qed.

End SettingsTypeButtons.

Lemma typeButton_onClick_effect_witness :
  let tb := {| SUPPORTED_IMAGE_EXTENSIONS := [lit "jpg"; lit "png"];
               SUPPORTED_VIDEO_EXTENSIONS := [lit "mp4"; lit "mov"];
               SUPPORTED_DOCUMENT_EXTENSIONS := [lit "pdf"] |} in
  [lit "png"; lit "mov"]
    `prefix_of` SettingTab.vidBtn_onClick tb [lit "png"; lit "mov"]
  /\ sublist (SettingTab.vidBtn_onClick tb [lit "mov"; lit "png"; lit "mp4"])
             [lit "mov"; lit "png"; lit "mp4"].
Proof.
  intros tb. split.
  - apply (proj1 (typeButton_onClick_effect tb
                    (SUPPORTED_VIDEO_EXTENSIONS tb) [lit "png"; lit "mov"])).
    reflexivity.
  - apply (proj2 (typeButton_onClick_effect tb
                    (SUPPORTED_VIDEO_EXTENSIONS tb)
                    [lit "mov"; lit "png"; lit "mp4"])).
    + reflexivity.
    + exists (lit "png"). split.
      * apply (bool_decide_unpack _). vm_compute. exact I.
      * apply (bool_decide_unpack _). vm_compute. exact I.
Defined.

Lemma typeButton_onClick_off_on_witness :
  let tb := {| SUPPORTED_IMAGE_EXTENSIONS := [lit "jpg"; lit "png"];
               SUPPORTED_VIDEO_EXTENSIONS := [lit "mp4"; lit "mov"];
               SUPPORTED_DOCUMENT_EXTENSIONS := [lit "pdf"] |} in
  lit "mov"
    ∈ SettingTab.vidBtn_onClick tb
        (SettingTab.vidBtn_onClick tb [lit "mov"; lit "png"; lit "mp4"]).
Proof.
  intros tb.
  apply (typeButton_onClick_off_on tb (SUPPORTED_VIDEO_EXTENSIONS tb)
           [lit "mov"; lit "png"; lit "mp4"]).
  - reflexivity.
  - exists (lit "png"). split.
    + apply (bool_decide_unpack _). vm_compute. exact I.
    + apply (bool_decide_unpack _). vm_compute. exact I.
  - apply (bool_decide_unpack _). vm_compute. exact I.
Defined.

Lemma typeClick_NoDup_witness :
  let tb := {| SUPPORTED_IMAGE_EXTENSIONS := [lit "jpg"; lit "png"];
               SUPPORTED_VIDEO_EXTENSIONS := [lit "mp4"; lit "mov"];
               SUPPORTED_DOCUMENT_EXTENSIONS := [lit "pdf"] |} in
  NoDup (foldl (SettingTab.typeClick tb) [lit "png"; lit "mov"]
               [SettingTab.VidBtn; SettingTab.ImgBtn; SettingTab.VidBtn]).
Proof.
  intros tb. apply typeClick_NoDup.
  - apply (bool_decide_unpack _). vm_compute. exact I.
  - apply (bool_decide_unpack _). vm_compute. exact I.
Defined.

(** ** More on loading the items *)

Section LoadOutcomes.

Import EagleSearchModal.

Variable tb : ExtensionTables.

(** X14. A load on which Eagle does not answer the connection check: from
    an idle modal, the call sends the connection check and nothing else;
    when the check returns false the notice 'Eagle is not running...' is
    shown, the modal is closed, [isLoading] is clear, and [allItems] is what
    it was. *)
Theorem loadItems_not_connected (s : system) :
  isLoading (modal s) = false -> inflight s = [] ->
  let s' := run tb s [CallLoadItems; Settle 0 (Connected false)] in
  allItems (modal s') = allItems (modal s)
  /\ notices (modal s') = notices (modal s) ++ [NoticeNotRunning]
  /\ consoleErrors (modal s') = consoleErrors (modal s)
  /\ closed (modal s') = true
  /\ isLoading (modal s') = false
  /\ inflight s' = []
  /\ requests s' = requests s ++ [IsConnected].
Proof.
  intros Hl Hf s'. subst s'. unfold run. simpl.
  unfold loadItems. rewrite Hl, Hf. simpl. unfold settle. simpl. done.
Qed.

(** X15. A load that succeeds: from an idle modal, after the connection
    check, the library name and the listing have answered, [allItems] is the
    list received, the header (when it exists) shows the library name, or no
    name when it is empty, with the number of items received, one [input]
    event has been dispatched to refresh the suggestions, no notice is shown,
    [isLoading] is clear and the three requests were sent once each, in
    order. *)
Theorem loadItems_success (s : system) (libraryName : jsstring)
    (items : list EagleItem) :
  isLoading (modal s) = false -> inflight s = [] ->
  let s' := run tb s [CallLoadItems; Settle 0 (Connected true);
                      Settle 0 (LibraryName libraryName);
                      Settle 0 (Items items)] in
  allItems (modal s') = items
  /\ libraryNameEl (modal s')
     = match libraryNameEl (modal s) with
       | Some _ =>
           Some (LabelCount (if truthy libraryName then Some libraryName
                             else None) (length items))
       | None => None
       end
  /\ inputEvents (modal s') = S (inputEvents (modal s))
  /\ notices (modal s') = notices (modal s)
  /\ closed (modal s') = closed (modal s)
  /\ isLoading (modal s') = false
  /\ inflight s' = []
  /\ requests s' = requests s ++ [IsConnected; GetLibraryName; ListItems].
Proof.
  destruct s as [[loaded loading scopes types el shown errors events shut]
                   flying sent].
  simpl. intros -> ->. unfold run. simpl. unfold settle. simpl.
  rewrite <- !app_assoc. simpl.
  by destruct (truthy libraryName), el.
Qed.

Lemma step_allItems_cases (s : system) (e : event) :
  allItems (modal (step tb s e)) = allItems (modal s)
  \/ exists i items,
       e = Settle i (Items items) /\ allItems (modal (step tb s e)) = items.
Proof.
  destruct e as [hasPrompt| |i r|scope|category]; simpl.
  - left. unfold onOpen, loadItems, onModal, buildFilterUI.
    destruct hasPrompt; simpl; by destruct (isLoading (modal s)).
  - left. unfold loadItems. by destruct (isLoading (modal s)).
  - unfold settle.
    destruct (inflight s !! i) as [p|]; [|by left].
    destruct p, r as [[]| | |]; simpl; try (by left);
      try (left; by destruct (truthy _), (libraryNameEl (modal s))).
    right. eauto.
  - by left.
  - by left.
Qed.

(** X16. [allItems] only ever holds a list that Eagle sent: after any
    events, it is either the list the modal started with or the list of a
    listing response that occurred among the events. Notices, failed loads
    and filter clicks never change it. *)
Theorem allItems_comes_from_listing (s : system) (es : list event) :
  allItems (modal (run tb s es)) = allItems (modal s)
  \/ exists i items,
       Settle i (Items items) ∈ es
       /\ allItems (modal (run tb s es)) = items.
Proof.
  induction es as [|e es IH] using rev_ind; [by left|].
  unfold run in *. rewrite foldl_snoc.
  destruct (step_allItems_cases (foldl (step tb) s es) e)
    as [Hsame|(i & items & -> & Hnew)].
  - rewrite Hsame. destruct IH as [IH|(i & items & Hin & IH)]; [by left|].
    right. exists i, items. split; [|done].
    apply elem_of_app. by left.
  - right. exists i, items. split; [|done].
    apply elem_of_app. right. apply list_elem_of_here.
Qed.

End LoadOutcomes.

Lemma loadItems_not_connected_witness :
  let tb := {| SUPPORTED_IMAGE_EXTENSIONS := [lit "png"];
               SUPPORTED_VIDEO_EXTENSIONS := [lit "mp4"];
               SUPPORTED_DOCUMENT_EXTENSIONS := [lit "pdf"] |} in
  let s := EagleSearchModal.start
             {| searchScope := [ScopeName];
                searchFileTypes := [lit "png"];
                tagNormalization := []; tagPrefix := [];
                cloudProviders := SettingTab.providers_blank |} in
  EagleSearchModal.closed
    (EagleSearchModal.modal
       (EagleSearchModal.run tb s
          [EagleSearchModal.CallLoadItems;
           EagleSearchModal.Settle 0 (EagleSearchModal.Connected false)]))
  = true.
Proof.
  intros tb s.
  apply (loadItems_not_connected tb s eq_refl eq_refl).
Defined.

Lemma loadItems_success_witness :
  let tb := {| SUPPORTED_IMAGE_EXTENSIONS := [lit "png"];
               SUPPORTED_VIDEO_EXTENSIONS := [lit "mp4"];
               SUPPORTED_DOCUMENT_EXTENSIONS := [lit "pdf"] |} in
  let s := EagleSearchModal.start
             {| searchScope := [ScopeName];
                searchFileTypes := [lit "png"];
                tagNormalization := []; tagPrefix := [];
                cloudProviders := SettingTab.providers_blank |} in
  EagleSearchModal.allItems
    (EagleSearchModal.modal
       (EagleSearchModal.run tb s
          [EagleSearchModal.CallLoadItems;
           EagleSearchModal.Settle 0 (EagleSearchModal.Connected true);
           EagleSearchModal.Settle 0
             (EagleSearchModal.LibraryName (lit "Design"));
           EagleSearchModal.Settle 0 (EagleSearchModal.Items [])]))
  = [].
Proof.
  intros tb s.
  apply (loadItems_success tb s (lit "Design") [] eq_refl eq_refl).
Defined.

Section RequestOrder.

Import EagleSearchModal.

Variable tb : ExtensionTables.

Lemma orderly_snoc (log : list request) (r : request) :
  orderly log ->
  match r with
  | IsConnected => True
  | GetLibraryName => last log = Some IsConnected
  | ListItems => last log = Some GetLibraryName
  end ->
  orderly (log ++ [r]).
Proof.
  intros Hlog Hr k r' Hk.
  destruct (decide (k < length log)%nat) as [Hlt|Hge].
  - rewrite lookup_app_l in Hk by done.
    specialize (Hlog k r' Hk).
    destruct r'; [done| |]; destruct Hlog as (j & -> & Hj); exists j;
      (split; [done|]); by apply lookup_app_l_Some.
  - assert (k = length log) as ->.
    { apply lookup_lt_Some in Hk. rewrite length_app in Hk. simpl in Hk. lia. }
    rewrite list_lookup_middle in Hk by done. injection Hk as <-.
    destruct r; [done| |]; rewrite last_lookup in Hr;
      (destruct log as [|x log]; [discriminate|]);
      exists (length log); (split; [done|]);
      by apply lookup_app_l_Some.
Qed.

Lemma resume_next (p p' : pending) (r : response) (m m' : t) :
  resume p r m = Some (m', Some p') ->
  (awaited p = IsConnected /\ awaited p' = GetLibraryName)
  \/ (awaited p = GetLibraryName /\ awaited p' = ListItems).
Proof.
  intros H. destruct p, r as [[]| | |]; simpl in H; inversion H; subst;
    simpl; auto.
Qed.

(** The log is orderly, and its last entry is what the load in flight is
    waiting for. *)
Lemma orderly_step (s : system) (e : event) :
  guarded s ->
  orderly (requests s) ->
  (forall p, inflight s = [p] -> last (requests s) = Some (awaited p)) ->
  orderly (requests (step tb s e))
  /\ (forall p, inflight (step tb s e) = [p] ->
        last (requests (step tb s e)) = Some (awaited p)).
Proof.
  intros Hg Hlog Hlast.
  assert (Hload : forall s0 : system,
            guarded s0 -> orderly (requests s0) ->
            (forall p, inflight s0 = [p] ->
                       last (requests s0) = Some (awaited p)) ->
            orderly (requests (loadItems s0))
            /\ (forall p, inflight (loadItems s0) = [p] ->
                  last (requests (loadItems s0)) = Some (awaited p))).
  { intros s0 Hg0 Hlog0 Hlast0. unfold loadItems.
    destruct Hg0 as [[Hl Hf]|[Hl Hf]]; rewrite Hl; [|by split].
    simpl. rewrite Hf. split; [by apply orderly_snoc|].
    intros p Hp. injection Hp as <-. by rewrite last_snoc. }
  destruct e as [hasPrompt| |i r|scope|category]; simpl.
  - apply Hload; [|done..].
    apply guarded_onModal; [|done]. intros m. by destruct hasPrompt.
  - by apply Hload.
  - unfold settle.
    destruct (inflight s !! i) as [p|] eqn:Hi; [|by split].
    destruct (resume p r (modal s)) as [[m' next]|] eqn:Hr; [|by split].
    destruct Hg as [[_ Hf]|[_ [q Hf]]]; [by rewrite Hf in Hi|].
    rewrite Hf in Hi. destruct i as [|i]; [|done].
    injection Hi as ->. specialize (Hlast p Hf).
    destruct next as [p'|]; simpl; rewrite Hf; simpl.
    + split.
      * apply orderly_snoc; [done|].
        destruct (resume_next _ _ _ _ _ Hr) as [[Hp ->]|[Hp ->]];
          by rewrite Hlast, Hp.
      * intros p0 Hp0. injection Hp0 as <-. by rewrite last_snoc.
    + split; [done|]. intros p0 Hp0. discriminate.
  - by split.
  - by split.
Qed.

(** X17. The requests of the modal go out in order. In the log of requests
    after any events on a new modal, every request for the library name
    comes directly after a connection check, and every request for the
    item list directly after a request for the library name: the items are
    never requested without a connection check that succeeded. *)
Theorem requests_are_orderly (settings : CMDSPACEEagleSettings)
    (es : list event) :
  orderly (requests (run tb (start settings) es)).
Proof.
  assert (H : guarded (run tb (start settings) es)
              /\ orderly (requests (run tb (start settings) es))
              /\ (forall p, inflight (run tb (start settings) es) = [p] ->
                    last (requests (run tb (start settings) es))
                    = Some (awaited p))); [|apply H].
  induction es as [|e es IH] using rev_ind.
  - split_and!.
    + by left.
    + intros k r Hk. simpl in Hk. by rewrite lookup_nil in Hk.
    + intros p Hp. discriminate.
  - unfold run in *. rewrite foldl_snoc.
    destruct IH as (Hg & Hlog & Hlast).
    split; [by apply guarded_step|]. by apply orderly_step.
Qed.

End RequestOrder.

(** ** More on the paste-choice modal *)

Section PasteChoiceMore.

Import ImagePasteChoiceModal.

(** The promises handed out are numbered below [promises]; none of them is
    settled before it exists, and the stored resolver is one of them. *)
Lemma run_fresh (es : list event) (m : t) :
  (forall p, (promises m <= p)%nat -> settled m !! p = None) ->
  (forall q, resolvePromise m = Some q -> (q < promises m)%nat) ->
  (forall p, (promises (run m es) <= p)%nat -> settled (run m es) !! p = None)
  /\ (forall q, resolvePromise (run m es) = Some q ->
                (q < promises (run m es))%nat).
Proof.
  revert m. induction es as [|e es IH]; intros m Hfresh Hres; [by split|].
  simpl. apply IH.
  - assert (Hclose : forall m0 : t,
              (forall p, (promises m0 <= p)%nat -> settled m0 !! p = None) ->
              (forall q, resolvePromise m0 = Some q ->
                         (q < promises m0)%nat) ->
              forall p, (promises (onClose m0) <= p)%nat ->
                        settled (onClose m0) !! p = None).
    { intros m0 Hf Hr p Hp. unfold onClose in *.
      destruct (resolvePromise m0) as [q|] eqn:Hq; [|by apply Hf].
      simpl in *. unfold resolve. destruct (settled m0 !! q); [by apply Hf|].
      specialize (Hr q eq_refl).
      rewrite lookup_insert_ne by lia. by apply Hf. }
    destruct e; simpl; try done.
    + intros p Hp. apply Hfresh. lia.
    + intros p Hp. by apply Hclose.
    + intros p Hp. by apply Hclose.
    + intros p Hp. by apply Hclose.
    + intros p Hp. by apply Hclose.
  - assert (Hclose : forall m0 : t,
              (forall q, resolvePromise m0 = Some q ->
                         (q < promises m0)%nat) ->
              forall q, resolvePromise (onClose m0) = Some q ->
                        (q < promises (onClose m0))%nat).
    { intros m0 Hr q. unfold onClose.
      destruct (resolvePromise m0) as [q0|] eqn:Hq; simpl;
        [|by rewrite Hq].
      intros Hq'. injection Hq' as <-. by apply Hr. }
    destruct e; simpl; try done.
    + intros q Hq. injection Hq as <-. lia.
    + by apply Hclose.
    + by apply Hclose.
    + by apply Hclose.
    + by apply Hclose.
Qed.

(** A run of events that neither close the modal nor pick a destination,
    from any state. *)
Lemma quiet_run_from (es : list event) (m : t) :
  forallb quiet es = true ->
  response_choice (run m es) = response_choice m
  /\ response_rememberChoice (run m es)
     = (if forallb (fun e => match e with Toggle _ => false | _ => true end)
                   es
        then response_rememberChoice m
        else Some (lastToggle false es))
  /\ settled (run m es) = settled m
  /\ promises (run m es) = (promises m + calls es)%nat
  /\ resolvePromise (run m es)
     = match calls es with
       | O => resolvePromise m
       | S n => Some (promises m + n)%nat
       end.
Proof.
  induction es as [|e es IH] using rev_ind; intros Hq.
  - simpl. split_and!; try done; unfold calls; simpl; lia.
  - rewrite forallb_app in Hq. apply andb_prop in Hq as [Hq He].
    destruct (IH Hq) as (Hc & Hr & Hs & Hn & Hp).
    unfold run in *. rewrite foldl_snoc, calls_snoc, lastToggle_snoc.
    rewrite forallb_app. cbn [forallb].
    destruct e; try discriminate He; simpl.
    + rewrite Hn, Nat.add_1_r, andb_true_r. split_and!; try done; try lia.
    + rewrite Nat.add_0_r, andb_true_r. done.
    + rewrite Nat.add_0_r, andb_false_r. done.
Qed.

Lemma button_onClick_choice (c : choice) (m : t) :
  response_choice (button_onClick c m) = Some c.
Proof.
  unfold button_onClick, onClose. simpl. by destruct (resolvePromise m).
Qed.

(** X18. A click on a destination button resolves the promise with that
    destination: on a new modal on which [getResponse] was called and
    nothing else happened but toggling, the click on 'Eagle', 'Vault' or
    the cloud button resolves the promise of the last call with the choice
    of the button and with [rememberChoice] at the last position of the
    toggle, false when it was never switched. *)
Theorem click_resolves_destination (es : list event) (e : event)
    (c : choice) :
  forallb quiet es = true -> (0 < calls es)%nat -> picked e = Some c ->
  settled (run create (es ++ [e])) !! (calls es - 1)%nat
  = Some {| resp_choice := c;
            resp_rememberChoice := lastToggle false es |}.
Proof.
  intros Hq Hcalls He. unfold run. rewrite foldl_snoc.
  destruct (quiet_run es Hq) as (Hc & Hr & Hs & Hn & Hp).
  fold (run create es).
  destruct (calls es) as [|n] eqn:Hn'; [lia|].
  replace (S n - 1)%nat with n by lia.
  assert (Hclick : step (run create es) e
                   = button_onClick c (run create es)).
  { destruct e; simpl in He; try discriminate; by injection He as <-. }
  rewrite Hclick. unfold button_onClick.
  rewrite (onClose_settles _ n) by (simpl; rewrite ?Hs; done).
  simpl. by rewrite Hr.
Qed.

(** X19. The recorded choice is never cleared. Once a destination button
    has been clicked on a modal, a later round on the same modal (a new
    [getResponse], possibly toggling, then a dismissal without any click)
    resolves the new promise with that earlier destination, not with
    'cancel'. *)
Theorem dismissal_after_click_is_not_cancel (es1 es2 : list event)
    (e : event) (c : choice) :
  picked e = Some c ->
  forallb quiet es2 = true -> (0 < calls es2)%nat ->
  let before := run create (es1 ++ [e]) in
  resp_choice
    <$> settled (run create (es1 ++ [e] ++ es2 ++ [Dismiss]))
        !! (promises before + calls es2 - 1)%nat
  = Some c.
Proof.
  intros He Hq Hcalls before.
  assert (Hsplit : run create (es1 ++ [e] ++ es2 ++ [Dismiss])
                   = onClose (run before es2)).
  { subst before. unfold run. by rewrite !app_assoc, foldl_snoc, !foldl_app. }
  rewrite Hsplit.
  destruct (quiet_run_from es2 before Hq) as (Hc & _ & Hs & Hn & Hp).
  destruct (run_fresh (es1 ++ [e]) create) as [Hfresh _];
    [intros p _; apply lookup_empty | discriminate |].
  fold before in Hfresh.
  assert (Hchoice : response_choice before = Some c).
  { subst before. unfold run. rewrite foldl_snoc.
    destruct e; simpl in He; try discriminate; injection He as <-;
      apply button_onClick_choice. }
  destruct (calls es2) as [|n] eqn:Hn'; [lia|].
  replace (promises before + S n - 1)%nat with (promises before + n)%nat
    by lia.
  rewrite (onClose_settles _ (promises before + n)%nat Hp)
    by (rewrite Hs; apply Hfresh; lia).
  simpl. by rewrite Hc, Hchoice.
Qed.

(** X20. Only the promise of the last [getResponse] call can be resolved.
    When [getResponse] is called twice with no close in between, the promise
    of the first of the two calls is never resolved, whatever happens
    afterwards. *)
Theorem superseded_promise_never_resolves (es1 es2 : list event) :
  let p := promises (run create es1) in
  settled (run create (es1 ++ [CallGetResponse; CallGetResponse] ++ es2))
  !! p = None.
Proof.
  intros p.
  destruct (run_fresh es1 create) as [Hfresh Hres];
    [intros q _; apply lookup_empty | discriminate |].
  fold p in Hres.
  set (m1 := run create (es1 ++ [CallGetResponse; CallGetResponse])).
  assert (Hm1 : settled m1 !! p = None
                /\ exists q, resolvePromise m1 = Some q
                             /\ (p < q < promises m1)%nat).
  { subst m1. unfold run. rewrite foldl_app. simpl. split.
    - apply Hfresh. subst p. lia.
    - exists (S p). split; [done|]. subst p. unfold run. lia. }
  assert (Hrun : run create (es1 ++ [CallGetResponse; CallGetResponse] ++ es2)
                 = run m1 es2).
  { subst m1. unfold run. by rewrite app_assoc, foldl_app. }
  rewrite Hrun. clearbody m1. clear Hrun Hfresh Hres.
  revert m1 Hm1. induction es2 as [|e es2 IH]; intros m1 Hm1; [apply Hm1|].
  simpl. apply IH. destruct Hm1 as (Hnone & q & Hq & Hlt).
  assert (Hclose : forall m0 : t,
            settled m0 !! p = None -> resolvePromise m0 = Some q ->
            promises m0 = promises m1 ->
            settled (onClose m0) !! p = None
            /\ exists q', resolvePromise (onClose m0) = Some q'
                          /\ (p < q' < promises (onClose m0))%nat).
  { intros m0 Hn0 Hq0 Hp0. unfold onClose. rewrite Hq0. simpl. split.
    - unfold resolve. destruct (settled m0 !! q); [done|].
      rewrite lookup_insert_ne by lia. done.
    - exists q. split; [done|]. lia. }
  destruct e; simpl.
  - split; [done|]. exists (promises m1). split; [done|]. lia.
  - split; [done|]. eauto.
  - by apply Hclose.
  - by apply Hclose.
  - by apply Hclose.
  - split; [done|]. eauto.
  - by apply Hclose.
Qed.

End PasteChoiceMore.

Lemma click_resolves_destination_witness :
  ImagePasteChoiceModal.settled
    (ImagePasteChoiceModal.run ImagePasteChoiceModal.create
       [ImagePasteChoiceModal.OpenModal;
        ImagePasteChoiceModal.CallGetResponse;
        ImagePasteChoiceModal.Toggle true;
        ImagePasteChoiceModal.ClickLocal]) !! 0%nat
  = Some {| ImagePasteChoiceModal.resp_choice := ImagePasteChoiceModal.Local;
            ImagePasteChoiceModal.resp_rememberChoice := true |}.
Proof.
  apply (click_resolves_destination
           [ImagePasteChoiceModal.OpenModal;
            ImagePasteChoiceModal.CallGetResponse;
            ImagePasteChoiceModal.Toggle true]
           ImagePasteChoiceModal.ClickLocal ImagePasteChoiceModal.Local).
  - reflexivity.
  - vm_compute. constructor.
  - reflexivity.
Defined.

Lemma dismissal_after_click_is_not_cancel_witness :
  ImagePasteChoiceModal.resp_choice
    <$> ImagePasteChoiceModal.settled
          (ImagePasteChoiceModal.run ImagePasteChoiceModal.create
             [ImagePasteChoiceModal.OpenModal;
              ImagePasteChoiceModal.CallGetResponse;
              ImagePasteChoiceModal.ClickEagle;
              ImagePasteChoiceModal.OpenModal;
              ImagePasteChoiceModal.CallGetResponse;
              ImagePasteChoiceModal.Dismiss]) !! 1%nat
  = Some ImagePasteChoiceModal.Eagle.
Proof.
  apply (dismissal_after_click_is_not_cancel
           [ImagePasteChoiceModal.OpenModal;
            ImagePasteChoiceModal.CallGetResponse]
           [ImagePasteChoiceModal.OpenModal;
            ImagePasteChoiceModal.CallGetResponse]
           ImagePasteChoiceModal.ClickEagle ImagePasteChoiceModal.Eagle).
  - reflexivity.
  - reflexivity.
  - vm_compute. constructor.
Defined.

(** ** More on the settings tab *)

Section SettingsFields.

Import SettingTab.

(** X21. The connection settings stay usable through any edits: the base
    URL of the Eagle API is never empty (an empty input gives the default
    'http://localhost:41595'), and a connection timeout that is a positive
    number remains one, because an input that does not parse to a positive
    number leaves the timeout as it is. *)
Theorem connection_settings_stay_valid (parseInt : jsstring -> Number) :
  (forall value, eagleApiBaseUrl_onChange value ≠ [])
  /\ (forall (values : list jsstring) (timeout : Number),
        isPositive timeout = true ->
        isPositive (foldl (connectionTimeout_onChange parseInt)
                          timeout values) = true)
  /\ (forall (timeout : Number) (value : jsstring),
        isPositive (parseInt value) = false ->
        connectionTimeout_onChange parseInt timeout value = timeout).
Proof.
  split_and!.
  - intros value. unfold eagleApiBaseUrl_onChange.
    by destruct value.
  - induction values as [|v values IH]; intros timeout Hpos; [done|].
    simpl. apply IH. unfold connectionTimeout_onChange.
    destruct (negb (isNaN (parseInt v)) && isPositive (parseInt v)) eqn:Hv;
      [|done].
    by apply andb_prop in Hv as [_ Hv].
  - intros timeout value Hneg. unfold connectionTimeout_onChange.
    by rewrite Hneg, andb_false_r.
Qed.

Lemma trimStart_nil (s : jsstring) :
  trimStart s = [] <-> forallb isWhiteSpace s = true.
Proof.
  induction s as [|c s IH]; simpl; [done|].
  destruct (isWhiteSpace c); simpl; [exact IH|]. split; discriminate.
Qed.

Lemma trimStart_head (s : jsstring) (c : N) (r : jsstring) :
  trimStart s = c :: r -> isWhiteSpace c = false.
Proof.
  induction s as [|d s IH]; simpl; [discriminate|].
  destruct (isWhiteSpace d) eqn:Hd; [exact IH|].
  intros H. injection H as <- _. exact Hd.
Qed.

Lemma trimStart_fixed (s : jsstring) (c : N) (r : jsstring) :
  isWhiteSpace c = false -> trimStart (c :: r) = c :: r.
Proof. intros Hc. simpl. by rewrite Hc. Qed.

Lemma trimStart_suffix (s : jsstring) :
  exists skipped, s = skipped ++ trimStart s.
Proof.
  induction s as [|c s (skipped & IH)]; [by exists []|]. simpl.
  destruct (isWhiteSpace c).
  - exists (c :: skipped). simpl. by rewrite <- IH.
  - by exists [].
Qed.

Lemma forallb_rev {A} (f : A -> bool) (l : list A) :
  forallb f (rev l) = forallb f l.
Proof.
  induction l as [|x l IH]; [done|]. simpl.
  rewrite forallb_app, IH. simpl. rewrite andb_true_r. apply andb_comm.
Qed.

(** [trim] gives the empty string exactly on strings of white space. *)
Lemma trim_nil (s : jsstring) :
  trim s = [] <-> forallb isWhiteSpace s = true.
Proof.
  unfold trim, trimEnd. rewrite <- trimStart_nil.
  split.
  - intros H. apply (f_equal (@rev N)) in H. rewrite rev_involutive in H.
    simpl in H. apply trimStart_nil in H. rewrite forallb_rev in H.
    destruct (trimStart s) as [|c r] eqn:Hs; [done|].
    apply trimStart_head in Hs. simpl in H. by rewrite Hs in H.
  - intros ->. done.
Qed.

(** What [trim] returns has no white space at either end. *)
Lemma trim_ends (s : jsstring) :
  trimStart (trim s) = trim s /\ trimStart (rev (trim s)) = rev (trim s).
Proof.
  unfold trim, trimEnd. rewrite rev_involutive.
  destruct (trimStart s) as [|c r] eqn:Hs; [done|].
  pose proof (trimStart_head _ _ _ Hs) as Hc.
  destruct (trimStart_suffix (rev (c :: r))) as (skipped & Hsplit).
  destruct (trimStart (rev (c :: r))) as [|d u] eqn:Hu.
  - done.
  - pose proof (trimStart_head _ _ _ Hu) as Hd. split.
    + apply (f_equal (@rev N)) in Hsplit.
      rewrite rev_involutive, rev_app_distr in Hsplit.
      destruct (rev (d :: u)) as [|x xs] eqn:Hx.
      * apply (f_equal (@length N)) in Hx. rewrite length_rev in Hx.
        discriminate.
      * simpl in Hsplit. injection Hsplit as <- _.
        by apply trimStart_fixed.
    + by apply trimStart_fixed.
Qed.

Lemma trim_trim (s : jsstring) : trim (trim s) = trim s.
Proof.
  destruct (trim_ends s) as [H1 H2].
  unfold trim at 1. unfold trimEnd. rewrite H1, H2. apply rev_involutive.
Qed.

Lemma startsWith_http_strip (s : jsstring) :
  startsWith s (lit "http") = true ->
  startsWith (stripTrailingSlash s) (lit "http") = true.
Proof.
  change (lit "http") with [104; 116; 116; 112].
  destruct s as [|a [|b [|c [|d r]]]]; cbn [startsWith];
    rewrite ?andb_false_r; try discriminate.
  intros H. tests_to_props. subst.
  destruct r as [|x r]; cbn [stripTrailingSlash startsWith];
    [reflexivity|].
  destruct r; [destruct (x =? 47)|]; reflexivity.
Qed.

(** X22. The worker URL that the R2 field stores is in one of two shapes:
    it is empty exactly when the input is empty or white space only, and
    otherwise it starts with 'http' ('https://' is put in front of an input
    that does not). *)
Theorem r2_workerUrl_shape (value : jsstring) (c : R2Config) :
  let stored := r2_workerUrl (r2_workerUrl_onChange value c) in
  (stored = [] <-> forallb isWhiteSpace value = true)
  /\ (stored ≠ [] -> startsWith stored (lit "http") = true).
Proof.
  cbv zeta. unfold r2_workerUrl_onChange. cbn [r2_workerUrl].
  rewrite <- trim_nil.
  destruct (trim value) as [|x url] eqn:Htrim; [by split|].
  cbn [truthy andb].
  assert (Hhttp : startsWith
                    (stripTrailingSlash
                       (if negb (startsWith (x :: url) (lit "http"))
                        then lit "https://" ++ x :: url else x :: url))
                    (lit "http") = true).
  { apply startsWith_http_strip.
    by destruct (startsWith (x :: url) (lit "http")) eqn:Hsw. }
  split; [|done].
  split; [|discriminate]. intros Hnil. rewrite Hnil in Hhttp. discriminate.
Qed.

Lemma r2_workerUrl_shape_witness :
  startsWith
    (r2_workerUrl
       (r2_workerUrl_onChange (lit " eagle.me.workers.dev/ ")
          {| r2_enabled := false; r2_workerUrl := []; r2_apiKey := [];
             r2_publicUrl := [] |}))
    (lit "http") = true.
Proof.
  apply (proj2 (r2_workerUrl_shape (lit " eagle.me.workers.dev/ ")
                  {| r2_enabled := false; r2_workerUrl := [];
                     r2_apiKey := []; r2_publicUrl := [] |})).
  discriminate.
Defined.

Lemma s3_edit_trimmed (c : S3Config) (e : s3_field * jsstring) :
  Forall (fun s => trim s = s) (s3_texts c) ->
  Forall (fun s => trim s = s) (s3_texts (s3_edit c e)).
Proof.
  unfold s3_texts. intros H.
  repeat match goal with
         | H : Forall _ (_ :: _) |- _ => apply Forall_cons in H as [? H]
         end.
  destruct e as [[] value]; simpl;
    repeat (apply Forall_cons; split; try apply trim_trim; try assumption);
    apply Forall_nil_2.
Qed.

(** X23. The S3 fields are stored without white space around them, the
    WebDAV password as typed. When every text field of the S3 record is its
    own [trim], it is so after any edits; an edit leaves [trim] of the
    input in the field. The password field of WebDAV stores the input
    unchanged, white space included. *)
Theorem credentials_trimmed_except_password :
  (forall (es : list (s3_field * jsstring)) (c : S3Config),
      Forall (fun s => trim s = s) (s3_texts c) ->
      Forall (fun s => trim s = s) (s3_texts (foldl s3_edit c es)))
  /\ (forall (c : S3Config) (value : jsstring),
        s3_secretAccessKey (s3_edit c (S3SecretAccessKey, value)) = trim value
        /\ s3_accessKeyId (s3_edit c (S3AccessKeyId, value)) = trim value
        /\ s3_endpoint (s3_edit c (S3Endpoint, value)) = trim value)
  /\ (forall (c : WebDAVConfig) (value : jsstring),
        webdav_password (webdav_edit c (WebDAVPassword, value)) = value).
Proof.
  split_and!; [|done|done].
  induction es as [|e es IH]; intros c Hc; [done|].
  simpl. by apply IH, s3_edit_trimmed.
Qed.

Lemma credentials_trimmed_except_password_witness :
  Forall (fun s => trim s = s)
         (s3_texts (foldl s3_edit s3_blank
                      [(S3Endpoint, lit " https://s3.amazonaws.com ");
                       (S3SecretAccessKey, lit "secret ")])).
Proof.
  apply (proj1 credentials_trimmed_except_password).
  repeat constructor.
Defined.

End SettingsFields.

Lemma connection_settings_stay_valid_witness :
  SettingTab.isPositive
    (foldl (SettingTab.connectionTimeout_onChange
              (fun value => if bool_decide (value = lit "9000")
                            then SettingTab.Finite 9000 else SettingTab.NaN))
           (SettingTab.Finite 5000) [lit "abc"; lit "9000"; lit ""])
  = true.
Proof.
  apply (proj1 (proj2 (connection_settings_stay_valid _))).
  reflexivity.
Defined.

(** ** More on the cloud providers *)

Section ProviderFlags.

Import SettingTab.

(** X24. For Cloudflare R2, ImgHippo and the custom server the flag follows
    the credentials: from any state of the record, after any edits of the
    provider's fields of which at least one is an edit of a credential,
    [enabled] is true exactly when all the credentials of the provider
    (worker URL and API key; API key; upload URL) are non-empty. *)
Theorem enabled_follows_credentials :
  (forall (es : list (r2_field * jsstring)) (c : R2Config),
      Exists (fun e => fst e ≠ R2PublicUrl) es ->
      r2_enabled (foldl r2_edit c es) = r2_configured (foldl r2_edit c es))
  /\ (forall (values : list jsstring) (c : ImgHippoConfig),
        values ≠ [] ->
        imghippo_enabled (foldl imghippo_edit c values)
        = imghippo_configured (foldl imghippo_edit c values))
  /\ (forall (es : list (custom_field * jsstring)) (c : CustomConfig),
        Exists (fun e => fst e ≠ CustomPublicUrl) es ->
        custom_enabled (foldl custom_edit c es)
        = custom_configured (foldl custom_edit c es)).
Proof.
  split_and!.
  - induction es as [|e es IH] using rev_ind; intros c Hex.
    + by apply Exists_nil in Hex.
    + rewrite foldl_snoc. apply r2_edit_enabled. intros Hpub.
      apply IH. apply Exists_app in Hex as [Hex|Hex]; [done|].
      apply Exists_cons in Hex as [Hex|Hex]; [done|].
      by apply Exists_nil in Hex.
  - induction values as [|v values IH] using rev_ind; intros c Hne; [done|].
    rewrite foldl_snoc. apply imghippo_edit_enabled.
  - induction es as [|e es IH] using rev_ind; intros c Hex.
    + by apply Exists_nil in Hex.
    + rewrite foldl_snoc. apply custom_edit_enabled. intros Hpub.
      apply IH. apply Exists_app in Hex as [Hex|Hex]; [done|].
      apply Exists_cons in Hex as [Hex|Hex]; [done|].
      by apply Exists_nil in Hex.
Qed.

Lemma s3_edits_untouched (es : list (s3_field * jsstring)) (c : S3Config) :
  Forall (fun e => fst e ≠ S3SecretAccessKey) es ->
  s3_enabled (foldl s3_edit c es) = s3_enabled c.
Proof.
  revert c. induction es as [|e es IH]; intros c Hall; [done|].
  apply Forall_cons in Hall as [He Hall]. simpl.
  rewrite IH by done. by apply s3_enabled_untouched.
Qed.

Lemma webdav_edits_untouched (es : list (webdav_field * jsstring))
    (c : WebDAVConfig) :
  Forall (fun e => fst e ≠ WebDAVPassword) es ->
  webdav_enabled (foldl webdav_edit c es) = webdav_enabled c.
Proof.
  revert c. induction es as [|e es IH]; intros c Hall; [done|].
  apply Forall_cons in Hall as [He Hall]. simpl.
  rewrite IH by done. by apply webdav_enabled_untouched.
Qed.

(** X25. For S3 and WebDAV the flag is a snapshot taken when the secret key
    (the password) is edited. After any edits, [enabled] is what the
    credentials amounted to right after the last edit of the secret key
    (the password), whatever was edited later; so the flag is right when
    that field is the last one filled in. Without any edit of that field
    the flag keeps its old value. *)
Theorem enabled_is_snapshot_at_secret :
  (forall (c : S3Config) (before after : list (s3_field * jsstring))
          (value : jsstring),
      Forall (fun e => fst e ≠ S3SecretAccessKey) after ->
      s3_enabled
        (foldl s3_edit c (before ++ [(S3SecretAccessKey, value)] ++ after))
      = s3_configured
          (foldl s3_edit c (before ++ [(S3SecretAccessKey, value)])))
  /\ (forall (c : S3Config) (es : list (s3_field * jsstring)),
        Forall (fun e => fst e ≠ S3SecretAccessKey) es ->
        s3_enabled (foldl s3_edit c es) = s3_enabled c)
  /\ (forall (c : WebDAVConfig) (before after : list (webdav_field * jsstring))
             (value : jsstring),
        Forall (fun e => fst e ≠ WebDAVPassword) after ->
        webdav_enabled
          (foldl webdav_edit c (before ++ [(WebDAVPassword, value)] ++ after))
        = webdav_configured
            (foldl webdav_edit c (before ++ [(WebDAVPassword, value)])))
  /\ (forall (c : WebDAVConfig) (es : list (webdav_field * jsstring)),
        Forall (fun e => fst e ≠ WebDAVPassword) es ->
        webdav_enabled (foldl webdav_edit c es) = webdav_enabled c).
Proof.
  split_and!.
  - intros c before after value Hafter.
    rewrite app_assoc, foldl_app, s3_edits_untouched by done.
    by rewrite foldl_snoc.
  - intros c es. apply s3_edits_untouched.
  - intros c before after value Hafter.
    rewrite app_assoc, foldl_app, webdav_edits_untouched by done.
    by rewrite foldl_snoc.
  - intros c es. apply webdav_edits_untouched.
Qed.

End ProviderFlags.

Lemma enabled_follows_credentials_witness :
  let c := foldl SettingTab.r2_edit
             {| r2_enabled := true; r2_workerUrl := []; r2_apiKey := [];
                r2_publicUrl := [] |}
             [(SettingTab.R2ApiKey, lit "key");
              (SettingTab.R2PublicUrl, lit "https://pub-1.r2.dev")] in
  r2_enabled c = SettingTab.r2_configured c.
Proof.
  intros c. apply (proj1 enabled_follows_credentials).
  apply Exists_cons_hd. discriminate.
Defined.

Lemma enabled_is_snapshot_at_secret_witness :
  s3_enabled
    (foldl SettingTab.s3_edit SettingTab.s3_blank
       ([(SettingTab.S3Endpoint, lit "https://s3.amazonaws.com");
         (SettingTab.S3AccessKeyId, lit "AKIA")]
        ++ [(SettingTab.S3SecretAccessKey, lit "secret")]
        ++ [(SettingTab.S3Bucket, lit "assets")]))
  = SettingTab.s3_configured
      (foldl SettingTab.s3_edit SettingTab.s3_blank
         ([(SettingTab.S3Endpoint, lit "https://s3.amazonaws.com");
           (SettingTab.S3AccessKeyId, lit "AKIA")]
          ++ [(SettingTab.S3SecretAccessKey, lit "secret")])).
Proof.
  apply (proj1 enabled_is_snapshot_at_secret).
  repeat constructor. discriminate.
Defined.

(** ** More on the string helpers *)

Section StringHelpers.

Import EagleSearchModal.

(** X26. The range of the number that [formatFileSize] prints. For a count
    in the KB range the tenths printed lie between 1.0 and 1024.0, and the
    top value '1024.0 KB' is printed for the counts from 1048525 up to
    1048575: rounding reaches 1024.0 before the unit changes to MB. In the
    MB range the number printed is at least 1.0. *)
Theorem formatFileSize_range (n : N) :
  n <= MAX_SAFE_INTEGER ->
  (1024 <= n < 1048576 ->
   exists t, formatFileSize n = oneDecimal t ++ lit " KB"
             /\ 10 <= t <= 10240
             /\ (t = 10240 <-> 1048525 <= n))
  /\ (1048525 <= n < 1048576 -> formatFileSize n = lit "1024.0 KB")
  /\ (1048576 <= n ->
      exists t, formatFileSize n = oneDecimal t ++ lit " MB" /\ 10 <= t).
Proof.
  intros _. unfold formatFileSize, toFixed1.
  change (1024 * 1024) with 1048576.
  assert (Htop : 1048525 <= n < 1048576 ->
                 (20 * n + 1024) / (2 * 1024) = 10240) by lia.
  split_and!.
  - intros Hn. exists ((20 * n + 1024) / (2 * 1024)).
    destruct (N.ltb_spec n 1024); [lia|].
    destruct (N.ltb_spec n 1048576); [|lia].
    split; [reflexivity|]. lia.
  - intros Hn.
    destruct (N.ltb_spec n 1024); [lia|].
    destruct (N.ltb_spec n 1048576); [|lia].
    cbv zeta. rewrite (Htop Hn). reflexivity.
  - intros Hn. exists ((20 * n + 1048576) / (2 * 1048576)).
    destruct (N.ltb_spec n 1024); [lia|].
    destruct (N.ltb_spec n 1048576); [lia|].
    split; [reflexivity|]. lia.
Qed.

Lemma formatFileSize_range_witness :
  formatFileSize 1048570 = lit "1024.0 KB".
Proof.
  apply (proj1 (proj2 (formatFileSize_range 1048570
                         ltac:(vm_compute; discriminate)))).
  split; [vm_compute; discriminate | reflexivity].
Defined.

Variable toLowerCase : jsstring -> jsstring.

Lemma replaceWsRuns_no_space (in_run : bool) (s : jsstring) :
  forallb (fun c => negb (isWhiteSpace c)) (replaceWsRuns (lit "-") in_run s)
  = true.
Proof.
  revert in_run. induction s as [|c s IH]; intros in_run; [done|]. simpl.
  destruct (isWhiteSpace c) eqn:Hc.
  - destruct in_run; [apply IH|]. simpl. apply IH.
  - simpl. rewrite Hc. simpl. apply IH.
Qed.

Lemma replaceWsRuns_without_space (rep : jsstring) (in_run : bool)
    (s : jsstring) :
  forallb (fun c => negb (isWhiteSpace c)) s = true ->
  replaceWsRuns rep in_run s = s.
Proof.
  revert in_run. induction s as [|c s IH]; intros in_run Hs; [done|].
  simpl in Hs. apply andb_prop in Hs as [Hc Hs].
  apply negb_true_iff in Hc. simpl. rewrite Hc. f_equal. by apply IH.
Qed.

(** X27. A normalized tag is one word. When the lower-casing does not
    bring in white space, and the tag prefix has none, the result of
    [normalizeTag] contains no white space, whatever the tag; and a tag
    without white space is only lower-cased and prefixed. Without prefix
    and without lower-casing, normalizing twice is the same as once. *)
Theorem normalizeTag_one_word (settings : CMDSPACEEagleSettings)
    (tag : jsstring) :
  (forall s, forallb (fun c => negb (isWhiteSpace c)) s = true ->
             forallb (fun c => negb (isWhiteSpace c)) (toLowerCase s) = true) ->
  forallb (fun c => negb (isWhiteSpace c)) (tagPrefix settings) = true ->
  forallb (fun c => negb (isWhiteSpace c))
          (normalizeTag toLowerCase settings tag) = true
  /\ (tagPrefix settings = [] ->
      tagNormalization settings ≠ lit "lowercase" ->
      normalizeTag toLowerCase settings
        (normalizeTag toLowerCase settings tag)
      = normalizeTag toLowerCase settings tag).
Proof.
  intros Hlower Hprefix.
  pose proof (replaceWsRuns_no_space false tag) as Hword.
  split.
  - unfold normalizeTag.
    assert (Hcased : forallb (fun c => negb (isWhiteSpace c))
              (if bool_decide (tagNormalization settings = lit "lowercase")
               then toLowerCase (replaceWsRuns (lit "-") false tag)
               else replaceWsRuns (lit "-") false tag) = true).
    { case_bool_decide; [by apply Hlower | done]. }
    destruct (truthy (tagPrefix settings)); [|done].
    rewrite !forallb_app, Hprefix, Hcased. reflexivity.
  - intros Hnil Hcase. unfold normalizeTag.
    rewrite Hnil, (bool_decide_eq_false_2 _ Hcase). simpl.
    by apply replaceWsRuns_without_space.
Qed.

End StringHelpers.

Lemma asciiToLowerCase_no_space (s : jsstring) :
  forallb (fun c => negb (isWhiteSpace c)) s = true ->
  forallb (fun c => negb (isWhiteSpace c)) (asciiToLowerCase s) = true.
Proof.
  induction s as [|c s IH]; [done|]. simpl. intros H.
  apply andb_prop in H as [Hc Hs]. rewrite (IH Hs), andb_true_r.
  destruct ((65 <=? c) && (c <=? 90)) eqn:Hup; [|done].
  tests_to_props. unfold isWhiteSpace. decide_tests. done.
Qed.

Lemma normalizeTag_one_word_witness :
  let settings :=
    {| searchScope := [ScopeName]; searchFileTypes := [lit "png"];
       tagNormalization := lit "lowercase"; tagPrefix := lit "eagle";
       cloudProviders := SettingTab.providers_blank |} in
  forallb (fun c => negb (isWhiteSpace c))
          (EagleSearchModal.normalizeTag asciiToLowerCase settings
             (lit " Dark  Mode ")) = true.
Proof.
  intros settings.
  apply (normalizeTag_one_word asciiToLowerCase settings (lit " Dark  Mode ")).
  - apply asciiToLowerCase_no_space.
  - reflexivity.
Defined.

(** ** More on file URLs *)

Section FileUrlMore.

Import EagleSearchModal.

Lemma hexDigit_unreserved (d : N) : d < 16 -> isUnreserved (hexDigit d) = true.
Proof.
  intros Hd. unfold isUnreserved, hexDigit.
  destruct (N.ltb_spec d 10).
  - assert (H1 : (48 <=? 48 + d) = true) by (apply N.leb_le; lia).
    assert (H2 : (48 + d <=? 57) = true) by (apply N.leb_le; lia).
    rewrite H1, H2. simpl. by rewrite !orb_true_r.
  - assert (H1 : (65 <=? 55 + d) = true) by (apply N.leb_le; lia).
    assert (H2 : (55 + d <=? 90) = true) by (apply N.leb_le; lia).
    by rewrite H1, H2.
Qed.

Lemma escapeCodePoint_alphabet (cp : N) :
  cp < 2097152 ->
  Forall (fun c => isUnreserved c || (c =? 37) = true) (escapeCodePoint cp).
Proof.
  intros Hcp.
  assert (Hpct : forall b, b < 256 ->
            Forall (fun c => isUnreserved c || (c =? 37) = true)
                   (percentEncode b)).
  { intros b Hb. unfold percentEncode. repeat constructor.
    - rewrite hexDigit_unreserved; [done|lia].
    - rewrite hexDigit_unreserved; [done|lia]. }
  unfold escapeCodePoint, utf8Encode.
  decide_tests; cbn [flat_map]; rewrite ?Forall_app;
    repeat split; try apply Forall_nil_2; apply Hpct; lia.
Qed.

(** What [encodeURIComponent] returns on a well-formed string is made of
    unreserved characters and percent signs. *)
Lemma encodeURIComponent_alphabet (s e : jsstring) :
  isWellFormed s = true -> encodeURIComponent s = Some e ->
  Forall (fun c => isUnreserved c || (c =? 37) = true) e.
Proof.
  revert e.
  assert (Hbmp : forall c r,
            (forall e, encodeURIComponent r = Some e ->
               Forall (fun c => isUnreserved c || (c =? 37) = true) e) ->
            isHighSurrogate c = false -> c < 65536 ->
            forall e, encodeURIComponent (c :: r) = Some e ->
              Forall (fun c => isUnreserved c || (c =? 37) = true) e).
  { intros c r IH Hh Hc e He. simpl in He.
    destruct (isUnreserved c) eqn:Hu.
    - destruct (encodeURIComponent r) as [e'|]; [|discriminate].
      injection He as <-. constructor; [by rewrite Hu | by apply IH].
    - destruct (isLowSurrogate c); [discriminate|]. rewrite Hh in He.
      destruct (encodeURIComponent r) as [e'|]; [|discriminate].
      injection He as <-. apply Forall_app. split; [|by apply IH].
      apply escapeCodePoint_alphabet. lia. }
  induction s as [|c|c d r IHr IHdr] using list_ind2; intros e Hwf He.
  - injection He as <-. constructor.
  - simpl in Hwf. destruct (isHighSurrogate c) eqn:Hh; [done|].
    tests_to_props. apply (Hbmp c []); try done.
    intros e' He'. injection He' as <-. constructor.
  - change (isWellFormed (c :: d :: r))
      with (if isHighSurrogate c
            then isLowSurrogate d && isWellFormed r
            else negb (isLowSurrogate c) && (c <? 65536)
                 && isWellFormed (d :: r)) in Hwf.
    destruct (isHighSurrogate c) eqn:Hh; tests_to_props.
    + simpl in He.
      destruct (isUnreserved c) eqn:Hu.
      { apply unreserved_not_surrogate in Hu as [Hu _]. congruence. }
      destruct (isLowSurrogate c); [discriminate|].
      rewrite Hh in He.
      match goal with H : isLowSurrogate d = true |- _ => rewrite H in He end.
      destruct (encodeURIComponent r) as [e'|] eqn:Hr; [|discriminate].
      injection He as <-. apply Forall_app. split; [|by apply IHr].
      apply escapeCodePoint_alphabet.
      unfold isHighSurrogate, isLowSurrogate in *. tests_to_props. lia.
    + apply (Hbmp c (d :: r)); try done. intros e'. by apply IHdr.
Qed.

Lemma join_Forall (P : N -> Prop) (sep : N) (segs : list jsstring) :
  P sep -> Forall (Forall P) segs -> Forall P (join sep segs).
Proof.
  intros Hsep. induction 1 as [|seg segs Hseg Hsegs IH]; [constructor|].
  destruct segs as [|seg' segs]; [done|].
  rewrite join_cons by done. apply Forall_app. split; [done|].
  by constructor.
Qed.

(** The way back, from the lemmas on the segments. *)
Lemma fileUrlToPath_pathToFileUrl (path : jsstring) :
  isWellFormed path = true ->
  exists encoded,
    mapM encodeURIComponent (split 47 path) = Some encoded
    /\ pathToFileUrl path = Some (lit "file://" ++ join 47 encoded)
    /\ fileUrlToPath (lit "file://" ++ join 47 encoded) = Some path.
Proof.
  intros Hwf.
  destruct (encode_segments (split 47 path) (isWellFormed_split path Hwf))
    as (encoded & He & Hd & Hs & Hl).
  assert (Hne : encoded ≠ []).
  { pose proof (split_nonempty 47 path) as Hne.
    destruct encoded; [|done]. by destruct (split 47 path). }
  exists encoded. split_and!.
  - exact He.
  - unfold pathToFileUrl. by rewrite He.
  - unfold fileUrlToPath. rewrite stripPrefix_app. simpl.
    rewrite split_join by assumption. rewrite Hd. simpl.
    by rewrite join_split.
Qed.

(** X28. A file URL is plain ASCII that needs no further escaping: for a
    well-formed path, what [pathToFileUrl] returns after 'file://' consists
    of letters, digits, the marks - _ . ! ~ * ' ( ), percent signs and
    slashes only; in particular it contains no white space and no code unit
    above 126. *)
Theorem pathToFileUrl_alphabet (path : jsstring) :
  isWellFormed path = true ->
  exists rest,
    pathToFileUrl path = Some (lit "file://" ++ rest)
    /\ Forall (fun c => isUnreserved c || (c =? 37) || (c =? 47) = true) rest
    /\ Forall (fun c => c <= 126 /\ isWhiteSpace c = false) rest.
Proof.
  intros Hwf.
  destruct (fileUrlToPath_pathToFileUrl path Hwf) as (encoded & He & Hurl & _).
  exists (join 47 encoded). split; [exact Hurl|].
  assert (Hsafe : Forall (fun c => isUnreserved c || (c =? 37) || (c =? 47)
                                   = true) (join 47 encoded)).
  { apply join_Forall; [done|].
    apply mapM_Some in He.
    pose proof (isWellFormed_split path Hwf) as Hsegs.
    clear Hurl. induction He as [|seg e segs es Hseg _ IH]; [constructor|].
    apply Forall_cons in Hsegs as [Hseg' Hsegs]. constructor; [|by apply IH].
    eapply Forall_impl; [by apply (encodeURIComponent_alphabet seg)|].
    intros c Hc. simpl in Hc. by rewrite Hc. }
  split; [exact Hsafe|].
  eapply Forall_impl; [exact Hsafe|]. intros c Hc. simpl in Hc.
  unfold isUnreserved in Hc.
  repeat match goal with
         | H : _ || _ = true |- _ => apply orb_prop in H as [H|H]
         end; tests_to_props;
    (split; [lia|]); unfold isWhiteSpace; decide_tests; done.
Qed.

(** X29. Two different paths never get the same file URL: [pathToFileUrl]
    is injective on well-formed paths. *)
Theorem pathToFileUrl_injective (path1 path2 : jsstring) :
  isWellFormed path1 = true -> isWellFormed path2 = true ->
  pathToFileUrl path1 = pathToFileUrl path2 -> path1 = path2.
Proof.
  intros Hwf1 Hwf2 Heq.
  destruct (fileUrlToPath_pathToFileUrl path1 Hwf1)
    as (e1 & _ & Hurl1 & Hback1).
  destruct (fileUrlToPath_pathToFileUrl path2 Hwf2)
    as (e2 & _ & Hurl2 & Hback2).
  rewrite Hurl1, Hurl2 in Heq. injection Heq as Heq.
  rewrite Heq in Hback1. congruence.
Qed.

Lemma isWellFormed_app (a b : jsstring) :
  isWellFormed a = true -> isWellFormed b = true ->
  isWellFormed (a ++ b) = true.
Proof.
  intros Ha Hb. induction a as [|c|c d r IHr IHdr] using list_ind2.
  - done.
  - simpl in Ha. destruct (isHighSurrogate c) eqn:Hh; [done|].
    change ([c] ++ b) with (c :: b).
    change (isWellFormed (c :: b))
      with (if isHighSurrogate c then
              match b with
              | d :: r' => isLowSurrogate d && isWellFormed r'
              | [] => false
              end
            else negb (isLowSurrogate c) && (c <? 65536) && isWellFormed b).
    rewrite Hh, Hb. by rewrite andb_true_r in *.
  - change (isWellFormed (c :: d :: r))
      with (if isHighSurrogate c
            then isLowSurrogate d && isWellFormed r
            else negb (isLowSurrogate c) && (c <? 65536)
                 && isWellFormed (d :: r)) in Ha.
    change (isWellFormed ((c :: d :: r) ++ b))
      with (if isHighSurrogate c
            then isLowSurrogate d && isWellFormed (r ++ b)
            else negb (isLowSurrogate c) && (c <? 65536)
                 && isWellFormed ((d :: r) ++ b)).
    destruct (isHighSurrogate c).
    + apply andb_prop in Ha as [Hd Hr]. by rewrite Hd, IHr.
    + apply andb_prop in Ha as [Hc Hdr]. by rewrite Hc, IHdr.
Qed.

Lemma isWellFormed_join (segs : list jsstring) :
  Forall (fun seg => isWellFormed seg = true) segs ->
  isWellFormed (join 47 segs) = true.
Proof.
  induction 1 as [|seg segs Hseg Hsegs IH]; [done|].
  destruct segs as [|seg' segs]; [done|].
  rewrite join_cons by done. apply isWellFormed_app; [done|].
  change (isWellFormed (47 :: join 47 (seg' :: segs)))
    with (isWellFormed (join 47 (seg' :: segs))). exact IH.
Qed.

(** A string of 16-bit code units that [encodeURIComponent] accepts is
    well-formed. *)
Lemma encodeURIComponent_Some_isWellFormed (s : jsstring) :
  Forall (fun c => c < 65536) s ->
  is_Some (encodeURIComponent s) -> isWellFormed s = true.
Proof.
  assert (Hone : forall c r,
            c < 65536 -> isHighSurrogate c = false ->
            is_Some (encodeURIComponent (c :: r)) ->
            negb (isLowSurrogate c) && (c <? 65536) = true
            /\ is_Some (encodeURIComponent r)).
  { intros c r Hc Hh [e He]. simpl in He.
    assert (Hlt : (c <? 65536) = true) by by apply N.ltb_lt.
    rewrite Hlt, andb_true_r.
    destruct (isUnreserved c) eqn:Hu.
    - apply unreserved_not_surrogate in Hu as [_ Hl]. rewrite Hl.
      split; [done|]. destruct (encodeURIComponent r); [eauto|discriminate].
    - destruct (isLowSurrogate c); [discriminate|]. rewrite Hh in He.
      split; [done|]. destruct (encodeURIComponent r); [eauto|discriminate]. }
  induction s as [|c|c d r IHr IHdr] using list_ind2; intros Hb Hs.
  - done.
  - apply Forall_cons in Hb as [Hc _]. simpl.
    destruct (isHighSurrogate c) eqn:Hh.
    + destruct Hs as [e He]. simpl in He.
      destruct (isUnreserved c) eqn:Hu.
      { apply unreserved_not_surrogate in Hu as [Hu _]. congruence. }
      destruct (isLowSurrogate c); [discriminate|]. by rewrite Hh in He.
    + destruct (Hone c [] Hc Hh Hs) as [H1 _]. by rewrite H1.
  - apply Forall_cons in Hb as [Hc Hb].
    change (isWellFormed (c :: d :: r))
      with (if isHighSurrogate c
            then isLowSurrogate d && isWellFormed r
            else negb (isLowSurrogate c) && (c <? 65536)
                 && isWellFormed (d :: r)).
    destruct (isHighSurrogate c) eqn:Hh.
    + destruct Hs as [e He]. simpl in He.
      destruct (isUnreserved c) eqn:Hu.
      { apply unreserved_not_surrogate in Hu as [Hu _]. congruence. }
      destruct (isLowSurrogate c); [discriminate|]. rewrite Hh in He.
      destruct (isLowSurrogate d); [|discriminate]. simpl.
      apply IHr; [by apply Forall_cons in Hb as [_ Hb]|].
      destruct (encodeURIComponent r); [eauto|discriminate].
    + destruct (Hone c (d :: r) Hc Hh Hs) as [H1 H2].
      rewrite H1. simpl. by apply IHdr.
Qed.

Lemma split_units (sep : N) (s seg : jsstring) (c : N) :
  seg ∈ split sep s -> c ∈ seg -> c ∈ s.
Proof.
  revert seg. induction s as [|x s IH]; intros seg Hseg Hc; simpl in Hseg.
  - apply list_elem_of_singleton in Hseg. by subst.
  - destruct (x =? sep).
    + apply elem_of_cons in Hseg as [->|Hseg]; [by apply elem_of_nil in Hc|].
      apply list_elem_of_further. by apply (IH seg).
    + pose proof (split_nonempty sep s) as Hne.
      destruct (split sep s) as [|seg0 segs]; [done|].
      apply elem_of_cons in Hseg as [->|Hseg].
      * apply elem_of_cons in Hc as [->|Hc]; [apply list_elem_of_here|].
        apply list_elem_of_further. apply (IH seg0); [|done].
        apply list_elem_of_here.
      * apply list_elem_of_further. apply (IH seg); [|done].
        by apply list_elem_of_further.
Qed.

(** X30. [pathToFileUrl] fails exactly on the paths that are not
    well-formed: for a string of 16-bit code units it returns a URL when no
    surrogate stands without its partner, and throws (returns nothing)
    otherwise. *)
Theorem pathToFileUrl_fails_iff_malformed (path : jsstring) :
  Forall (fun c => c < 65536) path ->
  (pathToFileUrl path = None <-> isWellFormed path = false)
  /\ (is_Some (pathToFileUrl path) <-> isWellFormed path = true).
Proof.
  intros Hunits.
  assert (Hok : isWellFormed path = true -> is_Some (pathToFileUrl path)).
  { intros Hwf.
    destruct (fileUrlToPath_pathToFileUrl path Hwf) as (e & _ & -> & _).
    eauto. }
  assert (Hwf : is_Some (pathToFileUrl path) -> isWellFormed path = true).
  { intros [url Hurl]. unfold pathToFileUrl in Hurl.
    destruct (mapM encodeURIComponent (split 47 path)) as [encoded|] eqn:He;
      [|discriminate].
    rewrite <- (join_split 47 path). apply isWellFormed_join.
    apply mapM_Some in He. apply Forall_forall. intros seg Hseg.
    apply encodeURIComponent_Some_isWellFormed.
    - apply Forall_forall. intros c Hc.
      apply (proj1 (Forall_forall _ _) Hunits).
      by apply (split_units 47 path seg).
    - clear Hurl. induction He as [|x e l k Hx _ IH];
        [by apply elem_of_nil in Hseg|].
      apply elem_of_cons in Hseg as [->|Hseg]; [eauto|]. by apply IH. }
  split; [|split; assumption].
  split.
  - intros Hnone. destruct (isWellFormed path); [|done].
    destruct (Hok eq_refl) as [url Hurl]. congruence.
  - intros Hbad. destruct (pathToFileUrl path) eqn:Hurl; [|done].
    rewrite Hwf in Hbad by eauto. discriminate.
Qed.

End FileUrlMore.

Lemma pathToFileUrl_alphabet_witness :
  exists rest,
    EagleSearchModal.pathToFileUrl
      (lit "/Users/me/My Pictures/caf" ++ [233] ++ lit ".png")
    = Some (lit "file://" ++ rest)
    /\ Forall (fun c => isUnreserved c || (c =? 37) || (c =? 47) = true) rest
    /\ Forall (fun c => c <= 126 /\ isWhiteSpace c = false) rest.
Proof.
  apply pathToFileUrl_alphabet. reflexivity.
Defined.

Lemma pathToFileUrl_injective_witness :
  EagleSearchModal.pathToFileUrl (lit "/a b") ≠
  EagleSearchModal.pathToFileUrl (lit "/a%20b").
Proof.
  intros Heq.
  pose proof (pathToFileUrl_injective (lit "/a b") (lit "/a%20b")
                eq_refl eq_refl Heq) as Hpaths.
  discriminate Hpaths.
Defined.

Lemma pathToFileUrl_fails_iff_malformed_witness :
  EagleSearchModal.pathToFileUrl (lit "/tmp/" ++ [56832]) = None.
Proof.
  apply (proj1 (pathToFileUrl_fails_iff_malformed (lit "/tmp/" ++ [56832])
                  ltac:(repeat constructor))).
  reflexivity.
Defined.
